(** * The story store of lib/client-api (story_store.ts)

    A shallow embedding of the [StoryStore] class: the registry of stories,
    kinds and global metadata, the configuring-phase guard, argument
    defaulting, global-args reconciliation, removal, lookup and extraction.

    Conventions of the embedding.
    - JavaScript values are the inductive [value]; a plain object is an
      association list in property-insertion order.  JavaScript enumerates
      the keys that are canonical decimal numerals first, in numeric order,
      and the other keys in insertion order: the list is the enumeration
      order of an object none of whose keys is such a numeral
      ([no_index_keys]), as is the case of the ids produced by [toId]
      ([kind--name]).  Names inherited from [Object.prototype] are outside
      the model.
    - The store object, the closures it allocates and the calls it makes to
      its collaborators (logger, channel, hooks, decorator composer) form a
      [World]; every method is a function in the monad [M] of worlds and
      exceptions.  A thrown exception keeps the mutations made before it.
    - The packages the module imports (memoizerific, stable, lodash) are
      taken by their contract: a one-slot cache, a stable sort, [pick]. *)

From Stdlib Require Import List String Ascii ZArith Lia Bool Arith PeanoNat.
From Stdlib Require Import DecimalString Permutation.
Import ListNotations.
Open Scope string_scope.
Open Scope list_scope.

Set Implicit Arguments.
Set Warnings "-register-all".

(** ** JavaScript values *)

Module JS.

(** Numbers are integers (the store only tests them for truthiness); a
    function is opaque and known by a tag; [VHost] is a host object, here the
    [HooksContext] of an entry. *)
Inductive value : Type :=
| VUndefined
| VNull
| VBool (b : bool)
| VNum (z : Z)
| VStr (s : string)
| VFun (f : nat)
| VHost (h : nat)
| VArr (xs : list value)
| VObj (props : list (string * value)).

Definition props := list (string * value).

(** [if (v)]: the falsy values are undefined, null, false, 0 and the empty string. *)
Definition truthy (v : value) : bool :=
  match v with
  | VUndefined | VNull => false
  | VBool b => b
  | VNum z => negb (Z.eqb z 0)
  | VStr s => negb (String.eqb s "")
  | VFun _ | VHost _ | VArr _ | VObj _ => true
  end.

Definition is_nullish (v : value) : bool :=
  match v with VUndefined | VNull => true | _ => false end.

(** Association lists in insertion order: [o[k]] and [o[k] = v].  An
    assignment to a key that the object has keeps the place of the key; a
    new key goes last, which is where JavaScript enumerates a key that is
    not index-like (see [no_index_keys] below). *)
Fixpoint lookup {A} (k : string) (l : list (string * A)) : option A :=
  match l with
  | [] => None
  | (k', a) :: l' => if String.eqb k k' then Some a else lookup k l'
  end.

Fixpoint assign {A} (k : string) (a : A) (l : list (string * A)) : list (string * A) :=
  match l with
  | [] => [(k, a)]
  | (k', a') :: l' => if String.eqb k k' then (k, a) :: l' else (k', a') :: assign k a l'
  end.

(** [delete o[k]] *)
Fixpoint delete {A} (k : string) (l : list (string * A)) : list (string * A) :=
  match l with
  | [] => []
  | (k', a') :: l' => if String.eqb k k' then delete k l' else (k', a') :: delete k l'
  end.

Definition keys {A} (l : list (string * A)) : list string := map fst l.
Definition values {A} (l : list (string * A)) : list A := map snd l.

(** The keys that [Object.keys], [Object.values] and [Object.entries] list
    before all others, in ascending numeric order, whenever they were
    assigned: the canonical decimal numerals ([0], [7], [42], not [007]).
    JavaScript does so for the numerals below 2^32 - 1; the bound is left
    out, every canonical numeral counts as index-like. *)
Definition is_digit (c : ascii) : bool :=
  (48 <=? nat_of_ascii c)%nat && (nat_of_ascii c <=? 57)%nat.

Fixpoint all_digits (s : string) : bool :=
  match s with
  | EmptyString => true
  | String c s' => is_digit c && all_digits s'
  end.

Definition index_like (k : string) : bool :=
  match k with
  | EmptyString => false
  | String c rest => all_digits k && (negb (Ascii.eqb c "0") || String.eqb rest "")
  end.

(** No key of the object is index-like: the object is enumerated in the
    order of the list. *)
Definition no_index_keys {A} (l : list (string * A)) : bool :=
  forallb (fun kv => negb (index_like (fst kv))) l.

(** [v.k] on a receiver that is not null or undefined.  The property names
    read by the store (args, argTypes, docsOnly, options, ...) are not
    built-in properties of arrays, strings or functions. *)
Definition get (v : value) (k : string) : value :=
  match v with
  | VObj ps => match lookup k ps with Some x => x | None => VUndefined end
  | _ => VUndefined
  end.

Definition index_key (i : nat) : string := NilZero.string_of_uint (Nat.to_uint i).

Fixpoint indexed (i : nat) (xs : list value) : props :=
  match xs with
  | [] => []
  | x :: xs' => (index_key i, x) :: indexed (S i) xs'
  end.

Fixpoint chars (s : string) : list value :=
  match s with
  | EmptyString => []
  | String c s' => VStr (String c EmptyString) :: chars s'
  end.

(** Own enumerable properties, as seen by [Object.entries] and by spread. *)
Definition own_entries (v : value) : props :=
  match v with
  | VObj ps => ps
  | VArr xs => indexed 0 xs
  | VStr s => indexed 0 (chars s)
  | _ => []
  end.

(** [{...base, ...v}] on top of the properties [base]. *)
Definition spread (base : props) (v : value) : props :=
  fold_left (fun acc kv => assign (fst kv) (snd kv) acc) (own_entries v) base.

(** lodash [pick(o, k1, k2)]: the listed properties that [o] has. *)
Definition pick (o : value) (ks : list string) : value :=
  VObj (flat_map (fun k => match o with
                           | VObj ps => match lookup k ps with
                                        | Some x => [(k, x)]
                                        | None => []
                                        end
                           | _ => []
                           end) ks).

End JS.
Export JS.

(** ** The parameter composer (./parameters) *)

Module Composer.

(** Modelled from the spec: [combineParameters] of ./parameters is not among
    the sources.  Layers are applied left to right and later layers win; plain
    mappings are merged key by key, recursively; any other value of a later
    layer replaces the earlier one wholesale; an [undefined] value of a later
    layer erases nothing; no layer gives the empty mapping. *)
Fixpoint combine_value (existing : option value) (later : value) {struct later} : value :=
  match later with
  | VObj pb =>
      match existing with
      | Some (VObj pa) =>
          VObj ((fix merge (acc : props) (l : props) {struct l} : props :=
                   match l with
                   | [] => acc
                   | (k, v) :: l' =>
                       merge (match v with
                              | VUndefined => acc
                              | _ => assign k (combine_value (lookup k acc) v) acc
                              end) l'
                   end) pa pb)
      | _ => later
      end
  | _ => later
  end.

(** Modelled from the spec: one layer on top of what the earlier layers
    gave; a layer that is absent contributes nothing. *)
Definition combine_layer (acc : value) (layer : value) : value :=
  match layer with
  | VObj _ => combine_value (Some acc) layer
  | _ => acc
  end.

(** Modelled from the spec: [combineParameters(...layers)]. *)
Definition combineParameters (layers : list value) : value :=
  fold_left combine_layer layers (VObj []).

End Composer.
Export Composer.

(** ** Data model of the store *)

Definition DecoratorFunction := nat.
Definition StoryFn := nat.
Definition ParameterEnhancer := value -> value.

(** [StoryMetadata]: both members are optional in the source type. *)
Record StoryMetadata := {
  md_parameters : value;
  md_decorators : option (list DecoratorFunction)
}.

Record KindMetadata := {
  kind_order : nat;
  kind_parameters : value;
  kind_decorators : list DecoratorFunction
}.

Record GlobalMetadata := {
  global_parameters : value;
  global_decorators : list DecoratorFunction
}.

(** An entry of [_stories].  [hooks] is the handle of the [HooksContext]
    created for the entry; [getDecorated] refers to the memoized closure
    created for it ([None] for an entry that lacks the capability).  The
    [storyFn] member is the closure [storyFn] below applied to the entry. *)
Record StoreItem := {
  id : string;
  kind : string;
  name : string;
  story : string;
  hooks : nat;
  getDecorated : option nat;
  getOriginal : StoryFn;
  parameters : value;
  args : value
}.

Record PublishedStoreItem := {
  item : StoreItem;
  globalArgs : value
}.

Record StoryOptions := { includeDocsOnly : option bool }.

Record Selection := { storyId : string; viewMode : string }.

Record AddStoryArgs := {
  add_id : string;
  add_kind : string;
  add_name : string;
  add_storyFn : StoryFn;
  add_parameters : value;
  add_decorators : option (list DecoratorFunction)
}.

Record StoryStore := {
  _error : option string;
  _channel : bool;
  _configuring : bool;
  _globalArgs : value;
  _globalMetadata : GlobalMetadata;
  _kinds : list (string * KindMetadata);
  _stories : list (string * StoreItem);
  _parameterEnhancers : list ParameterEnhancer;
  _revision : nat;
  _selection : option Selection
}.

(** The closure [memoize(1)(() => applyDecorators(finalStoryFn, decorators))]:
    what it captured, and whether its single cache slot is filled. *)
Record Thunk := {
  applier : nat;
  finalStoryFn : StoryFn;
  decorators : list DecoratorFunction;
  computed : bool
}.

(** What [toExtracted] makes of a member that it keeps: the value as it is
    or, for an array, the copy [value.slice().sort()].  A sort without a
    comparator orders the elements by their string conversion, which for a
    function is its source text: the sorted copy is kept as a term. *)
Inductive Kept :=
| AsStored (v : value)
| SortedCopy (xs : list value).

(** The result of [toExtracted] on an entry.  [hooks] and the members
    [getDecorated], [getOriginal] and [storyFn], which are functions, are
    dropped; [parameters] and [args] are dropped ([None]) when they are
    functions. *)
Record Extracted := {
  ex_id : string;
  ex_kind : string;
  ex_name : string;
  ex_story : string;
  ex_parameters : option Kept;
  ex_args : option Kept
}.

Inductive ChannelEvent :=
| RENDER_CURRENT_STORY
| SET_STORIES (stories : list (string * Extracted))
| GLOBAL_ARGS_UPDATED (globals : value)
| STORY_ARGS_UPDATED (sid : string) (a : value)
| CURRENT_STORY_WAS_SET (sel : Selection).

(** Calls made to the collaborators. *)
Inductive Event :=
| LoggerWarn (msg : string)
| LoggerError (msg : string)
| Emit (e : ChannelEvent)
| HooksClean (h : nat)
| ApplyDecorators (cell : nat) (by_applier : nat) (fn : StoryFn) (ds : list DecoratorFunction)
| Render (cell : nat) (context : value).

(** The store, the memoized closures in order of creation, and the trace of
    calls to collaborators, oldest first. *)
Record World := {
  this : StoryStore;
  closures : list Thunk;
  effects : list Event
}.

Inductive Error :=
| Err (message : string)
| TypeError (message : string).

Inductive Outcome (A : Type) :=
| Return (a : A)
| Throw (e : Error).
Arguments Return {A} a.
Arguments Throw {A} e.

Definition M (A : Type) := World -> Outcome A * World.

Definition ret {A} (a : A) : M A := fun w => (Return a, w).
Definition throw {A} (e : Error) : M A := fun w => (Throw e, w).
Definition bind {A B} (c : M A) (k : A -> M B) : M B :=
  fun w => match c w with
           | (Return a, w') => k a w'
           | (Throw e, w') => (Throw e, w')
           end.
Definition try_catch {A} (body : M A) (handler : Error -> M A) : M A :=
  fun w => match body w with
           | (Return a, w') => (Return a, w')
           | (Throw e, w') => handler e w'
           end.

Notation "x <- c ;; k" := (bind c (fun x => k))
  (at level 61, c at next level, right associativity).
Notation "c ;; k" := (bind c (fun _ => k))
  (at level 61, right associativity).

Definition get_this : M StoryStore := fun w => (Return (this w), w).
Definition modify (f : StoryStore -> StoryStore) : M unit :=
  fun w => (Return tt, {| this := f (this w); closures := closures w; effects := effects w |}).
Definition perform (e : Event) : M unit :=
  fun w => (Return tt, {| this := this w; closures := closures w; effects := effects w ++ [e] |}).

(** Modelled from the spec: [HooksContext] of ./hooks is not among the
    sources; [hooks.clean()] is the release capability of the resource
    handle of a story.  The call is recorded in the trace. *)
Definition hooks_clean (h : nat) : M unit := perform (HooksClean h).

Fixpoint mapM {A B} (f : A -> M B) (l : list A) : M (list B) :=
  match l with
  | [] => ret []
  | x :: l' => y <- f x ;; ys <- mapM f l' ;; ret (y :: ys)
  end.

(** Field updates of the store object. *)
Definition set_error (x : option string) (s : StoryStore) : StoryStore :=
  {| _error := x; _channel := _channel s; _configuring := _configuring s;
     _globalArgs := _globalArgs s; _globalMetadata := _globalMetadata s;
     _kinds := _kinds s; _stories := _stories s;
     _parameterEnhancers := _parameterEnhancers s; _revision := _revision s;
     _selection := _selection s |}.
Definition set_configuring (x : bool) (s : StoryStore) : StoryStore :=
  {| _error := _error s; _channel := _channel s; _configuring := x;
     _globalArgs := _globalArgs s; _globalMetadata := _globalMetadata s;
     _kinds := _kinds s; _stories := _stories s;
     _parameterEnhancers := _parameterEnhancers s; _revision := _revision s;
     _selection := _selection s |}.
Definition set_globalArgs (x : value) (s : StoryStore) : StoryStore :=
  {| _error := _error s; _channel := _channel s; _configuring := _configuring s;
     _globalArgs := x; _globalMetadata := _globalMetadata s;
     _kinds := _kinds s; _stories := _stories s;
     _parameterEnhancers := _parameterEnhancers s; _revision := _revision s;
     _selection := _selection s |}.
Definition set_globalMetadata (x : GlobalMetadata) (s : StoryStore) : StoryStore :=
  {| _error := _error s; _channel := _channel s; _configuring := _configuring s;
     _globalArgs := _globalArgs s; _globalMetadata := x;
     _kinds := _kinds s; _stories := _stories s;
     _parameterEnhancers := _parameterEnhancers s; _revision := _revision s;
     _selection := _selection s |}.
Definition set_kinds (x : list (string * KindMetadata)) (s : StoryStore) : StoryStore :=
  {| _error := _error s; _channel := _channel s; _configuring := _configuring s;
     _globalArgs := _globalArgs s; _globalMetadata := _globalMetadata s;
     _kinds := x; _stories := _stories s;
     _parameterEnhancers := _parameterEnhancers s; _revision := _revision s;
     _selection := _selection s |}.
Definition set_stories (x : list (string * StoreItem)) (s : StoryStore) : StoryStore :=
  {| _error := _error s; _channel := _channel s; _configuring := _configuring s;
     _globalArgs := _globalArgs s; _globalMetadata := _globalMetadata s;
     _kinds := _kinds s; _stories := x;
     _parameterEnhancers := _parameterEnhancers s; _revision := _revision s;
     _selection := _selection s |}.
Definition set_parameterEnhancers (x : list ParameterEnhancer) (s : StoryStore) : StoryStore :=
  {| _error := _error s; _channel := _channel s; _configuring := _configuring s;
     _globalArgs := _globalArgs s; _globalMetadata := _globalMetadata s;
     _kinds := _kinds s; _stories := _stories s;
     _parameterEnhancers := x; _revision := _revision s;
     _selection := _selection s |}.
Definition set_revision (x : nat) (s : StoryStore) : StoryStore :=
  {| _error := _error s; _channel := _channel s; _configuring := _configuring s;
     _globalArgs := _globalArgs s; _globalMetadata := _globalMetadata s;
     _kinds := _kinds s; _stories := _stories s;
     _parameterEnhancers := _parameterEnhancers s; _revision := x;
     _selection := _selection s |}.
Definition set_selection (x : option Selection) (s : StoryStore) : StoryStore :=
  {| _error := _error s; _channel := _channel s; _configuring := _configuring s;
     _globalArgs := _globalArgs s; _globalMetadata := _globalMetadata s;
     _kinds := _kinds s; _stories := _stories s;
     _parameterEnhancers := _parameterEnhancers s; _revision := _revision s;
     _selection := x |}.

Definition set_item_args (x : value) (e : StoreItem) : StoreItem :=
  {| id := id e; kind := kind e; name := name e; story := story e; hooks := hooks e;
     getDecorated := getDecorated e; getOriginal := getOriginal e;
     parameters := parameters e; args := x |}.

(** The constructor: configuring from the start, everything empty. *)
Definition new_StoryStore (channel : bool) : StoryStore :=
  {| _error := None; _channel := channel; _configuring := true;
     _globalArgs := VObj [];
     _globalMetadata := {| global_parameters := VObj []; global_decorators := [] |};
     _kinds := []; _stories := []; _parameterEnhancers := [];
     _revision := 0; _selection := None |}.

Definition new_World (channel : bool) : World :=
  {| this := new_StoryStore channel; closures := []; effects := [] |}.

(** ** Helpers of the module *)

Definition isStoryDocsOnly (p : value) : bool :=
  truthy p && truthy (get p "docsOnly").

(** [includeStory(story, options = { includeDocsOnly: false })] *)
Definition includeStory (story_parameters : value) (options : option StoryOptions) : bool :=
  match options with
  | Some {| includeDocsOnly := Some true |} => true
  | _ => negb (isStoryDocsOnly story_parameters)
  end.

(** The reducer of [toExtracted] on a member other than [hooks]:
    [typeof value === 'function'] drops it, [Array.isArray(value)] keeps a
    sorted copy, anything else is kept. *)
Definition extracted_member (v : value) : option Kept :=
  match v with
  | VFun _ => None
  | VArr xs => Some (SortedCopy xs)
  | _ => Some (AsStored v)
  end.

Definition toExtracted (e : StoreItem) : Extracted :=
  {| ex_id := id e; ex_kind := kind e; ex_name := name e; ex_story := story e;
     ex_parameters := extracted_member (parameters e);
     ex_args := extracted_member (args e) |}.

(** The reducer used on [argTypes] in addStory and on [globalArgTypes] in
    finishConfiguring: [(acc, [arg, { defaultValue }]) => { if (defaultValue)
    acc[arg] = defaultValue; return acc; }].  Destructuring an entry whose
    value is null or undefined throws ([None]). *)
Fixpoint defaultValues (acc : props) (entries : props) : option props :=
  match entries with
  | [] => Some acc
  | (arg, t) :: rest =>
      if is_nullish t then None
      else let defaultValue := get t "defaultValue" in
           defaultValues (if truthy defaultValue then assign arg defaultValue acc else acc) rest
  end.

(** The stable sort of the [stable] package (and of [Array.prototype.sort]),
    by its contract: [a] stays before [b] when [comp(a, b) <= 0].  A
    comparator that throws ([None]) aborts the sort. *)
Fixpoint stable_insert {A} (comp : A -> A -> option Z) (x : A) (l : list A) : option (list A) :=
  match l with
  | [] => Some [x]
  | y :: l' =>
      match comp x y with
      | None => None
      | Some c => if (c <=? 0)%Z then Some (x :: y :: l')
                  else option_map (cons y) (stable_insert comp x l')
      end
  end.

Fixpoint stable_sort {A} (comp : A -> A -> option Z) (l : list A) : option (list A) :=
  match l with
  | [] => Some []
  | x :: l' =>
      match stable_sort comp l' with
      | None => None
      | Some sorted => stable_insert comp x sorted
      end
  end.

(** The cache slot of closure [cell] becomes filled. *)
Fixpoint fill_cache (cell : nat) (l : list Thunk) : list Thunk :=
  match l with
  | [] => []
  | t :: l' =>
      match cell with
      | 0 => {| applier := applier t; finalStoryFn := finalStoryFn t;
                decorators := decorators t; computed := true |} :: l'
      | S c => t :: fill_cache c l'
      end
  end.

(** ** The methods of [StoryStore] *)

Section Methods.

(** [process.env.JEST_WORKER_ID !== undefined] *)
Variable inJest : bool.

(** The comparator denoted by a [parameters.options.storySort] value: the
    value itself when it is a function, [storySort(value)] otherwise
    ([storySort] of ./storySort is not among the sources). *)
Variable storySortComparator :
  value -> (string * StoreItem) -> (string * StoreItem) -> Z.

Definition checkGlobalArgs (p : value) : M unit :=
  if (truthy (get p "globalArgs") || truthy (get p "globalArgTypes")) && negb inJest
  then perform (LoggerError "Global args/argTypes can only be set globally")
  else ret tt.

Definition startConfiguring : M unit := modify (set_configuring true).

(** [this._stories[id]], the lookup of the guarded block of fromId. *)
Definition read_story (sid : string) : M (option StoreItem) :=
  s <- get_this ;; ret (lookup sid (_stories s)).

(** The [try] block of fromId.  The property read is the one step of the
    block that JavaScript lets fail (the table is a member of the object,
    which its holder can replace): the block is written over the read, and
    fromId is the block over the store's own table. *)
Definition fromId_body (read : string -> M (option StoreItem)) (sid : string)
  : M (option PublishedStoreItem) :=
  data <- read sid ;;
  match data with
  | None => ret None
  | Some data =>
      match getDecorated data with
      | None => ret None
      | Some _ =>
          s <- get_this ;;
          ret (Some {| item := data; globalArgs := _globalArgs s |})
      end
  end.

(** The [catch] block: [logger.warn], [logger.error(e)], [return null]. *)
Definition fromId_handler (e : Error) : M (option PublishedStoreItem) :=
  perform (LoggerWarn "failed to get story:") ;;
  perform (LoggerError (match e with Err m | TypeError m => m end)) ;;
  ret None.

Definition fromId_over (read : string -> M (option StoreItem)) (sid : string)
  : M (option PublishedStoreItem) :=
  try_catch (fromId_body read sid) fromId_handler.

Definition fromId (sid : string) : M (option PublishedStoreItem) :=
  fromId_over read_story sid.

Definition raw (options : option StoryOptions) : M (list (option PublishedStoreItem)) :=
  s <- get_this ;;
  mapM (fun i => fromId (id i))
       (filter (fun i => includeStory (parameters i) options)
               (filter (fun i => match getDecorated i with Some _ => true | None => false end)
                       (values (_stories s)))).

(** The key found by [Object.keys(this._stories).find(...)], when the branch
    [index && this._stories[index].parameters.options.storySort] is taken. *)
Definition storySortParameter (stories : list (string * StoreItem)) : option value :=
  match find (fun key => match lookup key stories with
                         | Some st => truthy (parameters st) && truthy (get (parameters st) "options")
                         | None => false
                         end) (keys stories) with
  | None => None
  | Some index =>
      match lookup index stories with
      | None => None
      | Some st =>
          let p := get (get (parameters st) "options") "storySort" in
          if truthy (VStr index) && truthy p then Some p else None
      end
  end.

Definition kindOrderComparator (s : StoryStore) (s1 s2 : string * StoreItem) : option Z :=
  match lookup (kind (snd s1)) (_kinds s), lookup (kind (snd s2)) (_kinds s) with
  | Some k1, Some k2 => Some (Z.of_nat (kind_order k1) - Z.of_nat (kind_order k2))%Z
  | _, _ => None
  end.

Definition extract (options : option StoryOptions) : M (list (string * Extracted)) :=
  s <- get_this ;;
  let stories := _stories s in
  sorted <-
    (if (0 <? List.length (values stories))%nat then
       match storySortParameter stories with
       | Some p =>
           match stable_sort (fun a b => Some (storySortComparator p a b)) stories with
           | Some l => ret l
           | None => throw (TypeError "sortFn")
           end
       | None =>
           match stable_sort (kindOrderComparator s) stories with
           | Some l => ret l
           | None => throw (TypeError "Cannot read property 'order' of undefined")
           end
       end
     else ret stories) ;;
  ret (fold_left (fun a kv => if includeStory (parameters (snd kv)) options
                              then assign (fst kv) (toExtracted (snd kv)) a else a)
                 sorted []).

Definition getStoriesForManager : M (list (string * Extracted)) :=
  extract (Some {| includeDocsOnly := Some true |}).

Definition pushToManager : M unit :=
  s <- get_this ;;
  if _channel s then
    stories <- getStoriesForManager ;;
    perform (Emit (SET_STORIES stories))
  else ret tt.

Definition finishConfiguring : M unit :=
  modify (set_configuring false) ;;
  pushToManager ;;
  s <- get_this ;;
  (if _channel s then perform (Emit RENDER_CURRENT_STORY) else ret tt) ;;
  match keys (_stories s) with
  | [] => ret tt
  | first :: _ =>
      published <- fromId first ;;
      match published with
      | None => throw (TypeError "Cannot destructure property 'parameters' of null")
      | Some p =>
          let params := parameters (item p) in
          if is_nullish params
          then throw (TypeError "Cannot destructure property 'globalArgs'")
          else
            let initialGlobalArgs := get params "globalArgs" in
            let globalArgTypes := get params "globalArgTypes" in
            match (if truthy globalArgTypes
                   then defaultValues [] (own_entries globalArgTypes)
                   else Some []) with
            | None => throw (TypeError "Cannot destructure property 'defaultValue'")
            | Some defaultGlobalArgs =>
                modify (fun s =>
                  set_globalArgs
                    (VObj (fold_left
                             (fun acc kv =>
                                if truthy (get (VObj acc) (fst kv))
                                then assign (fst kv) (snd kv) acc else acc)
                             (own_entries (if truthy (_globalArgs s) then _globalArgs s else VObj []))
                             (spread (spread [] (VObj defaultGlobalArgs)) initialGlobalArgs)))
                    s)
            end
      end
  end.

Definition addGlobalMetadata (md : StoryMetadata) : M unit :=
  let parameters := md_parameters md in
  (if truthy parameters && (truthy (get parameters "args") || truthy (get parameters "argTypes"))
   then perform (LoggerWarn "Found args/argTypes in global parameters.")
   else ret tt) ;;
  modify (fun s => set_globalMetadata
            {| global_parameters :=
                 combineParameters [global_parameters (_globalMetadata s); parameters];
               global_decorators := global_decorators (_globalMetadata s) |} s) ;;
  match md_decorators md with
  | None => throw (TypeError "decorators is not iterable")
  | Some ds =>
      modify (fun s => set_globalMetadata
                {| global_parameters := global_parameters (_globalMetadata s);
                   global_decorators := global_decorators (_globalMetadata s) ++ ds |} s)
  end.

Definition clearGlobalDecorators : M unit :=
  modify (fun s => set_globalMetadata
            {| global_parameters := global_parameters (_globalMetadata s);
               global_decorators := [] |} s).

Definition ensured (k : string) (s : StoryStore) : StoryStore :=
  match lookup k (_kinds s) with
  | Some _ => s
  | None => set_kinds (assign k {| kind_order := List.length (keys (_kinds s));
                                   kind_parameters := VObj [];
                                   kind_decorators := [] |} (_kinds s)) s
  end.

Definition ensureKind (k : string) : M unit := modify (ensured k).

(** [this._kinds[kind].member = ...]; fails when the kind has no record. *)
Definition update_kind (k : string) (f : KindMetadata -> KindMetadata) : M unit :=
  s <- get_this ;;
  match lookup k (_kinds s) with
  | None => throw (TypeError "Cannot read property of undefined")
  | Some km => modify (set_kinds (assign k (f km) (_kinds s)))
  end.

Definition addKindMetadata (k : string) (md : StoryMetadata) : M unit :=
  let parameters := md_parameters md in
  ensureKind k ;;
  (if truthy parameters then checkGlobalArgs parameters else ret tt) ;;
  update_kind k (fun km => {| kind_order := kind_order km;
                              kind_parameters := combineParameters [kind_parameters km; parameters];
                              kind_decorators := kind_decorators km |}) ;;
  match md_decorators md with
  | None => throw (TypeError "decorators is not iterable")
  | Some ds =>
      update_kind k (fun km => {| kind_order := kind_order km;
                                  kind_parameters := kind_parameters km;
                                  kind_decorators := kind_decorators km ++ ds |})
  end.

Definition addParameterEnhancer (f : ParameterEnhancer) : M unit :=
  s <- get_this ;;
  if (0 <? List.length (keys (_stories s)))%nat
  then throw (Err "Cannot add a parameter enhancer to the store after a story has been added.")
  else modify (fun s => set_parameterEnhancers (_parameterEnhancers s ++ [f]) s).

Definition getAllParameters (sid : string) : M value :=
  s <- get_this ;;
  match lookup sid (_stories s) with
  | None => throw (TypeError "Cannot read property 'kind' of undefined")
  | Some data =>
      match lookup (kind data) (_kinds s) with
      | None => throw (TypeError "Cannot read property 'parameters' of undefined")
      | Some kindMetadata =>
          ret (combineParameters [global_parameters (_globalMetadata s);
                                  kind_parameters kindMetadata;
                                  parameters data])
      end
  end.

(** [getDecorated()]: the first call runs [applyDecorators(finalStoryFn,
    decorators)] and fills the cache slot; later calls reuse it.  The
    composed function is identified by the closure that produced it. *)
Definition call_getDecorated (cell : nat) : M nat :=
  fun w =>
    match nth_error (closures w) cell with
    | None => (Throw (TypeError "getDecorated is not a function"), w)
    | Some t =>
        if computed t then (Return cell, w)
        else (Return cell,
              {| this := this w;
                 closures := fill_cache cell (closures w);
                 effects := effects w
                            ++ [ApplyDecorators cell (applier t) (finalStoryFn t) (decorators t)] |})
    end.

(** [memoize(1)(...)] and [new HooksContext()] of one addStory call: the
    n-th call creates closure n and the hooks object with handle n. *)
Definition allocate (t : Thunk) : M nat :=
  fun w => (Return (List.length (closures w)),
            {| this := this w; closures := closures w ++ [t]; effects := effects w |}).

Definition resolveArgParameters (s : StoryStore) (kindMetadata : KindMetadata)
    (storyParameters : value) : value :=
  let argParametersBeforeEnhancement :=
    combineParameters [pick (global_parameters (_globalMetadata s)) ["args"; "argTypes"];
                       pick (kind_parameters kindMetadata) ["args"; "argTypes"];
                       pick storyParameters ["args"; "argTypes"]] in
  fold_left (fun accumlatedParameters (enhancer : ParameterEnhancer) =>
               VObj (spread (spread [] accumlatedParameters)
                            (enhancer (VObj [("parameters", accumlatedParameters);
                                             ("args", VObj []);
                                             ("globalArgs", VObj [])]))))
            (_parameterEnhancers s) argParametersBeforeEnhancement.

(** A destructuring default: [= {}] applies to [undefined] only. *)
Definition or_empty (v : value) : value :=
  match v with VUndefined => VObj [] | _ => v end.

Definition addStory (a : AddStoryArgs) (applyDecorators : nat) (allowUnsafe : bool) : M unit :=
  let storyParameters := or_empty (add_parameters a) in
  let storyDecorators := match add_decorators a with Some ds => ds | None => [] end in
  s0 <- get_this ;;
  if negb (_configuring s0) && negb allowUnsafe
  then throw (Err "Cannot add a story when not configuring")
  else
    (if truthy storyParameters then checkGlobalArgs storyParameters else ret tt) ;;
    (match lookup (add_id a) (_stories s0) with
     | Some _ => perform (LoggerWarn "Story with id already exists in the store!")
     | None => ret tt
     end) ;;
    ensureKind (add_kind a) ;;
    s <- get_this ;;
    match lookup (add_kind a) (_kinds s) with
    | None => throw (TypeError "Cannot read property 'decorators' of undefined")
    | Some kindMetadata =>
        let decorators := storyDecorators ++ kind_decorators kindMetadata
                          ++ global_decorators (_globalMetadata s) in
        cell <- allocate {| applier := applyDecorators; finalStoryFn := add_storyFn a;
                            decorators := decorators; computed := false |} ;;
        let resolved := resolveArgParameters s kindMetadata storyParameters in
        let args := or_empty (get resolved "args") in
        let argTypes := or_empty (get resolved "argTypes") in
        let initialArgs := args in
        match (if is_nullish argTypes then None
               else defaultValues [] (own_entries argTypes)) with
        | None => throw (TypeError "Cannot destructure property 'defaultValue'")
        | Some defaultArgs =>
            modify (fun s =>
              set_stories
                (assign (add_id a)
                        {| id := add_id a; kind := add_kind a; name := add_name a;
                           story := add_name a;
                           hooks := cell; getDecorated := Some cell;
                           getOriginal := add_storyFn a;
                           parameters := storyParameters;
                           args := VObj (spread (spread [] (VObj defaultArgs)) initialArgs) |}
                        (_stories s)) s)
        end
    end.

Definition remove (sid : string) (allowUnsafe : bool) : M unit :=
  s <- get_this ;;
  if negb (_configuring s) && negb allowUnsafe
  then throw (Err "Cannot remove a story when not configuring")
  else
    let story := lookup sid (_stories s) in
    modify (fun s => set_stories (delete sid (_stories s)) s) ;;
    match story with
    | Some st => hooks_clean (hooks st)
    | None => ret tt
    end.

Definition getStoriesForKind (k : string) : M (list PublishedStoreItem) :=
  stories <- raw None ;;
  fold_right (fun st rest =>
                match st with
                | None => throw (TypeError "Cannot read property 'kind' of null")
                | Some p => l <- rest ;;
                            ret (if String.eqb (kind (item p)) k then p :: l else l)
                end) (ret []) stories.

Definition cleanHooks (sid : string) : M unit :=
  s <- get_this ;;
  match lookup sid (_stories s) with
  | Some st => hooks_clean (hooks st)
  | None => ret tt
  end.

Definition cleanHooksForKind (k : string) : M unit :=
  stories <- getStoriesForKind k ;;
  mapM (fun st => cleanHooks (id (item st))) stories ;;
  ret tt.

(** [Object.entries(this._stories).reduce((acc, [id, story]) => { if
    (story.kind !== kind) acc[id] = story; return acc; }, {})] *)
Definition without_kind (k : string) (stories : list (string * StoreItem))
  : list (string * StoreItem) :=
  fold_left (fun acc kv => if negb (String.eqb (kind (snd kv)) k)
                           then assign (fst kv) (snd kv) acc else acc)
            stories [].

Definition removeStoryKind (k : string) (allowUnsafe : bool) : M unit :=
  s <- get_this ;;
  if negb (_configuring s) && negb allowUnsafe
  then throw (Err "Cannot remove a kind when not configuring")
  else
    match lookup k (_kinds s) with
    | None => ret tt
    | Some _ =>
        update_kind k (fun km => {| kind_order := kind_order km;
                                    kind_parameters := VObj [];
                                    kind_decorators := kind_decorators km |}) ;;
        update_kind k (fun km => {| kind_order := kind_order km;
                                    kind_parameters := kind_parameters km;
                                    kind_decorators := [] |}) ;;
        cleanHooksForKind k ;;
        modify (fun s => set_stories (without_kind k (_stories s)) s)
    end.

Definition updateGlobalArgs (newGlobalArgs : value) : M unit :=
  modify (fun s => set_globalArgs (VObj (spread (spread [] (_globalArgs s)) newGlobalArgs)) s) ;;
  s <- get_this ;;
  if _channel s then perform (Emit (GLOBAL_ARGS_UPDATED (_globalArgs s)))
  else throw (TypeError "Cannot read property 'emit' of undefined").

Definition updateStoryArgs (sid : string) (newArgs : value) : M unit :=
  s <- get_this ;;
  match lookup sid (_stories s) with
  | None => throw (Err "No story for id")
  | Some st =>
      let new := VObj (spread (spread [] (args st)) newArgs) in
      modify (set_stories (assign sid (set_item_args new st) (_stories s))) ;;
      if _channel s then perform (Emit (STORY_ARGS_UPDATED sid new))
      else throw (TypeError "Cannot read property 'emit' of undefined")
  end.

(** [this.getFullParameters(id)] in the body of [storyFn]: the class declares
    [getAllParameters] and no member named [getFullParameters], so the
    property read gives [undefined] and the call throws. *)
Definition getFullParameters (sid : string) : M value :=
  throw (TypeError "this.getFullParameters is not a function").

(** The closure [storyFn] stored in an entry.  The callee [getDecorated()] is
    evaluated before the argument object. *)
Definition storyFn (e : StoreItem) (runtimeContext : value) : M value :=
  match getDecorated e with
  | None => throw (TypeError "getDecorated is not a function")
  | Some cell =>
      decorated <- call_getDecorated cell ;;
      fullParameters <- getFullParameters (id e) ;;
      s <- get_this ;;
      match lookup (id e) (_stories s) with
      | None => throw (TypeError "Cannot read property 'args' of undefined")
      | Some current =>
          let context :=
            VObj (assign "globalArgs" (_globalArgs s)
                 (assign "args" (args current)
                 (assign "hooks" (VHost (hooks e))
                 (assign "parameters" fullParameters
                 (spread [("id", VStr (id e)); ("kind", VStr (kind e));
                          ("name", VStr (name e)); ("story", VStr (story e))]
                         runtimeContext))))) in
          perform (Render decorated context) ;;
          ret VUndefined
      end
  end.

Record GetStorybookKind := {
  gk_kind : string;
  gk_fileName : value;
  gk_stories : list (string * nat)
}.

(** The reducer of getStorybook: [(kinds, story) => { if
    (!includeStory(story)) return kinds; ... kinds[kind].stories.push({ name,
    render: storyFn }); return kinds; }].  A render function is identified by
    the hooks handle of its entry. *)
Definition getStorybook_reducer (acc : M (list (string * GetStorybookKind)))
    (st : option PublishedStoreItem) : M (list (string * GetStorybookKind)) :=
  kinds <- acc ;;
  match st with
  | None => throw (TypeError "Cannot read property 'parameters' of null")
  | Some p =>
      let e := item p in
      if negb (includeStory (parameters e) None) then ret kinds
      else if is_nullish (parameters e)
      then throw (TypeError "Cannot destructure property 'fileName'")
      else
        let group := match lookup (kind e) kinds with
                     | Some g => g
                     | None => {| gk_kind := kind e;
                                  gk_fileName := get (parameters e) "fileName";
                                  gk_stories := [] |}
                     end in
        ret (assign (kind e)
                    {| gk_kind := gk_kind group;
                       gk_fileName := gk_fileName group;
                       gk_stories := gk_stories group ++ [(name e, hooks e)] |}
                    kinds)
  end.

Definition getStorybook : M (list GetStorybookKind) :=
  stories <- raw None ;;
  kinds <- fold_left getStorybook_reducer stories (ret []) ;;
  s <- get_this ;;
  match stable_sort
          (fun s1 s2 =>
             match lookup (gk_kind s1) (_kinds s), lookup (gk_kind s2) (_kinds s) with
             | Some k1, Some k2 => Some (Z.of_nat (kind_order k1) - Z.of_nat (kind_order k2))%Z
             | _, _ => None
             end) (values kinds) with
  | Some l => ret l
  | None => throw (TypeError "Cannot read property 'order' of undefined")
  end.

Definition clearError : M unit := modify (set_error None).

Definition setError (err : string) : M unit :=
  modify (set_error (Some err)) ;;
  s <- get_this ;;
  if _channel s then perform (Emit RENDER_CURRENT_STORY) else ret tt.

Definition setSelection (sel : Selection) : M unit :=
  modify (set_selection (Some sel)) ;;
  s <- get_this ;;
  if _channel s then
    perform (Emit (CURRENT_STORY_WAS_SET sel)) ;;
    if negb (_configuring s) then perform (Emit RENDER_CURRENT_STORY) else ret tt
  else ret tt.

Definition incrementRevision : M unit :=
  modify (fun s => set_revision (_revision s + 1) s).

Definition getError : M (option string) :=
  s <- get_this ;; ret (_error s).

Definition getSelection : M (option Selection) :=
  s <- get_this ;; ret (_selection s).

Definition getRevision : M nat :=
  s <- get_this ;; ret (_revision s).

(** A [Set] of strings in insertion order: adding a member changes nothing;
    [Array.from] lists the members in the order they were added. *)
Definition set_add (x : string) (s : list string) : list string :=
  if existsb (String.eqb x) s then s else s ++ [x].

Definition set_from (xs : list string) : list string :=
  fold_left (fun s x => set_add x s) xs [].

Definition getStoryKinds : M (list string) :=
  stories <- raw None ;;
  kinds <- mapM (fun st => match st with
                           | None => throw (TypeError "Cannot read property 'kind' of null")
                           | Some p => ret (kind (item p))
                           end) stories ;;
  ret (set_from kinds).

(** [find] gives [undefined] ([None]) when no story of the kind has the name. *)
Definition getRawStory (k n : string) : M (option PublishedStoreItem) :=
  stories <- getStoriesForKind k ;;
  ret (find (fun s => String.eqb (name (item s)) n) stories).

(** ** Clients of the store *)

(** What the collaborators can do with a store: call its methods, and call a
    [storyFn] or [getDecorated] closure obtained from it.  The [storyFn] of
    an entry that has left the table acts on the world as the [getDecorated]
    of its closure does. *)
Inductive Op :=
| StartConfiguring
| FinishConfiguring
| AddGlobalMetadata (md : StoryMetadata)
| ClearGlobalDecorators
| EnsureKind (k : string)
| AddKindMetadata (k : string) (md : StoryMetadata)
| AddParameterEnhancer (f : ParameterEnhancer)
| AddStory (a : AddStoryArgs) (applyDecorators : nat) (allowUnsafe : bool)
| Remove (sid : string) (allowUnsafe : bool)
| RemoveStoryKind (k : string) (allowUnsafe : bool)
| UpdateGlobalArgs (v : value)
| UpdateStoryArgs (sid : string) (v : value)
| CleanHooks (sid : string)
| CleanHooksForKind (k : string)
| PushToManager
| SetSelection (sel : Selection)
| SetError (err : string)
| ClearError
| IncrementRevision
| CallStoryFn (sid : string) (runtimeContext : value)
| CallGetDecorated (cell : nat).

Definition discard {A} (c : M A) : M unit := c ;; ret tt.

Definition perform_op (o : Op) : M unit :=
  match o with
  | StartConfiguring => startConfiguring
  | FinishConfiguring => finishConfiguring
  | AddGlobalMetadata md => addGlobalMetadata md
  | ClearGlobalDecorators => clearGlobalDecorators
  | EnsureKind k => ensureKind k
  | AddKindMetadata k md => addKindMetadata k md
  | AddParameterEnhancer f => addParameterEnhancer f
  | AddStory a ap un => addStory a ap un
  | Remove sid un => remove sid un
  | RemoveStoryKind k un => removeStoryKind k un
  | UpdateGlobalArgs v => updateGlobalArgs v
  | UpdateStoryArgs sid v => updateStoryArgs sid v
  | CleanHooks sid => cleanHooks sid
  | CleanHooksForKind k => cleanHooksForKind k
  | PushToManager => pushToManager
  | SetSelection sel => setSelection sel
  | SetError err => setError err
  | ClearError => clearError
  | IncrementRevision => incrementRevision
  | CallStoryFn sid ctx =>
      published <- fromId sid ;;
      match published with
      | Some p => discard (storyFn (item p) ctx)
      | None => ret tt
      end
  | CallGetDecorated cell => discard (call_getDecorated cell)
  end.

(** A caller that catches what an operation throws: the world goes on from
    wherever the operation left it. *)
Definition step (w : World) (o : Op) : World := snd (perform_op o w).

Definition run (ops : list Op) (w : World) : World := fold_left step ops w.

End Methods.

(** ** Fixtures for the examples *)

Module Fixture.

(** A comparator for worlds in which no story asks for a custom sort. *)
Definition no_sort : value -> (string * StoreItem) -> (string * StoreItem) -> Z :=
  fun _ _ _ => 0%Z.

Definition story_of (sid k n : string) (p : value) : AddStoryArgs :=
  {| add_id := sid; add_kind := k; add_name := n; add_storyFn := 0;
     add_parameters := p; add_decorators := None |}.

Definition decorated_story (sid k n : string) (ds : list DecoratorFunction) : AddStoryArgs :=
  {| add_id := sid; add_kind := k; add_name := n; add_storyFn := 0;
     add_parameters := VUndefined; add_decorators := Some ds |}.


End Fixture.

(** ** A sample store for the examples of the further properties *)

Module Sample.

(** A docs-only page that declares global args, a story with a file name
    and an argType, and a story of a second kind. *)
Definition page : AddStoryArgs :=
  Fixture.story_of "a--docs" "a" "docs"
    (VObj [("docsOnly", VBool true);
           ("globalArgs", VObj [("theme", VStr "light")]);
           ("globalArgTypes", VObj [("locale", VObj [("defaultValue", VStr "en")])])]).

Definition first : AddStoryArgs :=
  Fixture.story_of "a--1" "a" "1"
    (VObj [("fileName", VStr "a.stories.js");
           ("args", VObj [("size", VNum 1)]);
           ("argTypes", VObj [("label", VObj [("defaultValue", VStr "ok")])])]).

Definition second : AddStoryArgs :=
  Fixture.story_of "b--1" "b" "1" (VObj []).

Definition ops : list Op :=
  [AddKindMetadata "a" {| md_parameters := VObj [("layout", VStr "centered")];
                          md_decorators := Some [5] |};
   AddStory page 9 false; AddStory first 9 false; AddStory second 9 false].

Definition store (channel : bool) : World :=
  run false Fixture.no_sort ops (new_World channel).

End Sample.

(** ** Observations and invariants *)

(** The hooks handles of the entries in a table. *)
Definition handles (stories : list (string * StoreItem)) : list nat :=
  map (fun kv => hooks (snd kv)) stories.

(** The calls of the decorator composer made for closure [c]. *)
Definition compositions (c : nat) (ev : list Event)
  : list (nat * StoryFn * list DecoratorFunction) :=
  flat_map (fun e => match e with
                     | ApplyDecorators c' a f ds => if Nat.eqb c' c then [(a, f, ds)] else []
                     | _ => []
                     end) ev.

(** The number of [clean()] calls on the hooks object [h]. *)
Definition releases (h : nat) (ev : list Event) : nat :=
  List.length (filter (fun e => match e with
                                | HooksClean h' => Nat.eqb h' h
                                | _ => false
                                end) ev).

(** [x] occurs somewhere before an occurrence of [y]. *)
Fixpoint precedes {A} (x y : A) (l : list A) : Prop :=
  match l with
  | [] => False
  | a :: l' => (a = x /\ In y l') \/ precedes x y l'
  end.

(** The declaration order of the kind of an entry. *)
Definition kind_rank (s : StoryStore) (e : StoreItem) : nat :=
  match lookup (kind e) (_kinds s) with
  | Some km => kind_order km
  | None => 0
  end.

Definition KindsInv (ks : list (string * KindMetadata)) : Prop :=
  NoDup (keys ks) /\ map kind_order (values ks) = seq 0 (List.length ks).

(** Shape of the table in every world the operations can reach. *)
Record TableInv (w : World) : Prop := {
  inv_ids : NoDup (keys (_stories (this w)));
  inv_key : forall k e, In (k, e) (_stories (this w)) -> id e = k;
  inv_cell : forall k e, In (k, e) (_stories (this w)) ->
             getDecorated e = Some (hooks e) /\ hooks e < List.length (closures w);
  inv_handles : NoDup (handles (_stories (this w)));
  inv_kind : forall k e, In (k, e) (_stories (this w)) ->
             lookup (kind e) (_kinds (this w)) <> None;
  inv_kinds : KindsInv (_kinds (this w))
}.

(** The composer has been called for a closure exactly when its cache slot
    is filled, once, and with what the closure captured. *)
Definition MemoInv (w : World) : Prop :=
  forall c,
    compositions c (effects w) =
    match nth_error (closures w) c with
    | Some t => if computed t then [(applier t, finalStoryFn t, decorators t)] else []
    | None => []
    end.

Definition same_capture (t t' : Thunk) : Prop :=
  applier t' = applier t /\ finalStoryFn t' = finalStoryFn t /\ decorators t' = decorators t.

Definition closures_ext (cl cl' : list Thunk) : Prop :=
  forall c t, nth_error cl c = Some t ->
              exists t', nth_error cl' c = Some t' /\ same_capture t t'.

Definition kinds_persist (ks ks' : list (string * KindMetadata)) : Prop :=
  forall k km, lookup k ks = Some km ->
               exists km', lookup k ks' = Some km' /\ kind_order km' = kind_order km.

(** What one operation can do to a world. *)
Record Summary (w w' : World) : Prop := {
  sum_releases : exists d, effects w' = effects w ++ d /\
                   forall h, In (HooksClean h) d -> In h (handles (_stories (this w)));
  sum_closures : closures_ext (closures w) (closures w');
  sum_length : List.length (closures w) <= List.length (closures w');
  sum_handles : forall h, In h (handles (_stories (this w'))) ->
                  In h (handles (_stories (this w))) \/ List.length (closures w) <= h;
  sum_memo : MemoInv w -> MemoInv w';
  sum_table : TableInv w -> TableInv w';
  sum_kinds : kinds_persist (_kinds (this w)) (_kinds (this w'))
}.

Definition quiet (e : Event) : bool :=
  match e with
  | LoggerWarn _ | LoggerError _ | Emit _ => true
  | _ => false
  end.

(** Operations that leave the table and the closures alone and only talk to
    the logger and the channel; they may register or update kinds. *)
Definition Quiet (w w' : World) : Prop :=
  _stories (this w') = _stories (this w) /\
  closures w' = closures w /\
  (exists d, effects w' = effects w ++ d /\ forallb quiet d = true) /\
  kinds_persist (_kinds (this w)) (_kinds (this w')) /\
  (KindsInv (_kinds (this w)) -> KindsInv (_kinds (this w'))).

(** Operations that only release hooks of entries of the table. *)
Definition Releasing (w w' : World) : Prop :=
  this w' = this w /\
  closures w' = closures w /\
  exists d, effects w' = effects w ++ d /\
            forall e, In e d -> exists h, e = HooksClean h /\ In h (handles (_stories (this w))).

(** Both at once: the table and the closures are left alone. *)
Definition Calm (w w' : World) : Prop :=
  _stories (this w') = _stories (this w) /\
  closures w' = closures w /\
  (exists d, effects w' = effects w ++ d /\
             forall e, In e d ->
               quiet e = true \/
               exists h, e = HooksClean h /\ In h (handles (_stories (this w)))) /\
  kinds_persist (_kinds (this w)) (_kinds (this w')) /\
  (KindsInv (_kinds (this w)) -> KindsInv (_kinds (this w'))).

(** A computation whose final world is always related to its initial one. *)
Definition Respects (R : World -> World -> Prop) {A} (c : M A) : Prop :=
  forall w, R w (snd (c w)).

(** Groups built from the entries [all]: each group is the kind of one of
    them and lists only render functions of included entries among them. *)
Definition listed_from (all : list StoreItem) (ks : list (string * GetStorybookKind)) : Prop :=
  forall k g, In (k, g) ks ->
    (exists i, In i all /\ gk_kind g = kind i) /\
    (forall n h, In (n, h) (gk_stories g) ->
       exists i, In i all /\ includeStory (parameters i) None = true /\ h = hooks i).


(** ** Observations for the further properties *)

(** The members of the store object. *)
Inductive Field :=
| FError | FChannel | FConfiguring | FGlobalArgs | FGlobalMetadata
| FKinds | FStories | FParameterEnhancers | FRevision | FSelection.

(** The member [f] has the same value in both stores. *)
Definition same_field (f : Field) (s s' : StoryStore) : Prop :=
  match f with
  | FError => _error s' = _error s
  | FChannel => _channel s' = _channel s
  | FConfiguring => _configuring s' = _configuring s
  | FGlobalArgs => _globalArgs s' = _globalArgs s
  | FGlobalMetadata => _globalMetadata s' = _globalMetadata s
  | FKinds => _kinds s' = _kinds s
  | FStories => _stories s' = _stories s
  | FParameterEnhancers => _parameterEnhancers s' = _parameterEnhancers s
  | FRevision => _revision s' = _revision s
  | FSelection => _selection s' = _selection s
  end.

(** The members an operation assigns to, read off the method bodies. *)
Definition writes (o : Op) : list Field :=
  match o with
  | StartConfiguring => [FConfiguring]
  | FinishConfiguring => [FConfiguring; FGlobalArgs]
  | AddGlobalMetadata _ | ClearGlobalDecorators => [FGlobalMetadata]
  | EnsureKind _ | AddKindMetadata _ _ => [FKinds]
  | AddParameterEnhancer _ => [FParameterEnhancers]
  | AddStory _ _ _ => [FKinds; FStories]
  | Remove _ _ => [FStories]
  | RemoveStoryKind _ _ => [FKinds; FStories]
  | UpdateGlobalArgs _ => [FGlobalArgs]
  | UpdateStoryArgs _ _ => [FStories]
  | SetSelection _ => [FSelection]
  | SetError _ | ClearError => [FError]
  | IncrementRevision => [FRevision]
  | CleanHooks _ | CleanHooksForKind _ | PushToManager
  | CallStoryFn _ _ | CallGetDecorated _ => []
  end.

(** A member of the store is kept. *)
Definition Keeps {X} (f : StoryStore -> X) (w w' : World) : Prop :=
  f (this w') = f (this w).

(** A plain object: a mapping whose keys are distinct. *)
Definition plain (v : value) : Prop := exists ps, v = VObj ps /\ NoDup (keys ps).

(** The args stored in the world are plain objects. *)
Definition ArgsInv (w : World) : Prop :=
  plain (_globalArgs (this w)) /\
  forall k e, In (k, e) (_stories (this w)) -> plain (args e).

(** What one operation does to the stored args: the global args stay plain,
    and an entry of the table is an earlier entry or has plain args. *)
Definition ArgsStep (w w' : World) : Prop :=
  (plain (_globalArgs (this w)) -> plain (_globalArgs (this w'))) /\
  (forall k e, In (k, e) (_stories (this w')) ->
               In (k, e) (_stories (this w)) \/ plain (args e)).

(** The number of incrementRevision calls in a sequence of operations. *)
Definition increments (ops : list Op) : nat :=
  List.length (filter (fun o => match o with IncrementRevision => true | _ => false end) ops).

(** The error, the selection and the configuring flag after one operation,
    as the setters leave them. *)
Definition error_after (e : option string) (o : Op) : option string :=
  match o with
  | SetError x => Some x
  | ClearError => None
  | _ => e
  end.

Definition selection_after (s : option Selection) (o : Op) : option Selection :=
  match o with
  | SetSelection x => Some x
  | _ => s
  end.

Definition configuring_after (c : bool) (o : Op) : bool :=
  match o with
  | StartConfiguring => true
  | FinishConfiguring => false
  | _ => c
  end.

(** The world after further calls to the collaborators. *)
Definition logged (w : World) (d : list Event) : World :=
  {| this := this w; closures := closures w; effects := effects w ++ d |}.

(** The value finishConfiguring assigns to [_globalArgs] when the first
    story of the table has the parameters [p] and the previous global args
    are [previous]; [None] when a declared global argType is null or
    undefined. *)
Definition reconciled (p previous : value) : option value :=
  match (if truthy (get p "globalArgTypes")
         then defaultValues [] (own_entries (get p "globalArgTypes"))
         else Some []) with
  | None => None
  | Some defaultGlobalArgs =>
      Some (VObj (fold_left
                    (fun acc kv => if truthy (get (VObj acc) (fst kv))
                                   then assign (fst kv) (snd kv) acc else acc)
                    (own_entries (if truthy previous then previous else VObj []))
                    (spread (spread [] (VObj defaultGlobalArgs)) (get p "globalArgs"))))
  end.

(** The stories that raw() lists: those that are not docs-only, in table order. *)
Definition listed (w : World) : list StoreItem :=
  filter (fun i => negb (isStoryDocsOnly (parameters i))) (values (_stories (this w))).

(** What addStory reports to the logger. *)
Definition addStory_logs (inJest : bool) (a : AddStoryArgs) (w : World) : list Event :=
  (let p := or_empty (add_parameters a) in
   if truthy p && (truthy (get p "globalArgs") || truthy (get p "globalArgTypes"))
      && negb inJest
   then [LoggerError "Global args/argTypes can only be set globally"]
   else [])
  ++ match lookup (add_id a) (_stories (this w)) with
     | Some _ => [LoggerWarn "Story with id already exists in the store!"]
     | None => []
     end.

(** The entry for kind [k] that getStorybook builds from the stories
    [items]: the file name is read from the first story of the kind, the
    render functions are those of the stories of the kind, in order. *)
Definition storybook_group (k : string) (items : list StoreItem) : GetStorybookKind :=
  let members := filter (fun i => String.eqb (kind i) k) items in
  {| gk_kind := k;
     gk_fileName := match members with
                    | i :: _ => get (parameters i) "fileName"
                    | [] => VUndefined
                    end;
     gk_stories := map (fun i => (name i, hooks i)) members |}.

(** The declaration order of the kind named [k]. *)
Definition order_of (s : StoryStore) (k : string) : nat :=
  match lookup k (_kinds s) with
  | Some km => kind_order km
  | None => 0
  end.

(** The reducer of getStorybook on a story that is included and has
    parameters. *)
Definition group_step (kinds : list (string * GetStorybookKind)) (e : StoreItem)
  : list (string * GetStorybookKind) :=
  let group := match lookup (kind e) kinds with
               | Some g => g
               | None => {| gk_kind := kind e;
                            gk_fileName := get (parameters e) "fileName";
                            gk_stories := [] |}
               end in
  assign (kind e)
         {| gk_kind := gk_kind group; gk_fileName := gk_fileName group;
            gk_stories := gk_stories group ++ [(name e, hooks e)] |}
         kinds.

(** Some story among [items] is of kind [k]. *)
Definition has_kind (k : string) (items : list StoreItem) : bool :=
  existsb (fun i => String.eqb (kind i) k) items.

(** The accumulator of the getStorybook reducer after the stories [done]. *)
Definition GroupsOf (done : list StoreItem) (ks : list (string * GetStorybookKind)) : Prop :=
  NoDup (keys ks) /\
  forall k, lookup k ks = if has_kind k done then Some (storybook_group k done) else None.

(** The story extract consults for a sort: the first one, in table order,
    whose parameters have [options]. *)
Definition decisive (stories : list (string * StoreItem)) : option (string * StoreItem) :=
  find (fun kv => truthy (parameters (snd kv)) && truthy (get (parameters (snd kv)) "options"))
       stories.

(** The [storySort] that this story asks for, if it asks for one. *)
Definition requested_sort (kv : string * StoreItem) : option value :=
  let p := get (get (parameters (snd kv)) "options") "storySort" in
  if truthy (VStr (fst kv)) && truthy p then Some p else None.

(** The world in which the store has the parameter enhancers [es]. *)
Definition with_enhancers (es : list ParameterEnhancer) (w : World) : World :=
  {| this := set_parameterEnhancers es (this w); closures := closures w;
     effects := effects w |}.

(** One step of the enhancer pipeline of addStory: the enhancer is called
    with the accumulated parameters and with empty args and globalArgs, and
    what it returns is spread over the accumulated parameters. *)
Definition enhance (f : ParameterEnhancer) (accumulated : value) : value :=
  VObj (spread (spread [] accumulated)
               (f (VObj [("parameters", accumulated); ("args", VObj []);
                         ("globalArgs", VObj [])]))).

(** The collaborators of the store. *)
Inductive Collaborator := Logger | Channel | Hooks | Composer | Renderer.

(** The collaborator a call goes to. *)
Definition collaborator_of (e : Event) : Collaborator :=
  match e with
  | LoggerWarn _ | LoggerError _ => Logger
  | Emit _ => Channel
  | HooksClean _ => Hooks
  | ApplyDecorators _ _ _ _ => Composer
  | Render _ _ => Renderer
  end.

(** The collaborators an operation can call, read off the method bodies. *)
Definition talks_to (o : Op) : list Collaborator :=
  match o with
  | StartConfiguring | ClearGlobalDecorators | EnsureKind _ | AddParameterEnhancer _
  | ClearError | IncrementRevision => []
  | FinishConfiguring | PushToManager | UpdateGlobalArgs _ | UpdateStoryArgs _ _
  | SetSelection _ | SetError _ => [Channel]
  | AddGlobalMetadata _ | AddKindMetadata _ _ | AddStory _ _ _ => [Logger]
  | Remove _ _ | RemoveStoryKind _ _ | CleanHooks _ | CleanHooksForKind _ => [Hooks]
  | CallStoryFn _ _ | CallGetDecorated _ => [Composer]
  end.

(** The calls made are all to the collaborators [cs]. *)
Definition CallsOnly (cs : list Collaborator) (w w' : World) : Prop :=
  exists d, effects w' = effects w ++ d /\ forall e, In e d -> In (collaborator_of e) cs.

Unset Implicit Arguments.

(** ** Association lists *)

Ltac case_if :=
  match goal with
  | |- context [if ?c then _ else _] => destruct c eqn:?
  end.

Section Assoc.
Context {A : Type}.
Implicit Types (l : list (string * A)) (k : string) (a : A).

Lemma lookup_assign_same k a l : lookup k (assign k a l) = Some a.
Proof.
  induction l as [|[k' a'] l IH]; simpl.
  - now rewrite String.eqb_refl.
  - destruct (String.eqb k k') eqn:E; simpl; rewrite ?String.eqb_refl, ?E; auto.
Qed.

Lemma lookup_assign_other k k' a l : k' <> k -> lookup k' (assign k a l) = lookup k' l.
Proof.
  intros Hne. induction l as [|[k0 a0] l IH]; simpl.
  - apply String.eqb_neq in Hne. now rewrite Hne.
  - destruct (String.eqb k k0) eqn:E; simpl.
    + apply String.eqb_eq in E. subst k0.
      apply String.eqb_neq in Hne. now rewrite Hne.
    + destruct (String.eqb k' k0); auto.
Qed.

Lemma lookup_None_keys k l : lookup k l = None <-> ~ In k (keys l).
Proof.
  induction l as [|[k0 a0] l IH]; simpl.
  - tauto.
  - destruct (String.eqb k k0) eqn:E.
    + apply String.eqb_eq in E. subst. split; [discriminate | tauto].
    + apply String.eqb_neq in E. rewrite IH. split; [intros H [H'|H']; congruence | tauto].
Qed.

Lemma lookup_In k a l : lookup k l = Some a -> In (k, a) l.
Proof.
  induction l as [|[k0 a0] l IH]; simpl; [discriminate|].
  destruct (String.eqb k k0) eqn:E.
  - apply String.eqb_eq in E. intros [= ->]. subst. now left.
  - auto.
Qed.

Lemma In_lookup k a l : NoDup (keys l) -> In (k, a) l -> lookup k l = Some a.
Proof.
  induction l as [|[k0 a0] l IH]; simpl; [tauto|].
  intros Hnd [H|H].
  - inversion H; subst. now rewrite String.eqb_refl.
  - inversion Hnd as [|? ? Hnotin Hnd']; subst.
    destruct (String.eqb k k0) eqn:E.
    + apply String.eqb_eq in E. subst. exfalso. apply Hnotin.
      change k0 with (fst (k0, a)). now apply in_map.
    + auto.
Qed.

Lemma assign_fresh k a l : lookup k l = None -> assign k a l = l ++ [(k, a)].
Proof.
  induction l as [|[k0 a0] l IH]; simpl; auto.
  destruct (String.eqb k k0); [discriminate|]. intros H. now rewrite IH.
Qed.

Lemma keys_assign_present k a l : lookup k l <> None -> keys (assign k a l) = keys l.
Proof.
  induction l as [|[k0 a0] l IH]; simpl; [congruence|].
  destruct (String.eqb k k0) eqn:E; simpl.
  - apply String.eqb_eq in E. now subst.
  - intros H. now rewrite IH.
Qed.

Lemma keys_assign k a l :
  keys (assign k a l) = match lookup k l with Some _ => keys l | None => keys l ++ [k] end.
Proof.
  destruct (lookup k l) eqn:E.
  - apply keys_assign_present. congruence.
  - rewrite assign_fresh by assumption. unfold keys. now rewrite map_app.
Qed.

Lemma NoDup_keys_assign k a l : NoDup (keys l) -> NoDup (keys (assign k a l)).
Proof.
  intros Hnd. rewrite keys_assign. destruct (lookup k l) eqn:E; auto.
  apply lookup_None_keys in E.
  apply NoDup_app; [assumption | repeat constructor; simpl; tauto |].
  intros x Hx [Hk|[]]. subst. contradiction.
Qed.

End Assoc.

(** ** Lookup by id *)

Lemma fromId_eq (w : World) (sid : string) :
  fromId sid w =
  (Return match lookup sid (_stories (this w)) with
          | Some data =>
              match getDecorated data with
              | Some _ => Some {| item := data; globalArgs := _globalArgs (this w) |}
              | None => None
              end
          | None => None
          end, w).
Proof.
  unfold fromId, fromId_over, try_catch, fromId_body, read_story, bind, get_this, ret.
  destruct (lookup sid (_stories (this w))) as [data|]; [|reflexivity].
  destruct (getDecorated data); reflexivity.
Qed.


(** ** The configuring guard *)




(** ** Argument defaulting and global-args reconciliation at concrete inputs *)

(** C3, the code at the failing input: an argType that declares the default
    [false] contributes nothing, the stored args lack the key. *)
Lemma addStory_falsy_default_dropped :
  let parameters :=
    VObj [("argTypes", VObj [("enabled", VObj [("defaultValue", VBool false)]);
                             ("label", VObj [("defaultValue", VStr "ok")])])] in
  let w := step false Fixture.no_sort (new_World true)
             (AddStory (Fixture.story_of "a--1" "a" "1" parameters) 9 false) in
  option_map args (lookup "a--1" (_stories (this w)))
    = Some (VObj [("label", VStr "ok")]).
Proof. reflexivity. Qed.

(** C2, the code at the failing input: the base declares [darkMode: false],
    the previous session had set it to [true]; after the reload the previous
    value is not carried over. *)
Lemma finishConfiguring_falsy_key_reset :
  let parameters := VObj [("globalArgs", VObj [("darkMode", VBool false)])] in
  let add := AddStory (Fixture.story_of "a--1" "a" "1" parameters) 9 false in
  let session := run false Fixture.no_sort
                   [add; FinishConfiguring; UpdateGlobalArgs (VObj [("darkMode", VBool true)])]
                   (new_World true) in
  let reloaded := run false Fixture.no_sort
                    [StartConfiguring; RemoveStoryKind "a" false; add; FinishConfiguring]
                    session in
  _globalArgs (this session) = VObj [("darkMode", VBool true)] /\
  _globalArgs (this reloaded) = VObj [("darkMode", VBool false)].
Proof. split; reflexivity. Qed.

(** ** Removal of a kind at a concrete input *)

(** C4, the code at the failing input: the kind has a docs-only story and an
    ordinary one; removeStoryKind empties the table and releases the hooks of
    the ordinary story only. *)
Lemma removeStoryKind_skips_docsOnly_hooks :
  let before := run false Fixture.no_sort
                  [AddStory (Fixture.story_of "k--docs" "k" "docs"
                               (VObj [("docsOnly", VBool true)])) 9 false;
                   AddStory (Fixture.story_of "k--1" "k" "1" (VObj [])) 9 false]
                  (new_World true) in
  let after := snd (removeStoryKind "k" false before) in
  map (fun kv => (fst kv, hooks (snd kv))) (_stories (this before))
    = [("k--docs", 0); ("k--1", 1)] /\
  fst (removeStoryKind "k" false before) = Return tt /\
  _stories (this after) = [] /\
  effects after = [HooksClean 1].
Proof. repeat split; reflexivity. Qed.

(** ** The stored render function *)

(** C5, the code on every input: the stored render function evaluates
    [getDecorated()] and then throws on [this.getFullParameters]; the
    composed render function is not called. *)
Lemma storyFn_throws :
  forall (e : StoreItem) (runtimeContext : value) (w : World),
    exists msg w',
      storyFn e runtimeContext w = (Throw (TypeError msg), w') /\
      this w' = this w /\
      (forall c v, In (Render c v) (effects w') -> In (Render c v) (effects w)).
Proof.
  intros e ctx w. unfold storyFn.
  destruct (getDecorated e) as [cell|].
  - unfold bind, call_getDecorated.
    destruct (nth_error (closures w) cell) as [t|].
    + destruct (computed t); simpl.
      * eexists _, _. repeat split; auto.
      * eexists _, _. repeat split; simpl; auto.
        intros c v Hin. apply in_app_or in Hin. destruct Hin as [H|[H|[]]]; [assumption|discriminate].
    + eexists _, _. repeat split; auto.
  - eexists _, _. repeat split; auto.
Qed.

(** ** Docs-only stories at a concrete input *)

(** C6 as stated fails when [docsOnly] comes from the kind: the merged
    parameters of the story have it, and raw() still lists the story. *)
Lemma kind_level_docsOnly_listed :
  let w := run false Fixture.no_sort
             [AddKindMetadata "docs" {| md_parameters := VObj [("docsOnly", VBool true)];
                                        md_decorators := Some [] |};
              AddStory (Fixture.story_of "docs--page" "docs" "page" (VObj [])) 9 false]
             (new_World true) in
  (exists p, getAllParameters "docs--page" w = (Return p, w) /\
             truthy (get p "docsOnly") = true) /\
  (exists pub, raw None w = (Return [Some pub], w) /\ id (item pub) = "docs--page").
Proof.
  split.
  - eexists. split; reflexivity.
  - eexists. split; reflexivity.
Qed.

(** ** Computations that respect a preorder on worlds *)

Section RespectsLemmas.

Variable R : World -> World -> Prop.
Hypothesis R_refl : forall w, R w w.
Hypothesis R_trans : forall a b c, R a b -> R b c -> R a c.

Lemma respects_ret {A} (a : A) : Respects R (ret a).
Proof. intros w. apply R_refl. Qed.

Lemma respects_throw {A} (e : Error) : Respects R (@throw A e).
Proof. intros w. apply R_refl. Qed.

Lemma respects_get_this : Respects R get_this.
Proof. intros w. apply R_refl. Qed.

Lemma respects_bind {A B} (c : M A) (k : A -> M B) :
  Respects R c -> (forall a, Respects R (k a)) -> Respects R (bind c k).
Proof.
  intros Hc Hk w. unfold bind. specialize (Hc w).
  destruct (c w) as [[a|e] w1]; simpl in *.
  - eapply R_trans; [exact Hc | apply Hk].
  - exact Hc.
Qed.

Lemma respects_try_catch {A} (c : M A) (h : Error -> M A) :
  Respects R c -> (forall e, Respects R (h e)) -> Respects R (try_catch c h).
Proof.
  intros Hc Hh w. unfold try_catch. specialize (Hc w).
  destruct (c w) as [[a|e] w1]; simpl in *.
  - exact Hc.
  - eapply R_trans; [exact Hc | apply Hh].
Qed.

Lemma respects_mapM {A B} (f : A -> M B) (l : list A) :
  (forall x, Respects R (f x)) -> Respects R (mapM f l).
Proof.
  intros Hf. induction l as [|x l IH]; simpl.
  - apply respects_ret.
  - apply respects_bind; [apply Hf|]. intros y.
    apply respects_bind; [exact IH|]. intros ys. apply respects_ret.
Qed.

Lemma respects_fold_left {A B} (f : M A -> B -> M A) (l : list B) :
  (forall c x, Respects R c -> Respects R (f c x)) ->
  forall c, Respects R c -> Respects R (fold_left f l c).
Proof.
  intros Hf. induction l as [|x l IH]; simpl; auto.
Qed.

Lemma respects_fold_right {A B} (f : B -> M A -> M A) (l : list B) (c : M A) :
  (forall x c', Respects R c' -> Respects R (f x c')) ->
  Respects R c -> Respects R (fold_right f c l).
Proof.
  intros Hf Hc. induction l as [|x l IH]; simpl; auto.
Qed.

End RespectsLemmas.

Lemma respects_eq_any (R : World -> World -> Prop) {A} (c : M A) :
  (forall w, R w w) -> Respects eq c -> Respects R c.
Proof. intros Hrefl Hc w. rewrite <- (Hc w). apply Hrefl. Qed.

(** A tactic for computations built from the monad's combinators. *)
Ltac respects_step Hrefl Htrans :=
  first
    [ apply (respects_ret _ Hrefl)
    | apply (respects_throw _ Hrefl)
    | apply (respects_get_this _ Hrefl)
    | apply (respects_bind _ Htrans); [|intros ?]
    | apply (respects_mapM _ Hrefl Htrans); intros ?
    | match goal with
      | |- Respects _ (if ?b then _ else _) => destruct b
      | |- Respects _ (match ?x with _ => _ end) => destruct x
      end ].

Ltac respects_auto Hrefl Htrans := repeat respects_step Hrefl Htrans.

(** ** Read-only methods *)

Lemma eq_world_trans : forall a b c : World, a = b -> b = c -> a = c.
Proof. intros; congruence. Qed.

Lemma fromId_readonly sid : Respects eq (fromId sid).
Proof. intros w. now rewrite fromId_eq. Qed.

Lemma raw_readonly options : Respects eq (raw options).
Proof.
  unfold raw. apply (respects_bind _ eq_world_trans); [apply (respects_get_this _ (@eq_refl _))|].
  intros s. apply (respects_mapM _ (@eq_refl _) eq_world_trans). intros i. apply fromId_readonly.
Qed.

Lemma extract_readonly cmp options : Respects eq (extract cmp options).
Proof.
  unfold extract. respects_auto (@eq_refl World) eq_world_trans.
Qed.

Lemma getStoriesForManager_readonly cmp : Respects eq (getStoriesForManager cmp).
Proof. apply extract_readonly. Qed.

Lemma getStoriesForKind_readonly k : Respects eq (getStoriesForKind k).
Proof.
  unfold getStoriesForKind.
  apply (respects_bind _ eq_world_trans); [apply raw_readonly|]. intros stories.
  apply respects_fold_right; [|apply (respects_ret _ (@eq_refl _))].
  intros x c' Hc'. respects_auto (@eq_refl World) eq_world_trans. exact Hc'.
Qed.

Lemma getAllParameters_readonly sid : Respects eq (getAllParameters sid).
Proof. unfold getAllParameters. respects_auto (@eq_refl World) eq_world_trans. Qed.

Lemma getStorybook_readonly : Respects eq getStorybook.
Proof.
  unfold getStorybook, getStorybook_reducer.
  apply (respects_bind _ eq_world_trans); [apply raw_readonly|]. intros stories.
  apply (respects_bind _ eq_world_trans).
  - apply respects_fold_left; [|apply (respects_ret _ (@eq_refl _))].
    intros c x Hc. apply (respects_bind _ eq_world_trans); [exact Hc|]. intros kinds.
    respects_auto (@eq_refl World) eq_world_trans.
  - intros kinds. respects_auto (@eq_refl World) eq_world_trans.
Qed.

(** ** Kinds: registration order is kept *)

Lemma kinds_persist_refl ks : kinds_persist ks ks.
Proof. intros k km H. eauto. Qed.

Lemma kinds_persist_trans ks1 ks2 ks3 :
  kinds_persist ks1 ks2 -> kinds_persist ks2 ks3 -> kinds_persist ks1 ks3.
Proof.
  intros H12 H23 k km H.
  destruct (H12 _ _ H) as (km2 & H2 & E2).
  destruct (H23 _ _ H2) as (km3 & H3 & E3).
  exists km3. split; [assumption | congruence].
Qed.

Lemma kinds_persist_assign_fresh ks k km :
  lookup k ks = None -> kinds_persist ks (assign k km ks).
Proof.
  intros Hnone k0 km0 H0. exists km0. split; [|reflexivity].
  rewrite lookup_assign_other; [assumption|]. intros ->. congruence.
Qed.

Lemma kinds_persist_assign_update ks k km km' :
  lookup k ks = Some km -> kind_order km' = kind_order km ->
  kinds_persist ks (assign k km' ks).
Proof.
  intros Hk Ho k0 km0 H0.
  destruct (string_dec k0 k) as [->|Hne].
  - exists km'. rewrite lookup_assign_same. split; [reflexivity | congruence].
  - exists km0. rewrite lookup_assign_other by assumption. auto.
Qed.

Lemma KindsInv_assign_fresh ks k p ds :
  lookup k ks = None -> KindsInv ks ->
  KindsInv (assign k {| kind_order := List.length (keys ks);
                        kind_parameters := p; kind_decorators := ds |} ks).
Proof.
  intros Hnone [Hnd Hord]. split.
  - now apply NoDup_keys_assign.
  - rewrite assign_fresh by assumption. unfold values, keys in *.
    rewrite !map_app, length_app, length_map, Hord. simpl.
    rewrite Nat.add_1_r, seq_S. reflexivity.
Qed.

Lemma orders_assign_update ks k km km' :
  lookup k ks = Some km -> kind_order km' = kind_order km ->
  map kind_order (values (assign k km' ks)) = map kind_order (values ks) /\
  List.length (assign k km' ks) = List.length ks.
Proof.
  intros Hk Ho. induction ks as [|[k0 km0] ks IH]; simpl in *; [discriminate|].
  destruct (String.eqb k k0) eqn:E; simpl.
  - injection Hk as ->. rewrite Ho. auto.
  - destruct (IH Hk) as [IH1 IH2]. unfold values in *. rewrite IH1, IH2. auto.
Qed.

Lemma KindsInv_assign_update ks k km km' :
  lookup k ks = Some km -> kind_order km' = kind_order km ->
  KindsInv ks -> KindsInv (assign k km' ks).
Proof.
  intros Hk Ho [Hnd Hord]. split.
  - now apply NoDup_keys_assign.
  - destruct (orders_assign_update ks k km km' Hk Ho) as [E1 E2].
    now rewrite E1, E2.
Qed.

(** ** Quiet operations *)

Lemma Quiet_intro w w' :
  _stories (this w') = _stories (this w) ->
  closures w' = closures w ->
  (exists d, effects w' = effects w ++ d /\ forallb quiet d = true) ->
  kinds_persist (_kinds (this w)) (_kinds (this w')) ->
  (KindsInv (_kinds (this w)) -> KindsInv (_kinds (this w'))) ->
  Quiet w w'.
Proof. unfold Quiet. tauto. Qed.

Lemma effects_same (ev : list Event) : exists d, ev = ev ++ d /\ forallb quiet d = true.
Proof. exists []. now rewrite app_nil_r. Qed.

Lemma Quiet_refl w : Quiet w w.
Proof.
  apply Quiet_intro; auto using effects_same, kinds_persist_refl.
Qed.

Lemma Quiet_trans a b c : Quiet a b -> Quiet b c -> Quiet a c.
Proof.
  intros (S1 & C1 & (d1 & E1 & Q1) & P1 & K1) (S2 & C2 & (d2 & E2 & Q2) & P2 & K2).
  apply Quiet_intro; try congruence.
  - exists (d1 ++ d2). rewrite E2, E1, app_assoc. split; [reflexivity|].
    rewrite forallb_app, Q1, Q2. reflexivity.
  - eapply kinds_persist_trans; eassumption.
  - auto.
Qed.

Lemma quiet_modify (f : StoryStore -> StoryStore) :
  (forall s, _stories (f s) = _stories s) ->
  (forall s, _kinds (f s) = _kinds s) ->
  Respects Quiet (modify f).
Proof.
  intros Hs Hk w. unfold modify; simpl.
  apply Quiet_intro; simpl; auto using effects_same.
  - rewrite Hk. apply kinds_persist_refl.
  - now rewrite Hk.
Qed.

Lemma quiet_perform (e : Event) : quiet e = true -> Respects Quiet (perform e).
Proof.
  intros He w. unfold perform; simpl.
  apply Quiet_intro; simpl; auto using kinds_persist_refl.
  exists [e]. split; [reflexivity|]. simpl. now rewrite He.
Qed.

Lemma quiet_readonly {A} (c : M A) : Respects eq c -> Respects Quiet c.
Proof. apply respects_eq_any. apply Quiet_refl. Qed.

Lemma quiet_ensureKind k : Respects Quiet (ensureKind k).
Proof.
  intros w. unfold ensureKind, modify, ensured; simpl.
  destruct (lookup k (_kinds (this w))) eqn:Ek; simpl.
  - apply Quiet_intro; simpl; auto using effects_same, kinds_persist_refl.
  - apply Quiet_intro; simpl; auto using effects_same.
    + now apply kinds_persist_assign_fresh.
    + now apply KindsInv_assign_fresh.
Qed.

Lemma quiet_update_kind k (f : KindMetadata -> KindMetadata) :
  (forall km, kind_order (f km) = kind_order km) ->
  Respects Quiet (update_kind k f).
Proof.
  intros Hf w. unfold update_kind, bind, get_this, modify, throw; simpl.
  destruct (lookup k (_kinds (this w))) as [km|] eqn:Ek; simpl.
  - apply Quiet_intro; simpl; auto using effects_same.
    + eapply kinds_persist_assign_update; eauto.
    + eapply KindsInv_assign_update; eauto.
  - apply Quiet_refl.
Qed.

Ltac quiet_step :=
  first
    [ apply quiet_ensureKind
    | apply quiet_update_kind; intros ?; reflexivity
    | apply quiet_readonly;
      first [ apply fromId_readonly | apply raw_readonly | apply extract_readonly
            | apply getStoriesForManager_readonly | apply getStoriesForKind_readonly
            | apply getAllParameters_readonly | apply getStorybook_readonly ]
    | apply quiet_modify; intros ?; reflexivity
    | apply quiet_perform; reflexivity
    | respects_step Quiet_refl Quiet_trans ].

Ltac quiet_auto := repeat quiet_step.

Lemma quiet_pushToManager cmp : Respects Quiet (pushToManager cmp).
Proof. unfold pushToManager. quiet_auto. Qed.

Lemma quiet_finishConfiguring cmp : Respects Quiet (finishConfiguring cmp).
Proof.
  unfold finishConfiguring.
  apply (respects_bind _ Quiet_trans); [quiet_auto|]. intros _.
  apply (respects_bind _ Quiet_trans); [apply quiet_pushToManager|]. intros _.
  quiet_auto.
Qed.

Lemma quiet_addGlobalMetadata md : Respects Quiet (addGlobalMetadata md).
Proof. unfold addGlobalMetadata. quiet_auto. Qed.

Lemma quiet_addKindMetadata inJest k md : Respects Quiet (addKindMetadata inJest k md).
Proof. unfold addKindMetadata, checkGlobalArgs. quiet_auto. Qed.

Lemma quiet_addParameterEnhancer f : Respects Quiet (addParameterEnhancer f).
Proof. unfold addParameterEnhancer. quiet_auto. Qed.

Lemma quiet_updateGlobalArgs v : Respects Quiet (updateGlobalArgs v).
Proof. unfold updateGlobalArgs. quiet_auto. Qed.

Lemma quiet_setSelection sel : Respects Quiet (setSelection sel).
Proof. unfold setSelection. quiet_auto. Qed.

Lemma quiet_setError err : Respects Quiet (setError err).
Proof. unfold setError. quiet_auto. Qed.

(** ** From quiet and releasing operations to summaries *)

Lemma compositions_app c ev d :
  compositions c (ev ++ d) = compositions c ev ++ compositions c d.
Proof. unfold compositions. apply flat_map_app. Qed.

Lemma compositions_quiet c d : forallb quiet d = true -> compositions c d = [].
Proof.
  induction d as [|e d IH]; simpl; auto.
  intros H. apply andb_prop in H. destruct H as [He Hd].
  destruct e; simpl in *; try discriminate; auto.
Qed.

Lemma compositions_releases c d :
  (forall e, In e d -> exists h, e = HooksClean h) -> compositions c d = [].
Proof.
  induction d as [|e d IH]; simpl; auto.
  intros H. destruct (H e (or_introl eq_refl)) as [h ->]. simpl. auto.
Qed.

Lemma quiet_no_release d h : forallb quiet d = true -> ~ In (HooksClean h) d.
Proof.
  intros H Hin. rewrite forallb_forall in H. specialize (H _ Hin). discriminate.
Qed.

Lemma closures_ext_refl cl : closures_ext cl cl.
Proof. intros c t H. exists t. unfold same_capture. auto. Qed.

Lemma closures_ext_trans a b c :
  closures_ext a b -> closures_ext b c -> closures_ext a c.
Proof.
  intros Hab Hbc i t H.
  destruct (Hab _ _ H) as (t1 & H1 & E1 & E2 & E3).
  destruct (Hbc _ _ H1) as (t2 & H2 & F1 & F2 & F3).
  exists t2. unfold same_capture. repeat split; congruence.
Qed.

Lemma MemoInv_frame w w' d :
  closures w' = closures w -> effects w' = effects w ++ d ->
  (forall c, compositions c d = []) ->
  MemoInv w -> MemoInv w'.
Proof.
  intros Hc He Hd H c. rewrite Hc, He, compositions_app, Hd, app_nil_r. apply H.
Qed.

Lemma TableInv_frame w w' :
  _stories (this w') = _stories (this w) ->
  List.length (closures w) <= List.length (closures w') ->
  kinds_persist (_kinds (this w)) (_kinds (this w')) ->
  (KindsInv (_kinds (this w)) -> KindsInv (_kinds (this w'))) ->
  TableInv w -> TableInv w'.
Proof.
  intros Hs Hl Hp Hk [I1 I2 I3 I4 I5 I6].
  constructor; rewrite ?Hs; auto.
  - intros k e Hin. destruct (I3 _ _ Hin). split; [assumption | lia].
  - intros k e Hin. specialize (I5 _ _ Hin).
    destruct (lookup (kind e) (_kinds (this w))) as [km|] eqn:E; [|congruence].
    destruct (Hp _ _ E) as (km' & E' & _). congruence.
Qed.

Lemma compositions_calm c d (P : nat -> Prop) :
  (forall e, In e d -> quiet e = true \/ exists h, e = HooksClean h /\ P h) ->
  compositions c d = [].
Proof.
  induction d as [|e d IH]; simpl; auto.
  intros H. rewrite IH by auto.
  destruct (H e (or_introl eq_refl)) as [Hq|(h & -> & _)]; [|reflexivity].
  destruct e; simpl in *; try discriminate; reflexivity.
Qed.

Lemma Calm_intro w w' :
  _stories (this w') = _stories (this w) ->
  closures w' = closures w ->
  (exists d, effects w' = effects w ++ d /\
             forall e, In e d ->
               quiet e = true \/
               exists h, e = HooksClean h /\ In h (handles (_stories (this w)))) ->
  kinds_persist (_kinds (this w)) (_kinds (this w')) ->
  (KindsInv (_kinds (this w)) -> KindsInv (_kinds (this w'))) ->
  Calm w w'.
Proof. unfold Calm. tauto. Qed.

Lemma Calm_refl w : Calm w w.
Proof.
  apply Calm_intro; auto using kinds_persist_refl.
  exists []. rewrite app_nil_r. split; [reflexivity|]. intros e [].
Qed.

Lemma Calm_trans a b c : Calm a b -> Calm b c -> Calm a c.
Proof.
  intros (S1 & C1 & (d1 & E1 & H1) & P1 & K1) (S2 & C2 & (d2 & E2 & H2) & P2 & K2).
  split; [congruence|]. split; [congruence|]. split; [|split].
  - exists (d1 ++ d2). rewrite E2, E1, app_assoc. split; [reflexivity|].
    intros e Hin. apply in_app_or in Hin. destruct Hin as [Hin|Hin]; auto.
    rewrite S1 in H2. auto.
  - eapply kinds_persist_trans; eassumption.
  - auto.
Qed.

Lemma Calm_of_Quiet w w' : Quiet w w' -> Calm w w'.
Proof.
  intros (Hs & Hc & (d & He & Hq) & Hp & Hk).
  apply Calm_intro; auto. exists d. split; [assumption|].
  intros e Hin. left. rewrite forallb_forall in Hq. auto.
Qed.

Lemma Calm_of_Releasing w w' : Releasing w w' -> Calm w w'.
Proof.
  intros (Ht & Hc & d & He & Hd).
  apply Calm_intro; rewrite ?Ht; auto using kinds_persist_refl.
  exists d. split; [assumption|]. intros e Hin. right. auto.
Qed.

Lemma Summary_of_Calm w w' : Calm w w' -> Summary w w'.
Proof.
  intros (Hs & Hc & (d & He & Hd) & Hp & Hk).
  constructor.
  - exists d. split; [assumption|]. intros h Hin.
    destruct (Hd _ Hin) as [Hq|(h' & [= ->] & Hh)]; [discriminate | assumption].
  - rewrite Hc. apply closures_ext_refl.
  - now rewrite Hc.
  - intros h Hin. rewrite Hs in Hin. now left.
  - apply (MemoInv_frame w w' d); auto. intros c.
    eapply compositions_calm. exact Hd.
  - apply TableInv_frame; auto. now rewrite Hc.
  - assumption.
Qed.

Lemma Releasing_refl w : Releasing w w.
Proof.
  repeat split. exists []. rewrite app_nil_r. split; [reflexivity|]. intros e [].
Qed.

Lemma Releasing_trans a b c : Releasing a b -> Releasing b c -> Releasing a c.
Proof.
  intros (T1 & C1 & d1 & E1 & H1) (T2 & C2 & d2 & E2 & H2).
  split; [congruence|]. split; [congruence|].
  exists (d1 ++ d2). rewrite E2, E1, app_assoc. split; [reflexivity|].
  intros e Hin. apply in_app_or in Hin. destruct Hin as [Hin|Hin]; auto.
  rewrite T1 in H2. auto.
Qed.

Lemma releasing_readonly {A} (c : M A) : Respects eq c -> Respects Releasing c.
Proof. apply respects_eq_any. apply Releasing_refl. Qed.

Lemma releasing_cleanHooks sid : Respects Releasing (cleanHooks sid).
Proof.
  intros w. unfold cleanHooks, hooks_clean, bind, get_this, perform, ret; simpl.
  destruct (lookup sid (_stories (this w))) as [st|] eqn:E; simpl.
  - repeat split. exists [HooksClean (hooks st)]. split; [reflexivity|].
    intros e [<-|[]]. exists (hooks st). split; [reflexivity|].
    apply lookup_In in E. unfold handles.
    change (hooks st) with ((fun kv : string * StoreItem => hooks (snd kv)) (sid, st)).
    now apply in_map.
  - apply Releasing_refl.
Qed.

Lemma releasing_cleanHooksForKind k : Respects Releasing (cleanHooksForKind k).
Proof.
  unfold cleanHooksForKind.
  apply (respects_bind _ Releasing_trans).
  - apply releasing_readonly, getStoriesForKind_readonly.
  - intros stories. apply (respects_bind _ Releasing_trans).
    + apply (respects_mapM _ Releasing_refl Releasing_trans).
      intros st. apply releasing_cleanHooks.
    + intros _. apply (respects_ret _ Releasing_refl).
Qed.

(** ** Calling the memoized closure *)

Lemma Summary_refl w : Summary w w.
Proof. apply Summary_of_Calm, Calm_refl. Qed.

Lemma length_fill_cache cell l : List.length (fill_cache cell l) = List.length l.
Proof.
  revert cell. induction l as [|t l IH]; intros [|c]; simpl; auto.
Qed.

Lemma nth_error_fill_cache cell l c :
  nth_error (fill_cache cell l) c =
  match nth_error l c with
  | Some t => Some (if Nat.eqb c cell
                    then {| applier := applier t; finalStoryFn := finalStoryFn t;
                            decorators := decorators t; computed := true |}
                    else t)
  | None => None
  end.
Proof.
  revert cell c. induction l as [|t l IH]; intros cell c.
  - destruct cell, c; reflexivity.
  - destruct cell as [|cell], c as [|c]; simpl; try reflexivity.
    + destruct (nth_error l c); reflexivity.
    + rewrite IH. reflexivity.
Qed.

Lemma Summary_call_getDecorated cell w : Summary w (snd (call_getDecorated cell w)).
Proof.
  unfold call_getDecorated.
  destruct (nth_error (closures w) cell) as [t|] eqn:Et; [|apply Summary_refl].
  destruct (computed t) eqn:Ec; [apply Summary_refl|]. simpl.
  constructor; simpl.
  - eexists. split; [reflexivity|]. intros h [H|[]]. discriminate.
  - intros c t0 H0. rewrite nth_error_fill_cache, H0.
    eexists. split; [reflexivity|].
    destruct (Nat.eqb c cell); unfold same_capture; simpl; auto.
  - now rewrite length_fill_cache.
  - auto.
  - intros Hm c. simpl. rewrite compositions_app, (Hm c), nth_error_fill_cache.
    simpl. destruct (Nat.eqb_spec cell c) as [<-|Hne].
    + rewrite Et, Ec, Nat.eqb_refl. reflexivity.
    + destruct (nth_error (closures w) c) as [t0|]; [|reflexivity].
      destruct (Nat.eqb_spec c cell); [congruence|]. now rewrite app_nil_r.
  - intros Hi. apply (TableInv_frame w); simpl; auto using kinds_persist_refl.
    now rewrite length_fill_cache.
  - apply kinds_persist_refl.
Qed.

Lemma snd_storyFn e ctx w :
  snd (storyFn e ctx w) =
  match getDecorated e with
  | Some cell => snd (call_getDecorated cell w)
  | None => w
  end.
Proof.
  unfold storyFn. destruct (getDecorated e) as [cell|]; [|reflexivity].
  unfold bind. destruct (call_getDecorated cell w) as [[r|err] w1]; reflexivity.
Qed.

Lemma snd_discard {A} (c : M A) w : snd (discard c w) = snd (c w).
Proof. unfold discard, bind, ret. destruct (c w) as [[a|e] w1]; reflexivity. Qed.

Lemma Summary_callStoryFn sid ctx w :
  Summary w (snd ((published <- fromId sid ;;
                   match published with
                   | Some p => discard (storyFn (item p) ctx)
                   | None => ret tt
                   end) w)).
Proof.
  unfold bind at 1. rewrite fromId_eq.
  destruct (lookup sid (_stories (this w))) as [data|]; [|apply Summary_refl].
  destruct (getDecorated data) as [cell|] eqn:Eg; [|apply Summary_refl].
  rewrite snd_discard, snd_storyFn. simpl. rewrite Eg.
  apply Summary_call_getDecorated.
Qed.

(** ** Removing one story *)

Lemma delete_filter {A} k (l : list (string * A)) :
  delete k l = filter (fun kv => negb (String.eqb k (fst kv))) l.
Proof.
  induction l as [|[k0 a0] l IH]; simpl; auto.
  destruct (String.eqb k k0); simpl; now rewrite IH.
Qed.

Lemma NoDup_map_filter {A B} (p : A -> bool) (f : A -> B) (l : list A)
    (Hnd : NoDup (map f l)) :
  NoDup (map f (filter p l)).
Proof.
  induction l as [|x l IH]; simpl in *; auto.
  inversion Hnd as [|? ? Hn Hnd']; subst.
  destruct (p x); simpl; auto.
  constructor; auto. intros Hin. apply Hn.
  apply in_map_iff in Hin. destruct Hin as (y & Ey & Hy).
  apply filter_In in Hy. apply in_map_iff. exists y. tauto.
Qed.

Lemma TableInv_filter w w' (p : string * StoreItem -> bool) :
  _stories (this w') = filter p (_stories (this w)) ->
  _kinds (this w') = _kinds (this w) ->
  List.length (closures w) <= List.length (closures w') ->
  TableInv w -> TableInv w'.
Proof.
  intros Hs Hk Hl [I1 I2 I3 I4 I5 I6].
  constructor; rewrite ?Hs, ?Hk; auto.
  - now apply NoDup_map_filter.
  - intros k e Hin. apply filter_In in Hin. destruct Hin. eauto.
  - intros k e Hin. apply filter_In in Hin. destruct Hin as [Hin _].
    destruct (I3 _ _ Hin). split; [assumption | lia].
  - now apply NoDup_map_filter.
  - intros k e Hin. apply filter_In in Hin. destruct Hin. eauto.
Qed.

Lemma handles_filter p (l : list (string * StoreItem)) h :
  In h (handles (filter p l)) -> In h (handles l).
Proof.
  unfold handles. intros Hin. apply in_map_iff in Hin.
  destruct Hin as (kv & E & Hkv). apply filter_In in Hkv.
  apply in_map_iff. exists kv. tauto.
Qed.

Lemma lookup_handle sid st (l : list (string * StoreItem)) :
  lookup sid l = Some st -> In (hooks st) (handles l).
Proof.
  intros E. apply lookup_In in E. unfold handles.
  change (hooks st) with ((fun kv : string * StoreItem => hooks (snd kv)) (sid, st)).
  now apply in_map.
Qed.

Lemma Summary_remove sid un w : Summary w (snd (remove sid un w)).
Proof.
  unfold remove, hooks_clean, bind, get_this, modify, perform, throw, ret; simpl.
  destruct (negb (_configuring (this w)) && negb un); simpl; [apply Summary_refl|].
  assert (Hcommon : forall d,
            (forall h, In (HooksClean h) d -> In h (handles (_stories (this w)))) ->
            (forall c, compositions c d = []) ->
            Summary w {| this := set_stories (delete sid (_stories (this w))) (this w);
                         closures := closures w; effects := effects w ++ d |}).
  { intros d Hd Hc. constructor; simpl.
    - exists d. auto.
    - apply closures_ext_refl.
    - auto.
    - intros h Hin. left. rewrite delete_filter in Hin. eapply handles_filter; eassumption.
    - intros Hm. eapply MemoInv_frame; [| |exact Hc|exact Hm]; reflexivity.
    - apply TableInv_filter with (p := fun kv => negb (String.eqb sid (fst kv))); simpl; auto.
      apply delete_filter.
    - apply kinds_persist_refl. }
  destruct (lookup sid (_stories (this w))) as [st|] eqn:E; simpl.
  - apply Hcommon.
    + intros h [[= <-]|[]]. eapply lookup_handle; eassumption.
    + intros c. reflexivity.
  - specialize (Hcommon [] (fun h (H : In (HooksClean h) []) => match H with end)
                           (fun c => eq_refl)).
    now rewrite app_nil_r in Hcommon.
Qed.

(** ** Removing a kind *)

Lemma In_assign_weak {A} k (a : A) l kv :
  In kv (assign k a l) -> kv = (k, a) \/ In kv l.
Proof.
  induction l as [|[k0 a0] l IH]; simpl.
  - intros [H|[]]. now left.
  - destruct (String.eqb k k0); simpl.
    + intros [H|H]; [now left | right; now right].
    + intros [H|H]; [right; now left|].
      destruct (IH H); [now left | right; now right].
Qed.

Lemma In_fold_assign {A} (p : string * A -> bool) l acc kv :
  In kv (fold_left (fun acc kv => if p kv then assign (fst kv) (snd kv) acc else acc) l acc) ->
  In kv acc \/ In kv l.
Proof.
  revert acc. induction l as [|[k0 a0] l IH]; simpl; intros acc; [tauto|].
  intros H. apply IH in H. destruct H as [H|H]; [|tauto].
  destruct (p (k0, a0)); [|tauto]. simpl in H.
  apply In_assign_weak in H. destruct H as [->|H]; tauto.
Qed.

Lemma fold_assign_filter {A B} (p : string * A -> bool) (g : A -> B) l acc :
  NoDup (keys acc ++ keys l) ->
  fold_left (fun acc kv => if p kv then assign (fst kv) (g (snd kv)) acc else acc) l acc
  = acc ++ map (fun kv => (fst kv, g (snd kv))) (filter p l).
Proof.
  revert acc. induction l as [|[k0 a0] l IH]; simpl; intros acc Hnd.
  - now rewrite app_nil_r.
  - pose proof (NoDup_remove_1 _ _ _ Hnd) as Hnd1.
    pose proof (NoDup_remove_2 _ _ _ Hnd) as Hnd2.
    destruct (p (k0, a0)); simpl.
    + rewrite assign_fresh.
      * rewrite IH.
        -- now rewrite <- app_assoc.
        -- unfold keys. rewrite map_app, <- app_assoc. simpl. exact Hnd.
      * apply lookup_None_keys. intros Hin. apply Hnd2. apply in_or_app. now left.
    + apply IH. exact Hnd1.
Qed.

Lemma map_pair_id {A} (l : list (string * A)) :
  map (fun kv => (fst kv, snd kv)) l = l.
Proof. induction l as [|[k a] l IH]; simpl; congruence. Qed.

Lemma without_kind_filter k l :
  NoDup (keys l) ->
  without_kind k l = filter (fun kv => negb (String.eqb (kind (snd kv)) k)) l.
Proof.
  intros Hnd. unfold without_kind.
  rewrite (fold_assign_filter (fun kv => negb (String.eqb (kind (snd kv)) k))
             (fun e => e) l []) by exact Hnd.
  simpl. apply map_pair_id.
Qed.

Lemma calm_then {A B} (c : M A) (k : A -> M B) w0 w (P : World -> Prop) :
  Respects Calm c -> Calm w0 w ->
  (forall a w1, Calm w0 w1 -> P (snd (k a w1))) ->
  (forall w1, Calm w0 w1 -> P w1) ->
  P (snd (bind c k w)).
Proof.
  intros Hc H0 Hk Ht. unfold bind. specialize (Hc w).
  destruct (c w) as [[a|e] w1]; simpl in *.
  - apply Hk. eapply Calm_trans; eassumption.
  - apply Ht. eapply Calm_trans; eassumption.
Qed.

Lemma calm_of_quiet_respects {A} (c : M A) : Respects Quiet c -> Respects Calm c.
Proof. intros H w. apply Calm_of_Quiet, H. Qed.

Lemma calm_of_releasing_respects {A} (c : M A) : Respects Releasing c -> Respects Calm c.
Proof. intros H w. apply Calm_of_Releasing, H. Qed.

Lemma bind_get_this {A} (k : StoryStore -> M A) w : bind get_this k w = k (this w) w.
Proof. reflexivity. Qed.

Lemma removeStoryKind_cases k un w (P : World -> Prop) :
  (forall w2, Calm w w2 -> P w2) ->
  (forall w2, Calm w w2 ->
     P {| this := set_stories (without_kind k (_stories (this w2))) (this w2);
          closures := closures w2; effects := effects w2 |}) ->
  P (snd (removeStoryKind k un w)).
Proof.
  intros Hsame Hpurge.
  unfold removeStoryKind. rewrite bind_get_this.
  destruct (negb (_configuring (this w)) && negb un).
  { apply Hsame, Calm_refl. }
  destruct (lookup k (_kinds (this w))).
  2:{ apply Hsame, Calm_refl. }
  apply (calm_then _ _ w w); [| apply Calm_refl | | exact Hsame].
  { apply calm_of_quiet_respects, quiet_update_kind. reflexivity. }
  intros _ w1 H1.
  apply (calm_then _ _ w w1); [| exact H1 | | exact Hsame].
  { apply calm_of_quiet_respects, quiet_update_kind. reflexivity. }
  intros _ w2 H2.
  apply (calm_then _ _ w w2); [| exact H2 | | exact Hsame].
  { apply calm_of_releasing_respects, releasing_cleanHooksForKind. }
  intros _ w3 H3. apply Hpurge. exact H3.
Qed.

Lemma Summary_purge k w w2 :
  Calm w w2 ->
  Summary w {| this := set_stories (without_kind k (_stories (this w2))) (this w2);
               closures := closures w2; effects := effects w2 |}.
Proof.
  intros HC. pose proof (Summary_of_Calm _ _ HC) as HS.
  destruct HC as (Hs & Hc & (d & He & Hd) & Hp & Hk).
  constructor; simpl.
  - apply (sum_releases HS).
  - apply (sum_closures HS).
  - apply (sum_length HS).
  - intros h Hin. left. unfold handles in *. apply in_map_iff in Hin.
    destruct Hin as (kv & E & Hkv). unfold without_kind in Hkv.
    apply In_fold_assign in Hkv. destruct Hkv as [[]|Hkv].
    rewrite Hs in Hkv. apply in_map_iff. eauto.
  - intros Hm. apply (sum_memo HS) in Hm. intros c. apply Hm.
  - intros Hi. apply (sum_table HS) in Hi.
    eapply TableInv_filter; [| | |exact Hi]; simpl; auto.
    apply without_kind_filter. apply (inv_ids Hi).
  - exact Hp.
Qed.

Lemma Summary_removeStoryKind k un w : Summary w (snd (removeStoryKind k un w)).
Proof.
  apply removeStoryKind_cases.
  - intros w2. apply Summary_of_Calm.
  - intros w2. apply Summary_purge.
Qed.

(** ** Registering a story *)

Lemma ensured_lookup k s :
  lookup k (_kinds (ensured k s)) =
  Some match lookup k (_kinds s) with
       | Some km => km
       | None => {| kind_order := List.length (keys (_kinds s));
                    kind_parameters := VObj []; kind_decorators := [] |}
       end.
Proof.
  unfold ensured. destruct (lookup k (_kinds s)) eqn:E; simpl; auto.
  apply lookup_assign_same.
Qed.

Lemma ensured_other_fields k s :
  _stories (ensured k s) = _stories s /\
  _globalMetadata (ensured k s) = _globalMetadata s /\
  _parameterEnhancers (ensured k s) = _parameterEnhancers s /\
  _configuring (ensured k s) = _configuring s /\
  _globalArgs (ensured k s) = _globalArgs s.
Proof. unfold ensured. destruct (lookup k (_kinds s)); simpl; auto. Qed.

(** The world addStory leaves behind once the guard has let it pass. *)
Lemma addStory_world inJest a ap un w :
  negb (_configuring (this w)) && negb un = false ->
  exists logs, forallb quiet logs = true /\
    let s1 := ensured (add_kind a) (this w) in
    let storyParameters := or_empty (add_parameters a) in
    match lookup (add_kind a) (_kinds s1) with
    | None => exists e, addStory inJest a ap un w =
                (Throw e, {| this := s1; closures := closures w;
                             effects := effects w ++ logs |})
    | Some km =>
        let t := {| applier := ap; finalStoryFn := add_storyFn a;
                    decorators := match add_decorators a with Some ds => ds | None => [] end
                                  ++ kind_decorators km
                                  ++ global_decorators (_globalMetadata s1);
                    computed := false |} in
        let resolved := resolveArgParameters s1 km storyParameters in
        let argTypes := or_empty (get resolved "argTypes") in
        match (if is_nullish argTypes then None
               else defaultValues [] (own_entries argTypes)) with
        | None => exists e, addStory inJest a ap un w =
                    (Throw e, {| this := s1; closures := closures w ++ [t];
                                 effects := effects w ++ logs |})
        | Some defaultArgs =>
            addStory inJest a ap un w =
            (Return tt,
             {| this :=
                  set_stories
                    (assign (add_id a)
                       {| id := add_id a; kind := add_kind a; name := add_name a;
                          story := add_name a;
                          hooks := List.length (closures w);
                          getDecorated := Some (List.length (closures w));
                          getOriginal := add_storyFn a;
                          parameters := storyParameters;
                          args := VObj (spread (spread [] (VObj defaultArgs))
                                               (or_empty (get resolved "args"))) |}
                       (_stories s1)) s1;
                closures := closures w ++ [t];
                effects := effects w ++ logs |})
        end
    end.
Proof.
  intros Hguard.
  exists ((if truthy (or_empty (add_parameters a))
           then if (truthy (get (or_empty (add_parameters a)) "globalArgs")
                    || truthy (get (or_empty (add_parameters a)) "globalArgTypes"))
                   && negb inJest
                then [LoggerError "Global args/argTypes can only be set globally"]
                else []
           else [])
          ++ match lookup (add_id a) (_stories (this w)) with
             | Some _ => [LoggerWarn "Story with id already exists in the store!"]
             | None => []
             end).
  split.
  { repeat case_if; destruct (lookup (add_id a) (_stories (this w))); reflexivity. }
  unfold addStory. rewrite bind_get_this, Hguard.
  unfold checkGlobalArgs, ensureKind, allocate, bind, perform, modify, get_this, ret, throw.
  destruct (truthy (or_empty (add_parameters a))); simpl.
  1: destruct ((truthy (get (or_empty (add_parameters a)) "globalArgs")
                || truthy (get (or_empty (add_parameters a)) "globalArgTypes"))
               && negb inJest); simpl.
  all: destruct (lookup (add_id a) (_stories (this w))); simpl.
  all: rewrite <- ?app_assoc, ?app_nil_r; simpl.
  all: destruct (lookup (add_kind a) (_kinds (ensured (add_kind a) (this w))));
       [|eexists; reflexivity].
  all: match goal with
       | |- context [if is_nullish ?x then None else ?y] =>
           destruct (if is_nullish x then None else y)
       end; [reflexivity | eexists; reflexivity].
Qed.

Lemma handles_assign k e (l : list (string * StoreItem)) h :
  In h (handles (assign k e l)) -> h = hooks e \/ In h (handles l).
Proof.
  unfold handles. intros Hin. apply in_map_iff in Hin.
  destruct Hin as (kv & E & Hkv). apply In_assign_weak in Hkv.
  destruct Hkv as [->|Hkv]; [now left|]. right. apply in_map_iff. eauto.
Qed.

Lemma NoDup_handles_assign k e (l : list (string * StoreItem)) :
  NoDup (handles l) -> ~ In (hooks e) (handles l) -> NoDup (handles (assign k e l)).
Proof.
  induction l as [|[k0 e0] l IH]; simpl; intros Hnd Hfresh.
  - repeat constructor. simpl. tauto.
  - inversion Hnd as [|? ? Hn Hnd']; subst.
    destruct (String.eqb k k0); simpl.
    + constructor; [tauto | assumption].
    + constructor.
      * intros Hin. apply handles_assign in Hin. destruct Hin as [E|Hin]; [|tauto].
        apply Hfresh. now left.
      * apply IH; tauto.
Qed.

Lemma ensured_quiet k w :
  Quiet w {| this := ensured k (this w); closures := closures w; effects := effects w |}.
Proof. exact (quiet_ensureKind k w). Qed.

Lemma Quiet_logs w w' logs :
  Quiet w w' -> forallb quiet logs = true ->
  Quiet w {| this := this w'; closures := closures w'; effects := effects w' ++ logs |}.
Proof.
  intros (Hs & Hc & (d & He & Hq) & Hp & Hk) Hl.
  apply Quiet_intro; simpl; auto.
  exists (d ++ logs). rewrite He, app_assoc. split; [reflexivity|].
  now rewrite forallb_app, Hq, Hl.
Qed.

Lemma Summary_allocate w w1 t :
  Quiet w w1 -> computed t = false ->
  Summary w {| this := this w1; closures := closures w1 ++ [t]; effects := effects w1 |}.
Proof.
  intros HQ Ht. pose proof (Summary_of_Calm _ _ (Calm_of_Quiet _ _ HQ)) as HS.
  destruct HQ as (Hs & Hc & _ & Hp & Hk).
  constructor; simpl.
  - apply (sum_releases HS).
  - intros c t0 H0. exists t0. split; [|unfold same_capture; auto].
    rewrite Hc. rewrite nth_error_app1; [assumption|].
    apply nth_error_Some. congruence.
  - rewrite length_app, Hc. lia.
  - intros h Hin. rewrite Hs in Hin. now left.
  - intros Hm. apply (sum_memo HS) in Hm. intros c. simpl. rewrite (Hm c).
    destruct (Nat.lt_ge_cases c (List.length (closures w1))) as [Hlt|Hge].
    + now rewrite nth_error_app1.
    + rewrite nth_error_app2 by assumption.
      replace (nth_error (closures w1) c) with (@None Thunk)
        by (symmetry; now apply nth_error_None).
      destruct (c - List.length (closures w1)) as [|n]; simpl.
      * now rewrite Ht.
      * now destruct n.
  - intros Hi. apply (sum_table HS) in Hi.
    apply (TableInv_frame w1); simpl; auto using kinds_persist_refl.
    rewrite length_app. lia.
  - exact Hp.
Qed.

Lemma Summary_register w w2 e :
  Summary w w2 ->
  _stories (this w2) = _stories (this w) ->
  List.length (closures w2) = S (List.length (closures w)) ->
  hooks e = List.length (closures w) ->
  getDecorated e = Some (hooks e) ->
  lookup (kind e) (_kinds (this w2)) <> None ->
  Summary w {| this := set_stories (assign (id e) e (_stories (this w2))) (this w2);
               closures := closures w2; effects := effects w2 |}.
Proof.
  intros HS Hs Hl Hh Hg Hk.
  constructor; simpl.
  - apply (sum_releases HS).
  - apply (sum_closures HS).
  - apply (sum_length HS).
  - intros h Hin. apply handles_assign in Hin. rewrite Hs in Hin.
    destruct Hin as [->|Hin]; [right; lia | now left].
  - intros Hm. apply (sum_memo HS) in Hm. intros c. apply Hm.
  - intros Hi0. pose proof (sum_table HS Hi0) as Hi.
    destruct Hi as [I1 I2 I3 I4 I5 I6].
    assert (Hfresh : ~ In (hooks e) (handles (_stories (this w2)))).
    { rewrite Hs, Hh. intros Hin. unfold handles in Hin. apply in_map_iff in Hin.
      destruct Hin as ([k0 e0] & E & Hin). simpl in E.
      destruct (inv_cell Hi0 _ _ Hin) as [_ Hlt]. lia. }
    constructor; simpl.
    + now apply NoDup_keys_assign.
    + intros k0 e0 Hin. apply In_assign_weak in Hin.
      destruct Hin as [[= -> ->]|Hin]; eauto.
    + intros k0 e0 Hin. apply In_assign_weak in Hin.
      destruct Hin as [[= -> ->]|Hin]; [split; [assumption | lia]|eauto].
    + now apply NoDup_handles_assign.
    + intros k0 e0 Hin. apply In_assign_weak in Hin.
      destruct Hin as [[= -> ->]|Hin]; eauto.
    + assumption.
  - apply (sum_kinds HS).
Qed.

Lemma Summary_addStory inJest a ap un w : Summary w (snd (addStory inJest a ap un w)).
Proof.
  destruct (negb (_configuring (this w)) && negb un) eqn:Hguard.
  { unfold addStory. rewrite bind_get_this, Hguard. apply Summary_refl. }
  destruct (addStory_world inJest a ap un w Hguard) as (logs & Hlogs & H).
  pose proof (Quiet_logs _ _ logs (ensured_quiet (add_kind a) w) Hlogs) as HQ.
  simpl in HQ, H.
  rewrite ensured_lookup in H.
  match type of H with
  | match (if is_nullish ?x then None else ?y) with _ => _ end =>
      destruct (if is_nullish x then None else y)
  end.
  - rewrite H. simpl.
    match goal with
    | |- Summary _ {| this := set_stories (assign ?i ?e _) _; closures := _ ++ [?t] |} =>
        apply (Summary_register w
                 {| this := ensured (add_kind a) (this w);
                    closures := closures w ++ [t]; effects := effects w ++ logs |} e)
    end; simpl; auto.
    + apply (Summary_allocate w _ _ HQ). reflexivity.
    + apply ensured_other_fields.
    + rewrite length_app. simpl. lia.
    + rewrite ensured_lookup. discriminate.
  - destruct H as (e & H). rewrite H. simpl.
    apply (Summary_allocate w _ _ HQ). reflexivity.
Qed.

(** ** Updating the args of a story *)

Lemma handles_assign_update sid st st' (l : list (string * StoreItem)) :
  lookup sid l = Some st -> hooks st' = hooks st ->
  handles (assign sid st' l) = handles l.
Proof.
  intros Hl Hh. induction l as [|[k0 e0] l IH]; simpl in *; [discriminate|].
  destruct (String.eqb sid k0); simpl.
  - injection Hl as ->. now rewrite Hh.
  - now rewrite IH.
Qed.

Lemma Summary_updateStoryArgs sid v w : Summary w (snd (updateStoryArgs sid v w)).
Proof.
  unfold updateStoryArgs. rewrite bind_get_this.
  destruct (lookup sid (_stories (this w))) as [st|] eqn:E; [|apply Summary_refl].
  set (st' := set_item_args _ st).
  assert (Hcommon : forall d, forallb quiet d = true ->
            Summary w {| this := set_stories (assign sid st' (_stories (this w))) (this w);
                         closures := closures w; effects := effects w ++ d |}).
  { intros d Hd. constructor; simpl.
    - exists d. split; [reflexivity|]. intros h Hin. now apply quiet_no_release in Hin.
    - apply closures_ext_refl.
    - auto.
    - intros h Hin. left. now rewrite (handles_assign_update sid st st') in Hin.
    - intros Hm. eapply MemoInv_frame; [| | |exact Hm]; try reflexivity.
      intros c. now apply compositions_quiet.
    - intros [I1 I2 I3 I4 I5 I6]. pose proof (lookup_In _ _ _ E) as Hin0.
      constructor; simpl.
      + now apply NoDup_keys_assign.
      + intros k0 e0 Hin. apply In_assign_weak in Hin.
        destruct Hin as [[= -> ->]|Hin]; [apply (I2 _ _ Hin0) | eauto].
      + intros k0 e0 Hin. apply In_assign_weak in Hin.
        destruct Hin as [[= -> ->]|Hin]; [apply (I3 _ _ Hin0) | eauto].
      + now rewrite (handles_assign_update sid st st').
      + intros k0 e0 Hin. apply In_assign_weak in Hin.
        destruct Hin as [[= -> ->]|Hin]; [apply (I5 _ _ Hin0) | eauto].
      + assumption.
    - apply kinds_persist_refl. }
  unfold bind, modify, perform, throw; simpl.
  destruct (_channel (this w)); simpl.
  - apply Hcommon. reflexivity.
  - specialize (Hcommon [] eq_refl). now rewrite app_nil_r in Hcommon.
Qed.

(** ** Every operation has a summary *)

Lemma step_summary inJest cmp w o : Summary w (step inJest cmp w o).
Proof.
  unfold step.
  destruct o; simpl;
    try (apply Summary_of_Calm, Calm_of_Quiet;
         first [ apply quiet_finishConfiguring | apply quiet_addGlobalMetadata
               | apply quiet_ensureKind | apply quiet_addKindMetadata
               | apply quiet_addParameterEnhancer | apply quiet_updateGlobalArgs
               | apply quiet_pushToManager | apply quiet_setSelection
               | apply quiet_setError
               | apply quiet_modify; intros ?; reflexivity ]).
  - apply Summary_addStory.
  - apply Summary_remove.
  - apply Summary_removeStoryKind.
  - apply Summary_updateStoryArgs.
  - apply Summary_of_Calm, Calm_of_Releasing, releasing_cleanHooks.
  - apply Summary_of_Calm, Calm_of_Releasing, releasing_cleanHooksForKind.
  - apply Summary_callStoryFn.
  - rewrite snd_discard. apply Summary_call_getDecorated.
Qed.

(** ** Reachable worlds *)

Lemma TableInv_new ch : TableInv (new_World ch).
Proof.
  constructor; simpl; try (intros k e []); try apply NoDup_nil.
  split; [apply NoDup_nil | reflexivity].
Qed.

Lemma MemoInv_new ch : MemoInv (new_World ch).
Proof. intros c. simpl. now destruct c. Qed.

Lemma run_app inJest cmp ops1 ops2 w :
  run inJest cmp (ops1 ++ ops2) w = run inJest cmp ops2 (run inJest cmp ops1 w).
Proof. unfold run. apply fold_left_app. Qed.

Lemma run_TableInv inJest cmp ops w : TableInv w -> TableInv (run inJest cmp ops w).
Proof.
  revert w. induction ops as [|o ops IH]; simpl; intros w H; auto.
  apply IH. apply (sum_table (step_summary inJest cmp w o)). exact H.
Qed.

Lemma run_MemoInv inJest cmp ops w : MemoInv w -> MemoInv (run inJest cmp ops w).
Proof.
  revert w. induction ops as [|o ops IH]; simpl; intros w H; auto.
  apply IH. apply (sum_memo (step_summary inJest cmp w o)). exact H.
Qed.

Lemma run_closures_ext inJest cmp ops w :
  closures_ext (closures w) (closures (run inJest cmp ops w)).
Proof.
  revert w. induction ops as [|o ops IH]; simpl; intros w.
  - apply closures_ext_refl.
  - eapply closures_ext_trans; [|apply IH].
    apply (sum_closures (step_summary inJest cmp w o)).
Qed.


Lemma reachable_TableInv inJest cmp ops ch :
  TableInv (run inJest cmp ops (new_World ch)).
Proof. apply run_TableInv, TableInv_new. Qed.

Lemma reachable_MemoInv inJest cmp ops ch :
  MemoInv (run inJest cmp ops (new_World ch)).
Proof. apply run_MemoInv, MemoInv_new. Qed.

(** ** Releases never reach an entry that has left the table *)

Lemma releases_app h ev d : releases h (ev ++ d) = releases h ev + releases h d.
Proof. unfold releases. now rewrite filter_app, length_app. Qed.

Lemma releases_none h d : ~ In (HooksClean h) d -> releases h d = 0.
Proof.
  unfold releases. induction d as [|e d IH]; simpl; auto.
  intros Hn. destruct e; simpl; try (apply IH; tauto).
  destruct (Nat.eqb_spec h0 h) as [->|Hne]; [exfalso; apply Hn; now left|].
  apply IH. tauto.
Qed.

Lemma step_keeps_orphan inJest cmp w o h :
  TableInv w -> h < List.length (closures w) -> ~ In h (handles (_stories (this w))) ->
  let w' := step inJest cmp w o in
  TableInv w' /\ h < List.length (closures w') /\
  ~ In h (handles (_stories (this w'))) /\
  releases h (effects w') = releases h (effects w).
Proof.
  intros Hi Hlt Hout. pose proof (step_summary inJest cmp w o) as HS. simpl.
  split; [apply (sum_table HS Hi)|]. split; [pose proof (sum_length HS); lia|]. split.
  - intros Hin. apply (sum_handles HS) in Hin. destruct Hin; [tauto | lia].
  - destruct (sum_releases HS) as (d & E & Hd). rewrite E, releases_app.
    rewrite (releases_none h d); [lia|]. intros Hin. apply Hout. auto.
Qed.

Lemma run_keeps_orphan inJest cmp ops w h :
  TableInv w -> h < List.length (closures w) -> ~ In h (handles (_stories (this w))) ->
  releases h (effects (run inJest cmp ops w)) = releases h (effects w).
Proof.
  revert w. induction ops as [|o ops IH]; simpl; intros w Hi Hlt Hout; auto.
  destruct (step_keeps_orphan inJest cmp w o h Hi Hlt Hout) as (Hi' & Hlt' & Hout' & E).
  rewrite IH by assumption. exact E.
Qed.

(** ** A successful registration *)

Lemma addStory_registered inJest a ap un w :
  fst (addStory inJest a ap un w) = Return tt ->
  let w1 := snd (addStory inJest a ap un w) in
  exists logs e,
    forallb quiet logs = true /\
    this w1 = set_stories (assign (add_id a) e (_stories (this w)))
                          (ensured (add_kind a) (this w)) /\
    closures w1 = closures w ++
      [{| applier := ap; finalStoryFn := add_storyFn a;
          decorators :=
            match add_decorators a with Some ds => ds | None => [] end
            ++ match lookup (add_kind a) (_kinds (this w)) with
               | Some km => kind_decorators km
               | None => []
               end
            ++ global_decorators (_globalMetadata (this w));
          computed := false |}] /\
    effects w1 = effects w ++ logs /\
    id e = add_id a /\ kind e = add_kind a /\
    hooks e = List.length (closures w) /\
    getDecorated e = Some (List.length (closures w)) /\
    parameters e = or_empty (add_parameters a).
Proof.
  intros Hret. simpl.
  destruct (negb (_configuring (this w)) && negb un) eqn:Hguard.
  { unfold addStory in Hret. rewrite bind_get_this, Hguard in Hret. discriminate. }
  destruct (addStory_world inJest a ap un w Hguard) as (logs & Hlogs & H).
  simpl in H. rewrite ensured_lookup in H.
  destruct (ensured_other_fields (add_kind a) (this w)) as (Hst & Hg & _).
  match type of H with
  | match (if is_nullish ?x then None else ?y) with _ => _ end =>
      destruct (if is_nullish x then None else y)
  end.
  - rewrite H. simpl. rewrite Hst, Hg. eexists logs, _. split; [assumption|].
    split; [reflexivity|]. split.
    { destruct (lookup (add_kind a) (_kinds (this w))); reflexivity. }
    repeat split; reflexivity.
  - destruct H as (e & H). rewrite H in Hret. discriminate.
Qed.

(** Registration succeeds exactly when the guard lets it pass and no entry of
    the resolved argTypes is null or undefined. *)
Lemma addStory_returns_iff inJest a ap un w :
  let s1 := ensured (add_kind a) (this w) in
  let km := match lookup (add_kind a) (_kinds (this w)) with
            | Some km => km
            | None => {| kind_order := List.length (keys (_kinds (this w)));
                         kind_parameters := VObj []; kind_decorators := [] |}
            end in
  let argTypes :=
    or_empty (get (resolveArgParameters s1 km (or_empty (add_parameters a))) "argTypes") in
  fst (addStory inJest a ap un w) = Return tt <->
  (negb (_configuring (this w)) && negb un = false /\
   (if is_nullish argTypes then None else defaultValues [] (own_entries argTypes)) <> None).
Proof.
  intros s1 km argTypes.
  destruct (negb (_configuring (this w)) && negb un) eqn:Hguard.
  { unfold addStory. rewrite bind_get_this, Hguard. simpl.
    split; [discriminate | intros [H _]; discriminate]. }
  destruct (addStory_world inJest a ap un w Hguard) as (logs & _ & H).
  simpl in H. rewrite ensured_lookup in H. fold s1 km in H. fold argTypes in H.
  destruct (if is_nullish argTypes then None else defaultValues [] (own_entries argTypes)).
  - rewrite H. simpl. split; [intros _; split; [reflexivity | discriminate] | reflexivity].
  - destruct H as (e & H). rewrite H. simpl.
    split; [discriminate | intros [_ Hn]; congruence].
Qed.

Lemma handles_assign_replace k e old (l : list (string * StoreItem)) h :
  NoDup (handles l) -> lookup k l = Some old ->
  In h (handles (assign k e l)) -> h = hooks e \/ (In h (handles l) /\ h <> hooks old).
Proof.
  induction l as [|[k0 e0] l IH]; simpl; [discriminate|].
  intros Hnd Hl Hin. inversion Hnd as [|? ? Hn Hnd']; subst.
  destruct (String.eqb k k0); simpl in Hin.
  - injection Hl as ->. destruct Hin as [Hin|Hin]; [now left|].
    right. split; [now right|]. intros ->. contradiction.
  - destruct Hin as [Hin|Hin].
    + right. split; [now left|]. intros E. apply Hn. rewrite Hin, E.
      eapply lookup_handle; eassumption.
    + destruct (IH Hnd' Hl Hin) as [E|[H1 H2]]; [now left | right; split; [now right|assumption]].
Qed.

(** ** The collaborators of each operation *)

Lemma CallsOnly_refl cs w : CallsOnly cs w w.
Proof. exists []. split; [now rewrite app_nil_r | intros e []]. Qed.

Lemma CallsOnly_trans cs a b c : CallsOnly cs a b -> CallsOnly cs b c -> CallsOnly cs a c.
Proof.
  intros (d1 & E1 & H1) (d2 & E2 & H2). exists (d1 ++ d2). split.
  - now rewrite E2, E1, app_assoc.
  - intros e Hin. apply in_app_or in Hin. destruct Hin; auto.
Qed.

Lemma callsonly_modify cs g : Respects (CallsOnly cs) (modify g).
Proof. intros w. simpl. apply (CallsOnly_refl cs {| this := g (this w); closures := closures w;
                                                    effects := effects w |}). Qed.

Lemma callsonly_perform cs e :
  In (collaborator_of e) cs -> Respects (CallsOnly cs) (perform e).
Proof.
  intros H w. exists [e]. split; [reflexivity|]. intros e' [<-|[]]. exact H.
Qed.

Lemma callsonly_allocate cs t : Respects (CallsOnly cs) (allocate t).
Proof.
  intros w. exists []. split; [simpl; now rewrite app_nil_r | intros e []].
Qed.

Lemma callsonly_call_getDecorated cs cell :
  In Composer cs -> Respects (CallsOnly cs) (call_getDecorated cell).
Proof.
  intros H w. unfold call_getDecorated.
  destruct (nth_error (closures w) cell) as [t|]; [destruct (computed t)|];
    try apply CallsOnly_refl.
  eexists. split; [reflexivity|]. intros e' [<-|[]]. exact H.
Qed.

Lemma callsonly_readonly cs {A} (c : M A) : Respects eq c -> Respects (CallsOnly cs) c.
Proof. apply respects_eq_any. apply CallsOnly_refl. Qed.

Ltac callsonly_step :=
  first
    [ apply callsonly_readonly;
      first [ apply fromId_readonly | apply raw_readonly | apply extract_readonly
            | apply getStoriesForManager_readonly | apply getStoriesForKind_readonly
            | apply getAllParameters_readonly | apply getStorybook_readonly ]
    | apply callsonly_modify
    | apply callsonly_perform; simpl; tauto
    | apply callsonly_allocate
    | apply callsonly_call_getDecorated; simpl; tauto
    | match goal with
      | |- Respects (CallsOnly ?cs) _ =>
          respects_step (CallsOnly_refl cs) (CallsOnly_trans cs)
      end ].

Ltac callsonly_auto :=
  unfold step, perform_op, startConfiguring, finishConfiguring, pushToManager,
    addGlobalMetadata, clearGlobalDecorators, ensureKind, addKindMetadata,
    addParameterEnhancer, addStory, remove, removeStoryKind, updateGlobalArgs,
    updateStoryArgs, cleanHooks, cleanHooksForKind, setSelection, setError, clearError,
    incrementRevision, storyFn, getFullParameters, discard, update_kind, checkGlobalArgs,
    hooks_clean;
  cbv zeta; repeat callsonly_step.

Lemma op_collaborators inJest cmp o :
  Respects (CallsOnly (talks_to o)) (perform_op inJest cmp o).
Proof. destruct o; simpl talks_to; callsonly_auto. Qed.

(** ** Overwriting an entry *)

(** C10, as amended.  When addStory is called with an id that is already in
    the table and succeeds, the id now maps to the new entry, whose hooks
    handle is fresh; the call itself releases nothing; the handle of the
    replaced entry is no longer in the table and no later sequence of
    operations ever releases it: release happens only through remove,
    removeStoryKind, cleanHooks and cleanHooksForKind, and only for entries
    that are in the table when the operation starts. *)
Theorem overwrite_leaks_hooks :
  forall (inJest : bool) cmp (ch : bool) (before after : list Op)
         (a : AddStoryArgs) (ap : nat) (un : bool) (old : StoreItem),
    let w := run inJest cmp before (new_World ch) in
    let w1 := snd (addStory inJest a ap un w) in
    lookup (add_id a) (_stories (this w)) = Some old ->
    fst (addStory inJest a ap un w) = Return tt ->
    (exists e, lookup (add_id a) (_stories (this w1)) = Some e /\
               hooks e = List.length (closures w) /\
               hooks e <> hooks old /\
               ~ In (hooks e) (handles (_stories (this w))) /\
               keys (_stories (this w1)) = keys (_stories (this w))) /\
    ~ In (hooks old) (handles (_stories (this w1))) /\
    (forall h, releases h (effects w1) = releases h (effects w)) /\
    releases (hooks old) (effects (run inJest cmp after w1))
      = releases (hooks old) (effects w) /\
    (forall w0 o, exists d,
        effects (step inJest cmp w0 o) = effects w0 ++ d /\
        forall h, In (HooksClean h) d ->
          In h (handles (_stories (this w0))) /\
          match o with
          | Remove _ _ | RemoveStoryKind _ _ | CleanHooks _ | CleanHooksForKind _ => True
          | _ => False
          end).
Proof.
  intros inJest cmp ch before after a ap un old w w1 Hold Hret.
  pose proof (reachable_TableInv inJest cmp before ch) as Hi. fold w in Hi.
  pose proof (sum_table (Summary_addStory inJest a ap un w) Hi) as Hi1. fold w1 in Hi1.
  destruct (addStory_registered inJest a ap un w Hret)
    as (logs & e & Hlogs & Hthis & Hcl & Hev & He1 & He2 & He3 & He4 & He5).
  fold w1 in Hthis, Hcl, Hev.
  assert (Hstories : _stories (this w1) = assign (add_id a) e (_stories (this w))).
  { rewrite Hthis. reflexivity. }
  assert (Hfresh : forall h, In h (handles (_stories (this w))) -> h < List.length (closures w)).
  { intros h Hin. unfold handles in Hin. apply in_map_iff in Hin.
    destruct Hin as ([k0 e0] & <- & Hin). apply (inv_cell Hi _ _ Hin). }
  pose proof (lookup_handle _ _ _ Hold) as Hold_in.
  assert (Hout : ~ In (hooks old) (handles (_stories (this w1)))).
  { rewrite Hstories. intros Hin.
    apply (handles_assign_replace _ _ old) in Hin;
      [|apply (inv_handles Hi)|assumption].
    destruct Hin as [E|[_ E]]; [|congruence].
    apply Hfresh in Hold_in. lia. }
  assert (Hrel : forall h, releases h (effects w1) = releases h (effects w)).
  { intros h. rewrite Hev, releases_app, (releases_none h logs); [lia|].
    now apply quiet_no_release. }
  split; [|split; [|split; [|split]]].
  - exists e. rewrite Hstories, lookup_assign_same. repeat split; auto.
    + apply Hfresh in Hold_in. lia.
    + intros Hin. apply Hfresh in Hin. lia.
    + apply keys_assign_present. congruence.
  - exact Hout.
  - exact Hrel.
  - rewrite run_keeps_orphan; auto.
    rewrite Hcl, length_app. apply Hfresh in Hold_in. simpl. lia.
  - intros w0 o.
    destruct (sum_releases (step_summary inJest cmp w0 o)) as (d & E & Hd).
    exists d. split; [exact E|]. intros h Hin. split; [now apply Hd|].
    destruct (op_collaborators inJest cmp o w0) as (d' & E' & Hd').
    fold (step inJest cmp w0 o) in E'. rewrite E in E'.
    apply app_inv_head in E'. subst d'.
    specialize (Hd' _ Hin). simpl in Hd'.
    destruct o; simpl in Hd'; try exact I; intuition discriminate.
Qed.

Lemma overwrite_leaks_hooks_witness :
  let first := Fixture.story_of "a--1" "a" "1" (VObj []) in
  let w := run false Fixture.no_sort [AddStory first 9 false] (new_World true) in
  let w1 := snd (addStory false first 9 false w) in
  option_map hooks (lookup "a--1" (_stories (this w))) = Some 0 /\
  option_map hooks (lookup "a--1" (_stories (this w1))) = Some 1 /\
  releases 0 (effects (run false Fixture.no_sort
                         [CleanHooks "a--1"; RemoveStoryKind "a" false] w1)) = 0.
Proof.
  intros first w w1. split; [reflexivity|]. split; [reflexivity|].
  destruct (overwrite_leaks_hooks false Fixture.no_sort true
              [AddStory first 9 false]
              [CleanHooks "a--1"; RemoveStoryKind "a" false]
              first 9 false
              {| id := "a--1"; kind := "a"; name := "1"; story := "1";
                 hooks := 0; getDecorated := Some 0; getOriginal := 0;
                 parameters := VObj []; args := VObj [] |}
              eq_refl eq_refl) as (_ & _ & _ & H & _).
  exact H.
Defined.

(** C10 as stated fails in its clause on where release happens: cleanHooks
    and cleanHooksForKind release the hooks of a story and leave the story
    in the table; neither remove nor removeStoryKind takes part. *)
Lemma cleanHooks_releases_a_story_it_keeps :
  let first := Fixture.story_of "a--1" "a" "1" (VObj []) in
  let w := run false Fixture.no_sort [AddStory first 9 false] (new_World true) in
  option_map hooks (lookup "a--1" (_stories (this w))) = Some 0 /\
  releases 0 (effects w) = 0 /\
  cleanHooks "a--1" w
  = (Return tt, {| this := this w; closures := closures w;
                   effects := effects w ++ [HooksClean 0] |}) /\
  cleanHooksForKind "a" w
  = (Return tt, {| this := this w; closures := closures w;
                   effects := effects w ++ [HooksClean 0] |}) /\
  releases 0 (effects (run false Fixture.no_sort
                         [CleanHooks "a--1"; CleanHooksForKind "a"] w)) = 2 /\
  option_map hooks
    (lookup "a--1" (_stories (this (run false Fixture.no_sort
                                      [CleanHooks "a--1"; CleanHooksForKind "a"] w))))
  = Some 0.
Proof.
  intros first w. repeat split; vm_compute; reflexivity.
Qed.

(** ** Decorators given to the composer *)

(** C9. A story registered with story decorators [S], under a kind whose
    decorators are [K] and with global decorators [G] at that moment, gets a
    closure that captured [S ++ K ++ G].  Registration calls the composer for
    it not at all; the first call of the stored render function calls it with
    exactly that sequence; whatever operations follow, the composer has been
    called for this entry at most once, and with that sequence. *)
Theorem decorators_story_kind_global_once :
  forall (inJest : bool) cmp (ch : bool) (before after : list Op)
         (a : AddStoryArgs) (ap : nat) (un : bool) (ctx : value),
    let w := run inJest cmp before (new_World ch) in
    let w1 := snd (addStory inJest a ap un w) in
    let cell := List.length (closures w) in
    let S := match add_decorators a with Some ds => ds | None => [] end in
    let K := match lookup (add_kind a) (_kinds (this w)) with
             | Some km => kind_decorators km
             | None => []
             end in
    let G := global_decorators (_globalMetadata (this w)) in
    fst (addStory inJest a ap un w) = Return tt ->
    (exists e, lookup (add_id a) (_stories (this w1)) = Some e /\
               getDecorated e = Some cell) /\
    (exists t, nth_error (closures w1) cell = Some t /\ decorators t = S ++ K ++ G) /\
    compositions cell (effects w1) = [] /\
    compositions cell (effects (step inJest cmp w1 (CallStoryFn (add_id a) ctx)))
      = [(ap, add_storyFn a, S ++ K ++ G)] /\
    (compositions cell (effects (run inJest cmp after w1)) = [] \/
     compositions cell (effects (run inJest cmp after w1))
       = [(ap, add_storyFn a, S ++ K ++ G)]).
Proof.
  intros inJest cmp ch before after a ap un ctx w w1 cell S K G Hret.
  pose proof (reachable_MemoInv inJest cmp before ch) as Hm. fold w in Hm.
  pose proof (sum_memo (Summary_addStory inJest a ap un w) Hm) as Hm1. fold w1 in Hm1.
  destruct (addStory_registered inJest a ap un w Hret)
    as (logs & e & Hlogs & Hthis & Hcl & Hev & He1 & He2 & He3 & He4 & He5).
  fold w1 in Hthis, Hcl, Hev. fold S K G in Hcl.
  assert (Hnth : nth_error (closures w1) cell
                 = Some {| applier := ap; finalStoryFn := add_storyFn a;
                           decorators := S ++ K ++ G; computed := false |}).
  { rewrite Hcl, nth_error_app2 by (unfold cell; lia).
    unfold cell. now rewrite Nat.sub_diag. }
  assert (Hlook : lookup (add_id a) (_stories (this w1)) = Some e).
  { rewrite Hthis. simpl. apply lookup_assign_same. }
  assert (Hlazy : compositions cell (effects w1) = []).
  { rewrite (Hm1 cell), Hnth. reflexivity. }
  split; [|split; [|split; [|split]]].
  - exists e. auto.
  - eexists. split; [exact Hnth | reflexivity].
  - exact Hlazy.
  - unfold step. simpl. unfold bind at 1. rewrite fromId_eq, Hlook, He4.
    rewrite snd_discard, snd_storyFn. simpl. rewrite He4.
    unfold call_getDecorated. fold cell. rewrite Hnth. simpl.
    rewrite compositions_app, Hlazy. simpl. now rewrite Nat.eqb_refl.
  - pose proof (run_MemoInv inJest cmp after w1 Hm1) as Hm2.
    destruct (run_closures_ext inJest cmp after w1 _ _ Hnth) as (t' & Ht' & E1 & E2 & E3).
    rewrite (Hm2 cell), Ht'. simpl in E1, E2, E3.
    destruct (computed t'); [right | left]; congruence.
Qed.

Lemma decorators_story_kind_global_once_witness :
  let ops := [AddGlobalMetadata {| md_parameters := VUndefined; md_decorators := Some [3] |};
              AddKindMetadata "k" {| md_parameters := VUndefined; md_decorators := Some [2] |}] in
  let a := Fixture.decorated_story "k--1" "k" "1" [1] in
  let w1 := run false Fixture.no_sort (ops ++ [AddStory a 9 false]) (new_World true) in
  compositions 0 (effects (run false Fixture.no_sort
                             [CallStoryFn "k--1" (VObj []); CallStoryFn "k--1" (VObj [])] w1))
  = [(9, 0, [1; 2; 3])].
Proof.
  intros ops a w1.
  destruct (decorators_story_kind_global_once false Fixture.no_sort true ops
              [CallStoryFn "k--1" (VObj []); CallStoryFn "k--1" (VObj [])]
              a 9 false (VObj []) eq_refl) as (_ & _ & _ & _ & [H|H]).
  - vm_compute in H. discriminate.
  - exact H.
Defined.

(** ** Order of occurrence in lists *)

Section Precedes.
Context {A : Type}.
Implicit Types (x y : A) (l : list A).

Lemma precedes_In x y l : precedes x y l -> In x l /\ In y l.
Proof.
  induction l as [|a l IH]; simpl; [tauto|].
  intros [[-> H]|H]; [tauto|]. apply IH in H. tauto.
Qed.

Lemma precedes_app x y l1 l2 :
  precedes x y (l1 ++ l2) <->
  precedes x y l1 \/ (In x l1 /\ In y l2) \/ precedes x y l2.
Proof.
  induction l1 as [|a l1 IH]; simpl.
  - tauto.
  - rewrite IH, in_app_iff. split.
    + intros [[-> [H|H]]|[H|[[H1 H2]|H]]]; tauto.
    + intros [[[-> H]|H]|[[[->|H1] H2]|H]]; tauto.
Qed.

Lemma precedes_total x y l :
  In x l -> In y l -> x <> y -> precedes x y l \/ precedes y x l.
Proof.
  induction l as [|a l IH]; simpl; [tauto|].
  intros [->|Hx] [->|Hy] Hne; try tauto;
    try (destruct (IH Hx Hy Hne); tauto).
Qed.

Lemma precedes_filter (p : A -> bool) x y l :
  precedes x y l -> p x = true -> p y = true -> precedes x y (filter p l).
Proof.
  intros H Hx Hy. induction l as [|a l IH]; simpl in *; [tauto|].
  destruct H as [[-> H]|H].
  - rewrite Hx. simpl. left. split; [reflexivity|]. apply filter_In. tauto.
  - destruct (p a); simpl; auto.
Qed.

Lemma precedes_map {B} (f : A -> B) x y l :
  precedes x y l -> precedes (f x) (f y) (map f l).
Proof.
  induction l as [|a l IH]; simpl; [tauto|].
  intros [[-> H]|H]; [left; split; [reflexivity | now apply in_map] | auto].
Qed.

End Precedes.

Lemma precedes_keys {A} (l : list (string * A)) x y ex ey :
  NoDup (keys l) -> precedes x y (keys l) ->
  lookup x l = Some ex -> lookup y l = Some ey ->
  precedes (x, ex) (y, ey) l.
Proof.
  induction l as [|[k a] l IH]; simpl; [tauto|].
  intros Hnd Hp Hx Hy. inversion Hnd as [|? ? Hn Hnd']; subst.
  destruct Hp as [[-> Hin]|Hp].
  - rewrite String.eqb_refl in Hx. injection Hx as ->.
    left. split; [reflexivity|].
    destruct (String.eqb y x) eqn:E.
    + apply String.eqb_eq in E. subst. contradiction.
    + now apply lookup_In.
  - right. destruct (precedes_In _ _ _ Hp) as [Hxin Hyin].
    destruct (String.eqb x k) eqn:Ex; [apply String.eqb_eq in Ex; subst; contradiction|].
    destruct (String.eqb y k) eqn:Ey; [apply String.eqb_eq in Ey; subst; contradiction|].
    auto.
Qed.

(** ** The stable sort *)

Section StableSort.
Context {A : Type}.
Variable key : A -> nat.
Variable comp : A -> A -> option Z.

Lemma stable_insert_spec x l :
  (forall y, In y l -> comp x y = Some (Z.of_nat (key x) - Z.of_nat (key y))%Z) ->
  exists l1 l2,
    stable_insert comp x l = Some (l1 ++ x :: l2) /\ l = l1 ++ l2 /\
    (forall z, In z l1 -> key z < key x) /\
    match l2 with [] => True | z :: _ => key x <= key z end.
Proof.
  induction l as [|y l IH]; simpl; intros Hc.
  - exists [], []. simpl. repeat split; auto. intros z [].
  - rewrite (Hc y (or_introl eq_refl)).
    destruct (Z.leb_spec (Z.of_nat (key x) - Z.of_nat (key y)) 0) as [Hle|Hgt].
    + exists [], (y :: l). simpl. repeat split; auto; [tauto | lia].
    + destruct IH as (l1 & l2 & E & El & H1 & H2); [auto|].
      exists (y :: l1), l2. rewrite E. simpl. repeat split; auto.
      * now rewrite El.
      * intros z [<-|Hz]; [lia | auto].
Qed.

Lemma stable_sort_spec l :
  (forall x y, In x l -> In y l ->
               comp x y = Some (Z.of_nat (key x) - Z.of_nat (key y))%Z) ->
  exists s,
    stable_sort comp l = Some s /\ Permutation.Permutation l s /\
    (forall a b, precedes a b s -> key a <= key b) /\
    (forall a b, precedes a b l -> key a <= key b -> precedes a b s).
Proof.
  induction l as [|x l IH]; intros Hc.
  - exists []. simpl. repeat split; auto; tauto.
  - destruct IH as (s' & Es & Hperm & Hsorted & Hstable).
    { intros a b Ha Hb. apply Hc; now right. }
    destruct (stable_insert_spec x s') as (l1 & l2 & Ei & El & H1 & H2).
    { intros y Hy. apply Hc; [now left|]. right.
      eapply Permutation.Permutation_in; [apply Permutation.Permutation_sym|]; eassumption. }
    exists (l1 ++ x :: l2). simpl. rewrite Es, Ei. subst s'.
    split; [reflexivity|]. split; [now apply Permutation.Permutation_cons_app|]. split.
    + intros a b Hp. apply precedes_app in Hp.
      destruct Hp as [Hp|[[Ha [<-|Hb]]|[[<- Hb]|Hp]]].
      * apply Hsorted, precedes_app. tauto.
      * apply H1 in Ha. lia.
      * apply Hsorted, precedes_app. tauto.
      * destruct l2 as [|z l2]; [destruct Hb|].
        destruct Hb as [<-|Hb]; [assumption|].
        transitivity (key z); [assumption|].
        apply Hsorted, precedes_app. right. right. simpl. tauto.
      * apply Hsorted, precedes_app. tauto.
    + intros a b Hp Hk. simpl in Hp. apply precedes_app.
      destruct Hp as [[<- Hb]|Hp].
      * right. right. simpl. left. split; [reflexivity|].
        assert (Hb' : In b (l1 ++ l2))
          by (eapply Permutation.Permutation_in; eassumption).
        apply in_app_or in Hb'. destruct Hb' as [Hb'|Hb']; [|assumption].
        apply H1 in Hb'. lia.
      * specialize (Hstable a b Hp Hk). apply precedes_app in Hstable.
        simpl. destruct Hstable as [H|[[Ha Hb]|H]]; tauto.
Qed.

End StableSort.

Lemma stable_sort_total_perm {A} (comp : A -> A -> Z) (l : list A) :
  exists s, stable_sort (fun a b => Some (comp a b)) l = Some s /\
            Permutation.Permutation l s.
Proof.
  induction l as [|x l (s' & Es & Hperm)]; simpl.
  - exists []. auto.
  - rewrite Es.
    assert (Hins : forall m, exists l1 l2,
               stable_insert (fun a b => Some (comp a b)) x m = Some (l1 ++ x :: l2)
               /\ m = l1 ++ l2).
    { induction m as [|y m (l1 & l2 & E1 & E2)]; simpl.
      - exists [], []. auto.
      - destruct (comp x y <=? 0)%Z.
        + exists [], (y :: m). auto.
        + exists (y :: l1), l2. rewrite E1, E2. auto. }
    destruct (Hins s') as (l1 & l2 & E1 & E2). rewrite E1.
    eexists. split; [reflexivity|]. subst s'.
    now apply Permutation.Permutation_cons_app.
Qed.

(** ** Extraction *)


Lemma kindOrderComparator_rank w x y :
  TableInv w -> In x (_stories (this w)) -> In y (_stories (this w)) ->
  kindOrderComparator (this w) x y
  = Some (Z.of_nat (kind_rank (this w) (snd x)) - Z.of_nat (kind_rank (this w) (snd y)))%Z.
Proof.
  intros Hi Hx Hy. destruct x as [kx ex], y as [ky ey].
  pose proof (inv_kind Hi _ _ Hx) as Kx. pose proof (inv_kind Hi _ _ Hy) as Ky.
  unfold kindOrderComparator, kind_rank. simpl.
  destruct (lookup (kind ex) (_kinds (this w))); [|congruence].
  destruct (lookup (kind ey) (_kinds (this w))); [|congruence].
  reflexivity.
Qed.

Lemma extract_eq cmp options w :
  TableInv w ->
  exists sorted,
    Permutation (_stories (this w)) sorted /\
    extract cmp options w =
      (Return (map (fun kv => (fst kv, toExtracted (snd kv)))
                   (filter (fun kv => includeStory (parameters (snd kv)) options) sorted)),
       w) /\
    (storySortParameter (_stories (this w)) = None ->
     (forall a b, precedes a b sorted ->
                  kind_rank (this w) (snd a) <= kind_rank (this w) (snd b)) /\
     (forall a b, precedes a b (_stories (this w)) ->
                  kind_rank (this w) (snd a) <= kind_rank (this w) (snd b) ->
                  precedes a b sorted)).
Proof.
  intros Hi.
  assert (Hfold : forall sorted, Permutation (_stories (this w)) sorted ->
            fold_left (fun a kv => if includeStory (parameters (snd kv)) options
                                   then assign (fst kv) (toExtracted (snd kv)) a else a)
                      sorted []
            = map (fun kv => (fst kv, toExtracted (snd kv)))
                  (filter (fun kv => includeStory (parameters (snd kv)) options) sorted)).
  { intros sorted Hp.
    rewrite (fold_assign_filter (fun kv => includeStory (parameters (snd kv)) options)
               toExtracted sorted []); [reflexivity|].
    simpl. eapply Permutation_NoDup; [|apply (inv_ids Hi)].
    unfold keys. now apply Permutation_map. }
  destruct (stable_sort_spec (fun kv => kind_rank (this w) (snd kv))
              (kindOrderComparator (this w)) (_stories (this w)))
    as (sd & Esd & Hpd & Hsorted & Hstable).
  { intros x y Hx Hy. now apply kindOrderComparator_rank. }
  unfold extract. rewrite bind_get_this. unfold bind, ret, throw.
  destruct (0 <? List.length (values (_stories (this w))))%nat eqn:Hlen.
  - destruct (storySortParameter (_stories (this w))) as [p|].
    + destruct (stable_sort_total_perm (cmp p) (_stories (this w))) as (s & Es & Hp).
      rewrite Es. exists s. split; [assumption|]. split; [|discriminate].
      now rewrite Hfold.
    + rewrite Esd. exists sd. split; [assumption|]. split; [|auto].
      now rewrite Hfold.
  - exists (_stories (this w)). split; [apply Permutation_refl|]. split.
    + now rewrite Hfold by apply Permutation_refl.
    + intros _. destruct (_stories (this w)); [|discriminate].
      split; intros a b [].
Qed.

Lemma lookup_map_values {A B} (g : A -> B) k (l : list (string * A)) :
  lookup k (map (fun kv => (fst kv, g (snd kv))) l) = option_map g (lookup k l).
Proof.
  induction l as [|[k0 a0] l IH]; simpl; [reflexivity|].
  destruct (String.eqb k k0); auto.
Qed.

Lemma lookup_permutation {A} k (l l' : list (string * A)) :
  NoDup (keys l) -> Permutation l l' -> lookup k l' = lookup k l.
Proof.
  intros Hnd Hp.
  assert (Hnd' : NoDup (keys l')).
  { eapply Permutation_NoDup; [|exact Hnd]. unfold keys. now apply Permutation_map. }
  destruct (lookup k l) as [a|] eqn:E.
  - apply In_lookup; [assumption|]. eapply Permutation_in; [eassumption|].
    now apply lookup_In.
  - destruct (lookup k l') as [a'|] eqn:E'; [|reflexivity].
    apply lookup_In in E'. apply Permutation_sym in Hp.
    pose proof (Permutation_in _ Hp E') as Hin.
    apply (In_lookup _ _ _ Hnd) in Hin. congruence.
Qed.





(** ** Listings and docs-only stories *)

Lemma mapM_pure_on {A B} (f : A -> M B) (g : A -> B) (l : list A) w :
  (forall x, In x l -> f x w = (Return (g x), w)) ->
  mapM f l w = (Return (map g l), w).
Proof.
  induction l as [|x l IH]; intros H; simpl; [reflexivity|].
  unfold bind. rewrite (H x (or_introl eq_refl)).
  rewrite IH by (intros y Hy; apply H; now right). reflexivity.
Qed.

Lemma filter_all {A} (p : A -> bool) (l : list A) :
  (forall x, In x l -> p x = true) -> filter p l = l.
Proof.
  induction l as [|x l IH]; simpl; intros H; [reflexivity|].
  rewrite (H x (or_introl eq_refl)), IH; auto.
Qed.

Lemma In_values {A} (a : A) (l : list (string * A)) :
  In a (values l) <-> exists k, In (k, a) l.
Proof.
  unfold values. rewrite in_map_iff. split.
  - intros ([k a'] & <- & H). eauto.
  - intros (k & H). exists (k, a). auto.
Qed.

Lemma NoDup_map_inj {A B} (f : A -> B) (l : list A) x y :
  NoDup (map f l) -> In x l -> In y l -> f x = f y -> x = y.
Proof.
  induction l as [|a l IH]; simpl; [tauto|].
  intros Hnd Hx Hy E. inversion Hnd as [|? ? Hn Hnd']; subst.
  destruct Hx as [->|Hx], Hy as [->|Hy]; auto.
  - exfalso. apply Hn. rewrite E. now apply in_map.
  - exfalso. apply Hn. rewrite <- E. now apply in_map.
Qed.

Lemma raw_eq options w :
  TableInv w ->
  raw options w =
  (Return (map (fun i => Some {| item := i; globalArgs := _globalArgs (this w) |})
               (filter (fun i => includeStory (parameters i) options)
                       (values (_stories (this w))))), w).
Proof.
  intros Hi. unfold raw. rewrite bind_get_this.
  rewrite (filter_all (fun i => match getDecorated i with Some _ => true | None => false end)).
  2:{ intros i Hin. apply In_values in Hin. destruct Hin as (k & Hin).
      destruct (inv_cell Hi _ _ Hin) as [-> _]. reflexivity. }
  apply mapM_pure_on. intros i Hin. apply filter_In in Hin. destruct Hin as [Hin _].
  apply In_values in Hin. destruct Hin as (k & Hin).
  rewrite fromId_eq. rewrite (inv_key Hi _ _ Hin).
  rewrite (In_lookup _ _ _ (inv_ids Hi) Hin).
  destruct (inv_cell Hi _ _ Hin) as [-> _]. reflexivity.
Qed.

Lemma getStoriesForManager_eq cmp w :
  TableInv w ->
  exists l, getStoriesForManager cmp w = (Return l, w) /\
            forall sid, lookup sid l = option_map toExtracted (lookup sid (_stories (this w))).
Proof.
  intros Hi. unfold getStoriesForManager.
  destruct (extract_eq cmp (Some {| includeDocsOnly := Some true |}) w Hi)
    as (sorted & Hperm & E & _).
  eexists. split; [exact E|]. intros sid.
  rewrite filter_all by reflexivity.
  rewrite lookup_map_values. f_equal.
  apply lookup_permutation; [apply (inv_ids Hi) | assumption].
Qed.

#[local] Arguments includeStory _ _ : simpl never.

Lemma bind_modify {A} (f : StoryStore -> StoryStore) (k : unit -> M A) w :
  bind (modify f) k w
  = k tt {| this := f (this w); closures := closures w; effects := effects w |}.
Proof. reflexivity. Qed.

Lemma bind_return {A B} (c : M A) (k : A -> M B) w a w' :
  c w = (Return a, w') -> bind c k w = k a w'.
Proof. intros H. unfold bind. now rewrite H. Qed.

Lemma bind_throw {A B} (c : M A) (k : A -> M B) w e w' :
  c w = (Throw e, w') -> bind c k w = (Throw e, w').
Proof. intros H. unfold bind. now rewrite H. Qed.

Lemma reducer_throw (sts : list (option PublishedStoreItem)) acc e w :
  acc w = (Throw e, w) -> fold_left getStorybook_reducer sts acc w = (Throw e, w).
Proof.
  revert acc. induction sts as [|st sts IH]; intros acc H; simpl; [assumption|].
  apply IH. unfold getStorybook_reducer, bind. now rewrite H.
Qed.

Lemma reducer_fold (all items : list StoreItem) g0 acc ks w :
  acc w = (Return ks, w) -> listed_from all ks -> incl items all ->
  (exists ks',
      fold_left getStorybook_reducer
                (map (fun i => Some {| item := i; globalArgs := g0 |}) items) acc w
      = (Return ks', w) /\ listed_from all ks') \/
  (exists err i,
      fold_left getStorybook_reducer
                (map (fun i => Some {| item := i; globalArgs := g0 |}) items) acc w
      = (Throw err, w) /\
      In i items /\ includeStory (parameters i) None = true /\
      is_nullish (parameters i) = true).
Proof.
  revert acc ks. induction items as [|i items IH]; intros acc ks Hacc HJ Hincl; simpl.
  - left. eauto.
  - assert (Hi : In i all) by (apply Hincl; now left).
    assert (Hincl' : incl items all) by (intros x Hx; apply Hincl; now right).
    set (acc' := getStorybook_reducer acc (Some {| item := i; globalArgs := g0 |})).
    destruct (includeStory (parameters i) None) eqn:Hinc.
    + destruct (is_nullish (parameters i)) eqn:Hnull.
      * right. eexists _, i. split; [|split; [now left | auto]].
        apply reducer_throw. unfold acc', getStorybook_reducer, bind.
        rewrite Hacc. simpl. now rewrite Hinc, Hnull.
      * destruct (IH acc'
                    (assign (kind i)
                       {| gk_kind := gk_kind match lookup (kind i) ks with
                                             | Some g => g
                                             | None => {| gk_kind := kind i;
                                                          gk_fileName := get (parameters i) "fileName";
                                                          gk_stories := [] |}
                                             end;
                          gk_fileName := gk_fileName match lookup (kind i) ks with
                                                     | Some g => g
                                                     | None => {| gk_kind := kind i;
                                                                  gk_fileName := get (parameters i) "fileName";
                                                                  gk_stories := [] |}
                                                     end;
                          gk_stories := gk_stories match lookup (kind i) ks with
                                                   | Some g => g
                                                   | None => {| gk_kind := kind i;
                                                                gk_fileName := get (parameters i) "fileName";
                                                                gk_stories := [] |}
                                                   end ++ [(name i, hooks i)] |} ks))
          as [(ks' & E & HJ')|(err & j & E & Hj & Hj1 & Hj2)]; auto.
        -- unfold acc', getStorybook_reducer, bind. rewrite Hacc. simpl.
           now rewrite Hinc, Hnull.
        -- intros k g Hin. apply In_assign_weak in Hin.
           destruct Hin as [[= -> ->]|Hin]; [|eauto]. simpl.
           destruct (lookup (kind i) ks) as [g|] eqn:El.
           ++ apply lookup_In in El. destruct (HJ _ _ El) as [H1 H2].
              split; [assumption|]. intros n h Hnh. apply in_app_or in Hnh.
              destruct Hnh as [Hnh|[[= <- <-]|[]]]; eauto.
           ++ simpl. split; [eauto|]. intros n h [[= <- <-]|[]]. eauto.
        -- left. eauto.
        -- right. exists err, j. repeat split; auto using in_cons.
    + destruct (IH acc' ks) as [(ks' & E & HJ')|(err & j & E & Hj & Hj1 & Hj2)]; auto.
      * unfold acc', getStorybook_reducer, bind. rewrite Hacc. simpl.
        now rewrite Hinc.
      * left. eauto.
      * right. exists err, j. repeat split; auto using in_cons.
Qed.

Lemma getStorybook_cases w :
  TableInv w ->
  (exists gs, getStorybook w = (Return gs, w) /\
     forall g n h, In g gs -> In (n, h) (gk_stories g) ->
       exists i, In i (values (_stories (this w))) /\
                 includeStory (parameters i) None = true /\ h = hooks i) \/
  (exists err i, getStorybook w = (Throw err, w) /\
     In i (values (_stories (this w))) /\ is_nullish (parameters i) = true).
Proof.
  intros Hi. unfold getStorybook. rewrite (bind_return _ _ _ _ _ (raw_eq None w Hi)).
  destruct (reducer_fold (values (_stories (this w)))
              (filter (fun i => includeStory (parameters i) None) (values (_stories (this w))))
              (_globalArgs (this w)) (ret []) [] w eq_refl)
    as [(ks & E & HJ)|(err & i & E & Hin & H1 & H2)].
  - intros k g [].
  - intros x Hx. apply filter_In in Hx. tauto.
  - left. rewrite (bind_return _ _ _ _ _ E). rewrite bind_get_this.
    destruct (stable_sort_spec
                (fun g => match lookup (gk_kind g) (_kinds (this w)) with
                          | Some km => kind_order km
                          | None => 0
                          end)
                (fun s1 s2 =>
                   match lookup (gk_kind s1) (_kinds (this w)),
                         lookup (gk_kind s2) (_kinds (this w)) with
                   | Some k1, Some k2 =>
                       Some (Z.of_nat (kind_order k1) - Z.of_nat (kind_order k2))%Z
                   | _, _ => None
                   end) (values ks)) as (s & Es & Hperm & _).
    { assert (Hk : forall g, In g (values ks) ->
                     lookup (gk_kind g) (_kinds (this w)) <> None).
      { intros g Hg. apply In_values in Hg. destruct Hg as (k & Hg).
        destruct (HJ _ _ Hg) as [(i & Hin & ->) _].
        apply In_values in Hin. destruct Hin as (k' & Hin).
        apply (inv_kind Hi _ _ Hin). }
      intros x y Hx Hy. apply Hk in Hx. apply Hk in Hy.
      destruct (lookup (gk_kind x) (_kinds (this w))); [|congruence].
      destruct (lookup (gk_kind y) (_kinds (this w))); [|congruence].
      reflexivity. }
    rewrite Es. exists s. split; [reflexivity|].
    intros g n h Hg Hnh.
    apply Permutation_sym in Hperm. pose proof (Permutation_in _ Hperm Hg) as Hg'.
    apply In_values in Hg'. destruct Hg' as (k & Hg').
    destruct (HJ _ _ Hg') as [_ H2]. eauto.
  - right. exists err, i. rewrite (bind_throw _ _ _ _ _ E). split; [reflexivity|].
    apply filter_In in Hin. tauto.
Qed.

(** C6, as amended.  A registered story whose own stored parameters have a
    truthy [docsOnly] is left out of raw() and of getStorybook() and is part
    of getStoriesForManager(), which is extract({ includeDocsOnly: true }).
    getStorybook() returns whenever no entry has null parameters. *)
Theorem docsOnly_story_listing :
  forall (inJest : bool) cmp (ch : bool) (ops : list Op) (sid : string) (e : StoreItem),
    let w := run inJest cmp ops (new_World ch) in
    lookup sid (_stories (this w)) = Some e ->
    isStoryDocsOnly (parameters e) = true ->
    (exists l, raw None w = (Return l, w) /\
               forall p, In (Some p) l -> id (item p) <> sid) /\
    (forall gs w', getStorybook w = (Return gs, w') ->
                   forall g n, In g gs -> ~ In (n, hooks e) (gk_stories g)) /\
    ((forall i, In i (values (_stories (this w))) -> is_nullish (parameters i) = false) ->
     exists gs, getStorybook w = (Return gs, w)) /\
    getStoriesForManager cmp w = extract cmp (Some {| includeDocsOnly := Some true |}) w /\
    (exists l, getStoriesForManager cmp w = (Return l, w) /\
               lookup sid l = Some (toExtracted e)).
Proof.
  intros inJest cmp ch ops sid e w Hlook Hdocs.
  pose proof (reachable_TableInv inJest cmp ops ch) as Hi. fold w in Hi.
  assert (Hout : includeStory (parameters e) None = false).
  { unfold includeStory. now rewrite Hdocs. }
  pose proof (lookup_In _ _ _ Hlook) as Hin_e.
  assert (Hsame : forall i, In i (values (_stories (this w))) ->
                            includeStory (parameters i) None = true ->
                            hooks i <> hooks e).
  { intros i Hin Hinc E. apply In_values in Hin. destruct Hin as (k & Hin).
    assert (Heq : (k, i) = (sid, e)).
    { apply (NoDup_map_inj (fun kv : string * StoreItem => hooks (snd kv))
               (_stories (this w))); auto. apply (inv_handles Hi). }
    injection Heq as _ ->. congruence. }
  split; [|split; [|split; [|split]]].
  - rewrite (raw_eq None w Hi). eexists. split; [reflexivity|].
    intros p Hp Hid. apply in_map_iff in Hp. destruct Hp as (i & [= <-] & Hfi).
    apply filter_In in Hfi. destruct Hfi as [Hin Hinc]. simpl in Hid.
    apply In_values in Hin. destruct Hin as (k & Hin).
    rewrite (inv_key Hi _ _ Hin) in Hid. subst k.
    rewrite (In_lookup _ _ _ (inv_ids Hi) Hin) in Hlook. congruence.
  - intros gs w' Hret g n Hg Hnh.
    destruct (getStorybook_cases w Hi) as [(gs0 & E & H)|(err & i & E & _)];
      [|congruence].
    rewrite E in Hret. injection Hret as <- _.
    destruct (H g n (hooks e) Hg Hnh) as (i & Hin & Hinc & Hh).
    now apply (Hsame i Hin Hinc).
  - intros Hnn.
    destruct (getStorybook_cases w Hi) as [(gs0 & E & H)|(err & i & E & Hin & Hnull)];
      [eauto|].
    rewrite (Hnn i Hin) in Hnull. discriminate.
  - reflexivity.
  - destruct (getStoriesForManager_eq cmp w Hi) as (l & E & H).
    exists l. split; [assumption|]. now rewrite H, Hlook.
Qed.

Lemma docsOnly_story_listing_witness :
  let ops := [AddStory (Fixture.story_of "docs--page" "docs" "page"
                          (VObj [("docsOnly", VBool true)])) 9 false;
              AddStory (Fixture.story_of "docs--1" "docs" "1" (VObj [])) 9 false] in
  let w := run false Fixture.no_sort ops (new_World true) in
  exists l, raw None w = (Return l, w) /\
            forall p, In (Some p) l -> id (item p) <> "docs--page".
Proof.
  intros ops w.
  destruct (docsOnly_story_listing false Fixture.no_sort true ops "docs--page"
              {| id := "docs--page"; kind := "docs"; name := "page"; story := "page";
                 hooks := 0; getDecorated := Some 0; getOriginal := 0;
                 parameters := VObj [("docsOnly", VBool true)]; args := VObj [] |}
              eq_refl eq_refl) as (H & _).
  exact H.
Defined.

(** ** Argument defaulting in general *)

Lemma lookup_fold_assign {A} (l : list (string * A)) :
  NoDup (keys l) ->
  forall base k,
    lookup k (fold_left (fun acc kv => assign (fst kv) (snd kv) acc) l base)
    = match lookup k l with Some x => Some x | None => lookup k base end.
Proof.
  induction l as [|[k0 x0] l IH]; simpl; intros Hnd base k; [reflexivity|].
  inversion Hnd as [|? ? Hn Hnd']; subst. rewrite IH by assumption.
  destruct (String.eqb k k0) eqn:E.
  - apply String.eqb_eq in E. subst k0.
    apply lookup_None_keys in Hn. rewrite Hn. apply lookup_assign_same.
  - apply String.eqb_neq in E. now rewrite lookup_assign_other.
Qed.

Lemma lookup_spread base v k :
  NoDup (keys (own_entries v)) ->
  lookup k (spread base v)
  = match lookup k (own_entries v) with Some x => Some x | None => lookup k base end.
Proof. intros Hnd. unfold spread. now apply lookup_fold_assign. Qed.





(** ** Global-args reconciliation in general *)




(** ** Removing a kind in general *)

Lemma update_kind_eq k f w km :
  lookup k (_kinds (this w)) = Some km ->
  update_kind k f w
  = (Return tt, {| this := set_kinds (assign k (f km) (_kinds (this w))) (this w);
                   closures := closures w; effects := effects w |}).
Proof. intros H. unfold update_kind. rewrite bind_get_this, H. reflexivity. Qed.

Lemma getStoriesForKind_eq k w :
  TableInv w ->
  getStoriesForKind k w =
  (Return (map (fun i => {| item := i; globalArgs := _globalArgs (this w) |})
               (filter (fun i => String.eqb (kind i) k)
                       (filter (fun i => includeStory (parameters i) None)
                               (values (_stories (this w)))))), w).
Proof.
  intros Hi. unfold getStoriesForKind.
  rewrite (bind_return _ _ _ _ _ (raw_eq None w Hi)).
  induction (filter (fun i => includeStory (parameters i) None)
                    (values (_stories (this w)))) as [|i l IH]; simpl; [reflexivity|].
  rewrite (bind_return _ _ _ _ _ IH). unfold ret.
  destruct (String.eqb (kind i) k); reflexivity.
Qed.

Lemma cleanHooks_each (l : list StoreItem) g0 :
  forall w,
    (forall i, In i l -> lookup (id i) (_stories (this w)) = Some i) ->
    exists r,
      mapM (fun st => cleanHooks (id (item st)))
           (map (fun i => {| item := i; globalArgs := g0 |}) l) w
      = (Return r, {| this := this w; closures := closures w;
                      effects := effects w ++ map HooksClean (map hooks l) |}).
Proof.
  induction l as [|i l IH]; intros w Hl; simpl.
  - exists []. unfold ret. rewrite app_nil_r. now destruct w.
  - assert (Ec : cleanHooks (id i) w
                 = (Return tt, {| this := this w; closures := closures w;
                                  effects := effects w ++ [HooksClean (hooks i)] |})).
    { unfold cleanHooks. rewrite bind_get_this, (Hl i (or_introl eq_refl)). reflexivity. }
    rewrite (bind_return _ _ _ _ _ Ec).
    destruct (IH {| this := this w; closures := closures w;
                    effects := effects w ++ [HooksClean (hooks i)] |})
      as (r & Er).
    { intros j Hj. simpl. apply Hl. now right. }
    rewrite (bind_return _ _ _ _ _ Er). simpl. rewrite <- app_assoc.
    eexists. reflexivity.
Qed.

Lemma cleanHooksForKind_eq k w :
  TableInv w ->
  cleanHooksForKind k w
  = (Return tt,
     {| this := this w; closures := closures w;
        effects := effects w ++
                   map HooksClean
                       (map hooks
                            (filter (fun i => String.eqb (kind i) k)
                                    (filter (fun i => includeStory (parameters i) None)
                                            (values (_stories (this w)))))) |}).
Proof.
  intros Hi. unfold cleanHooksForKind.
  rewrite (bind_return _ _ _ _ _ (getStoriesForKind_eq k w Hi)).
  destruct (cleanHooks_each
              (filter (fun i => String.eqb (kind i) k)
                      (filter (fun i => includeStory (parameters i) None)
                              (values (_stories (this w)))))
              (_globalArgs (this w)) w) as (r & Er).
  { intros i Hin. apply filter_In in Hin. destruct Hin as [Hin _].
    apply filter_In in Hin. destruct Hin as [Hin _].
    apply In_values in Hin. destruct Hin as (k0 & Hin).
    rewrite (inv_key Hi _ _ Hin). apply In_lookup; [apply (inv_ids Hi) | assumption]. }
  rewrite (bind_return _ _ _ _ _ Er). reflexivity.
Qed.

(** What removeStoryKind does when it is permitted: an unknown kind changes
    nothing; for a known kind the parameters and decorators become empty, the
    declaration order stays, every story of the kind leaves the table, and
    the hooks of those members that raw() lists (the ones that are not
    docs-only) are released, once each, in table order. *)
Lemma removeStoryKind_permitted k un w :
  TableInv w ->
  negb (_configuring (this w)) && negb un = false ->
  match lookup k (_kinds (this w)) with
  | None => removeStoryKind k un w = (Return tt, w)
  | Some km =>
      exists w',
        removeStoryKind k un w = (Return tt, w') /\
        lookup k (_kinds (this w'))
          = Some {| kind_order := kind_order km; kind_parameters := VObj [];
                    kind_decorators := [] |} /\
        _stories (this w')
          = filter (fun kv => negb (String.eqb (kind (snd kv)) k)) (_stories (this w)) /\
        effects w'
          = effects w ++
            map HooksClean
                (map hooks
                     (filter (fun i => String.eqb (kind i) k)
                             (filter (fun i => includeStory (parameters i) None)
                                     (values (_stories (this w))))))
  end.
Proof.
  intros Hi Hguard. unfold removeStoryKind. rewrite bind_get_this, Hguard.
  destruct (lookup k (_kinds (this w))) as [km|] eqn:Ek; [|reflexivity].
  rewrite (bind_return _ _ _ _ _ (update_kind_eq k _ w km Ek)).
  set (w1 := {| this := set_kinds _ (this w) |}).
  assert (Ek1 : lookup k (_kinds (this w1)) = Some {| kind_order := kind_order km;
                                                      kind_parameters := VObj [];
                                                      kind_decorators := kind_decorators km |})
    by apply lookup_assign_same.
  rewrite (bind_return _ _ _ _ _ (update_kind_eq k _ w1 _ Ek1)).
  set (w2 := {| this := set_kinds _ (this w1) |}).
  assert (HC : Calm w w2).
  { apply Calm_trans with w1; apply Calm_of_Quiet.
    - pose proof (quiet_update_kind k
        (fun km => {| kind_order := kind_order km; kind_parameters := VObj [];
                      kind_decorators := kind_decorators km |})
        (fun _ => eq_refl) w) as H.
      now rewrite (update_kind_eq k _ w km Ek) in H.
    - pose proof (quiet_update_kind k
        (fun km => {| kind_order := kind_order km; kind_parameters := kind_parameters km;
                      kind_decorators := [] |})
        (fun _ => eq_refl) w1) as H.
      now rewrite (update_kind_eq k _ w1 _ Ek1) in H. }
  pose proof (sum_table (Summary_of_Calm w w2 HC) Hi) as Hi2.
  rewrite (bind_return _ _ _ _ _ (cleanHooksForKind_eq k w2 Hi2)).
  unfold modify. eexists. split; [reflexivity|]. simpl.
  split; [apply lookup_assign_same|]. split; [|reflexivity].
  apply without_kind_filter. apply (inv_ids Hi).
Qed.

(** * Further properties of the store *)

(** ** Members of the store an operation leaves alone *)

Lemma Keeps_refl {X} (f : StoryStore -> X) w : Keeps f w w.
Proof. reflexivity. Qed.

Lemma Keeps_trans {X} (f : StoryStore -> X) a b c :
  Keeps f a b -> Keeps f b c -> Keeps f a c.
Proof. unfold Keeps. congruence. Qed.

Lemma keeps_modify {X} (f : StoryStore -> X) g :
  (forall s, f (g s) = f s) -> Respects (Keeps f) (modify g).
Proof. intros H w. apply H. Qed.

Lemma keeps_perform {X} (f : StoryStore -> X) e : Respects (Keeps f) (perform e).
Proof. intros w. reflexivity. Qed.

Lemma keeps_allocate {X} (f : StoryStore -> X) t : Respects (Keeps f) (allocate t).
Proof. intros w. reflexivity. Qed.

Lemma keeps_call_getDecorated {X} (f : StoryStore -> X) cell :
  Respects (Keeps f) (call_getDecorated cell).
Proof.
  intros w. unfold call_getDecorated, Keeps.
  destruct (nth_error (closures w) cell) as [t|]; [destruct (computed t)|]; reflexivity.
Qed.

Lemma keeps_readonly {X} (f : StoryStore -> X) {A} (c : M A) :
  Respects eq c -> Respects (Keeps f) c.
Proof. apply respects_eq_any. intros w. reflexivity. Qed.

Ltac keeps_step :=
  first
    [ apply keeps_readonly;
      first [ apply fromId_readonly | apply raw_readonly | apply extract_readonly
            | apply getStoriesForManager_readonly | apply getStoriesForKind_readonly
            | apply getAllParameters_readonly | apply getStorybook_readonly ]
    | apply keeps_modify; intros ?; unfold ensured;
      repeat match goal with |- context [match ?x with _ => _ end] => destruct x end;
      reflexivity
    | apply keeps_perform
    | apply keeps_allocate
    | apply keeps_call_getDecorated
    | match goal with
      | |- Respects (Keeps ?f) _ => respects_step (Keeps_refl f) (Keeps_trans f)
      end ].

Ltac keeps_auto :=
  unfold step, perform_op, startConfiguring, finishConfiguring, pushToManager,
    addGlobalMetadata, clearGlobalDecorators, ensureKind, addKindMetadata,
    addParameterEnhancer, addStory, remove, removeStoryKind, updateGlobalArgs,
    updateStoryArgs, cleanHooks, cleanHooksForKind, setSelection, setError, clearError,
    incrementRevision, storyFn, getFullParameters, discard, update_kind, checkGlobalArgs,
    hooks_clean;
  cbv zeta; repeat keeps_step.

Lemma keeps_op {X} (f : StoryStore -> X) inJest cmp o :
  Respects (Keeps f) (perform_op inJest cmp o) ->
  forall w, f (this (step inJest cmp w o)) = f (this w).
Proof. intros H w. apply H. Qed.

Lemma step_same_field :
  forall inJest cmp (w : World) (o : Op) (f : Field),
    ~ In f (writes o) -> same_field f (this w) (this (step inJest cmp w o)).
Proof.
  intros inJest cmp w o f Hn.
  destruct o; destruct f; simpl in Hn; try (exfalso; tauto); clear Hn;
    unfold same_field; apply keeps_op; keeps_auto.
Qed.

Lemma same_field_trans f s1 s2 s3 :
  same_field f s1 s2 -> same_field f s2 s3 -> same_field f s1 s3.
Proof. destruct f; simpl; congruence. Qed.

(** X2. Every operation leaves alone the members of the store it does not
    assign to: the story table is changed only by addStory, remove,
    removeStoryKind and updateStoryArgs, the kinds only by ensureKind,
    addKindMetadata, addStory and removeStoryKind, the global args only by
    updateGlobalArgs and finishConfiguring, and so on for each member; the
    channel is never replaced.  So over any sequence of operations none of
    which assigns to a member, the member is as before, also when
    operations throw. *)
Theorem operations_write_only_their_members :
  forall inJest cmp (ops : list Op) (w : World) (f : Field),
    (forall o, In o ops -> ~ In f (writes o)) ->
    same_field f (this w) (this (run inJest cmp ops w)).
Proof.
  intros inJest cmp ops. induction ops as [|o ops IH]; simpl; intros w f H.
  - destruct f; reflexivity.
  - apply (same_field_trans f _ (this (step inJest cmp w o))).
    + apply step_same_field. apply H. now left.
    + apply IH. intros o' Hin. apply H. now right.
Qed.

Lemma operations_write_only_their_members_witness :
  let ops := [IncrementRevision; SetError "boom";
              UpdateGlobalArgs (VObj [("theme", VStr "dark")])] in
  (forall o, In o ops -> ~ In FStories (writes o)) /\
  same_field FStories (this (Sample.store true))
             (this (run false Fixture.no_sort ops (Sample.store true))).
Proof.
  intros ops.
  assert (H : forall o, In o ops -> ~ In FStories (writes o)).
  { intros o [<-|[<-|[<-|[]]]]; simpl; intuition discriminate. }
  split; [exact H|].
  apply (operations_write_only_their_members false Fixture.no_sort ops (Sample.store true)
           FStories H).
Defined.

(** ** Stored args are plain objects *)

Lemma NoDup_keys_spread base v : NoDup (keys base) -> NoDup (keys (spread base v)).
Proof.
  unfold spread. revert base. induction (own_entries v) as [|[k x] l IH]; simpl; auto.
  intros base H. apply IH. now apply NoDup_keys_assign.
Qed.

Lemma NoDup_keys_reconcile (prev : props) :
  forall base, NoDup (keys base) ->
    NoDup (keys (fold_left (fun acc kv => if truthy (get (VObj acc) (fst kv))
                                          then assign (fst kv) (snd kv) acc else acc)
                           prev base)).
Proof.
  induction prev as [|[k x] l IH]; simpl; auto.
  intros base H. apply IH. destruct (truthy _); auto. now apply NoDup_keys_assign.
Qed.

Lemma plain_spread base v : NoDup (keys base) -> plain (VObj (spread base v)).
Proof. intros H. eexists. split; [reflexivity|]. now apply NoDup_keys_spread. Qed.

Lemma step_ArgsStep inJest cmp w o : ArgsStep w (step inJest cmp w o).
Proof.
  assert (Hfp : forall f, ~ In f (writes o) ->
                          same_field f (this w) (this (step inJest cmp w o)))
    by (intros f; apply step_same_field).
  assert (Hkeep : ~ In FGlobalArgs (writes o) -> ~ In FStories (writes o) ->
                  ArgsStep w (step inJest cmp w o)).
  { intros H1 H2. pose proof (Hfp _ H1) as E1. pose proof (Hfp _ H2) as E2. simpl in E1, E2.
    split; [now rewrite E1 | rewrite E2; auto]. }
  destruct o; try (apply Hkeep; simpl; intuition discriminate); clear Hkeep.
  - (* FinishConfiguring *)
    split.
    2:{ intros k e. pose proof (Hfp FStories) as E. simpl in E. rewrite E; auto.
        simpl. intuition discriminate. }
    clear Hfp. revert w.
    change (Respects (fun w w' => plain (_globalArgs (this w)) -> plain (_globalArgs (this w')))
                     (finishConfiguring cmp)).
    set (R := fun w w' : World => plain (_globalArgs (this w)) -> plain (_globalArgs (this w'))).
    assert (Hrefl : forall w, R w w) by (intros w H; exact H).
    assert (Htrans : forall a b c, R a b -> R b c -> R a c) by (unfold R; auto).
    assert (Hk : forall A (c : M A), Respects (Keeps _globalArgs) c -> Respects R c).
    { intros A c Hc w Hp. specialize (Hc w). unfold Keeps in Hc. now rewrite Hc. }
    unfold finishConfiguring.
    apply (respects_bind _ Htrans); [apply Hk; keeps_auto|]. intros _.
    apply (respects_bind _ Htrans); [apply Hk; keeps_auto|]. intros _.
    apply (respects_bind _ Htrans); [apply Hk; keeps_auto|]. intros s.
    apply (respects_bind _ Htrans); [apply Hk; keeps_auto|]. intros _.
    destruct (keys (_stories s)); [apply (respects_ret _ Hrefl)|].
    apply (respects_bind _ Htrans); [apply Hk; keeps_auto|]. intros [p|];
      [|apply (respects_throw _ Hrefl)].
    cbv zeta. destruct (is_nullish _); [apply (respects_throw _ Hrefl)|].
    destruct (if truthy _ then _ else _); [|apply (respects_throw _ Hrefl)].
    intros w _. simpl. eexists. split; [reflexivity|].
    apply NoDup_keys_reconcile. do 2 apply NoDup_keys_spread. constructor.
  - (* AddStory *)
    split.
    { pose proof (Hfp FGlobalArgs) as E. simpl in E. rewrite E; auto. intuition discriminate. }
    clear Hfp. unfold step. simpl.
    destruct (negb (_configuring (this w)) && negb allowUnsafe) eqn:Hguard.
    { unfold addStory. rewrite bind_get_this, Hguard. simpl. auto. }
    destruct (addStory_world inJest a applyDecorators allowUnsafe w Hguard) as (logs & _ & H).
    simpl in H. rewrite ensured_lookup in H.
    match type of H with
    | match (if is_nullish ?x then None else ?y) with _ => _ end =>
        destruct (if is_nullish x then None else y)
    end.
    + rewrite H. simpl. intros k e Hin. apply In_assign_weak in Hin.
      destruct Hin as [E|Hin].
      * right. injection E as -> ->. simpl. apply plain_spread, NoDup_keys_spread. constructor.
      * left. now rewrite (proj1 (ensured_other_fields _ _)) in Hin.
    + destruct H as (e & H). rewrite H. simpl. intros k e0 Hin. left.
      now rewrite (proj1 (ensured_other_fields _ _)) in Hin.
  - (* Remove *)
    split.
    { pose proof (Hfp FGlobalArgs) as E. simpl in E. rewrite E; auto. intuition discriminate. }
    clear Hfp. unfold step. simpl. unfold remove. rewrite bind_get_this.
    destruct (negb (_configuring (this w)) && negb allowUnsafe); [simpl; auto|].
    rewrite bind_modify. intros k e Hin. left.
    assert (Hs : In (k, e) (delete sid (_stories (this w)))).
    { destruct (lookup sid (_stories (this w))); exact Hin. }
    rewrite delete_filter in Hs. apply filter_In in Hs. tauto.
  - (* RemoveStoryKind *)
    split.
    { pose proof (Hfp FGlobalArgs) as E. simpl in E. rewrite E; auto. intuition discriminate. }
    clear Hfp. unfold step. simpl. apply removeStoryKind_cases.
    + intros w2 (Hs & _). rewrite Hs. auto.
    + intros w2 (Hs & _). simpl. intros k0 e Hin. left.
      unfold without_kind in Hin. apply In_fold_assign in Hin.
      destruct Hin as [[]|Hin]. now rewrite Hs in Hin.
  - (* UpdateGlobalArgs *)
    split.
    2:{ intros k e. pose proof (Hfp FStories) as E. simpl in E. rewrite E; auto.
        intuition discriminate. }
    intros _. unfold step. simpl. unfold updateGlobalArgs. rewrite bind_modify, bind_get_this.
    simpl.
    destruct (_channel (this w)); simpl; apply plain_spread, NoDup_keys_spread; constructor.
  - (* UpdateStoryArgs *)
    split.
    { pose proof (Hfp FGlobalArgs) as E. simpl in E. rewrite E; auto. intuition discriminate. }
    clear Hfp. unfold step. simpl. unfold updateStoryArgs. rewrite bind_get_this.
    destruct (lookup sid (_stories (this w))) as [st|]; [|simpl; auto].
    rewrite bind_modify.
    assert (H : forall k e,
               In (k, e) (assign sid (set_item_args
                                        (VObj (spread (spread [] (args st)) v)) st)
                                 (_stories (this w))) ->
               In (k, e) (_stories (this w)) \/ plain (args e)).
    { intros k e Hin. apply In_assign_weak in Hin. destruct Hin as [E|Hin]; auto.
      right. injection E as -> ->. simpl. apply plain_spread, NoDup_keys_spread. constructor. }
    destruct (_channel (this w)); simpl; exact H.
Qed.

Lemma ArgsInv_new ch : ArgsInv (new_World ch).
Proof.
  split; simpl; [|intros k e []]. exists []. split; [reflexivity|constructor].
Qed.

Lemma run_ArgsInv inJest cmp ops w : ArgsInv w -> ArgsInv (run inJest cmp ops w).
Proof.
  revert w. induction ops as [|o ops IH]; simpl; intros w H; auto.
  apply IH. destruct H as [Hg Hs]. destruct (step_ArgsStep inJest cmp w o) as [G S].
  split; auto. intros k e Hin. apply S in Hin. destruct Hin; eauto.
Qed.

Lemma reachable_ArgsInv inJest cmp ops ch : ArgsInv (run inJest cmp ops (new_World ch)).
Proof. apply run_ArgsInv, ArgsInv_new. Qed.

Lemma run_channel inJest cmp ops w :
  _channel (this (run inJest cmp ops w)) = _channel (this w).
Proof.
  revert w. induction ops as [|o ops IH]; simpl; intros w; auto.
  rewrite IH. apply (step_same_field inJest cmp w o FChannel).
  destruct o; simpl; intuition discriminate.
Qed.

Lemma reachable_channel inJest cmp ops ch :
  _channel (this (run inJest cmp ops (new_World ch))) = ch.
Proof. apply run_channel. Qed.

(** ** Revision, error, selection and the configuring flag *)

(** X3. getRevision counts the incrementRevision calls: whatever operations
    are run on the store, the revision read afterwards is the revision before
    plus the number of incrementRevision calls among them; no other operation
    changes it, and reading it leaves the world as it is. *)
Theorem getRevision_counts_increments :
  forall inJest cmp (ops : list Op) (w : World),
    let w' := run inJest cmp ops w in
    getRevision w' = (Return (_revision (this w) + increments ops), w').
Proof.
  intros inJest cmp ops. unfold getRevision, bind, get_this, ret. simpl.
  induction ops as [|o ops IH]; simpl; intros w.
  - unfold increments. simpl. now rewrite Nat.add_0_r.
  - rewrite IH. do 2 f_equal.
    destruct (match o with IncrementRevision => true | _ => false end) eqn:E.
    + destruct o; try discriminate. unfold increments. simpl. lia.
    + assert (Hs : _revision (this (step inJest cmp w o)) = _revision (this w)).
      { apply (step_same_field inJest cmp w o FRevision).
        destruct o; simpl; try discriminate; intuition discriminate. }
      rewrite Hs. unfold increments. simpl. now rewrite E.
Qed.

(** X4. getError and getSelection return what the last setter left: the
    error is the argument of the most recent setError unless a clearError
    came after it, the selection is the argument of the most recent
    setSelection; no other operation touches either. *)
Theorem getError_getSelection_track_setters :
  forall inJest cmp (ops : list Op) (w : World),
    let w' := run inJest cmp ops w in
    getError w' = (Return (fold_left error_after ops (_error (this w))), w') /\
    getSelection w' = (Return (fold_left selection_after ops (_selection (this w))), w').
Proof.
  intros inJest cmp ops. unfold getError, getSelection, bind, get_this, ret. simpl.
  induction ops as [|o ops IH]; simpl; intros w; [split; reflexivity|].
  destruct (IH (step inJest cmp w o)) as [IHe IHs]. rewrite IHe, IHs.
  assert (He : _error (this (step inJest cmp w o)) = error_after (_error (this w)) o).
  { destruct o;
      try (refine (step_same_field inJest cmp w _ FError _); simpl; intuition discriminate).
    - unfold step. simpl. unfold setError, bind, modify, get_this, perform, ret.
      simpl. now destruct (_channel (this w)).
    - reflexivity. }
  assert (Hs : _selection (this (step inJest cmp w o)) = selection_after (_selection (this w)) o).
  { destruct o;
      try (refine (step_same_field inJest cmp w _ FSelection _); simpl; intuition discriminate).
    unfold step. simpl. unfold setSelection, bind, modify, get_this, perform, ret.
    simpl. destruct (_channel (this w)); simpl; [|reflexivity].
    now destruct (_configuring (this w)). }
  rewrite He, Hs. split; reflexivity.
Qed.

Lemma finishConfiguring_flag cmp w :
  _configuring (this (snd (finishConfiguring cmp w))) = false.
Proof.
  unfold finishConfiguring. rewrite bind_modify.
  match goal with
  | |- _configuring (this (snd (?c ?w1))) = false =>
      assert (H : Respects (Keeps _configuring) c); [|exact (H w1)]
  end.
  keeps_auto.
Qed.

Lemma step_configuring inJest cmp w o :
  _configuring (this (step inJest cmp w o)) = configuring_after (_configuring (this w)) o.
Proof.
  destruct o;
    try (refine (step_same_field inJest cmp w _ FConfiguring _); simpl; intuition discriminate).
  - reflexivity.
  - apply finishConfiguring_flag.
Qed.

(** X5. The configuring flag is set by startConfiguring and cleared by
    finishConfiguring (also when finishConfiguring throws after it has
    published), and by nothing else.  So once finishConfiguring has been
    called, and until startConfiguring is, addStory, remove and
    removeStoryKind without allowUnsafe are refused. *)
Theorem configuring_flag_tracks_start_finish :
  forall inJest cmp (ops : list Op) (w : World),
    _configuring (this (run inJest cmp ops w))
      = fold_left configuring_after ops (_configuring (this w)) /\
    ((forall o, In o ops -> o <> StartConfiguring) ->
     let w' := run inJest cmp (FinishConfiguring :: ops) w in
     _configuring (this w') = false /\
     (forall a ap, exists msg, addStory inJest a ap false w' = (Throw (Err msg), w')) /\
     (forall sid, exists msg, remove sid false w' = (Throw (Err msg), w')) /\
     (forall k, exists msg, removeStoryKind k false w' = (Throw (Err msg), w'))).
Proof.
  intros inJest cmp ops w.
  assert (Hrun : forall ops w, _configuring (this (run inJest cmp ops w))
                               = fold_left configuring_after ops (_configuring (this w))).
  { clear. induction ops as [|o ops IH]; simpl; intros w; auto.
    now rewrite IH, step_configuring. }
  split; [apply Hrun|]. intros Hno. cbv zeta.
  assert (Hc : _configuring (this (run inJest cmp (FinishConfiguring :: ops) w)) = false).
  { rewrite Hrun. simpl. clear Hrun. induction ops as [|o ops IH]; simpl; auto.
    assert (E : configuring_after false o = false).
    { destruct o; simpl; auto. exfalso. apply (Hno StartConfiguring); simpl; auto. }
    rewrite E. apply IH. intros o' Hin. apply Hno. now right. }
  split; [exact Hc|]. repeat split.
  - intros a ap. eexists. unfold addStory. rewrite bind_get_this, Hc. reflexivity.
  - intros sid. eexists. unfold remove. rewrite bind_get_this, Hc. reflexivity.
  - intros k. eexists. unfold removeStoryKind. rewrite bind_get_this, Hc. reflexivity.
Qed.

Lemma configuring_flag_tracks_start_finish_witness :
  let ops := [SetError "boom"; IncrementRevision; PushToManager] in
  let w' := run false Fixture.no_sort (FinishConfiguring :: ops) (Sample.store true) in
  (forall o, In o ops -> o <> StartConfiguring) /\
  _configuring (this w') = false /\
  exists msg, addStory false Sample.second 9 false w' = (Throw (Err msg), w').
Proof.
  intros ops w'.
  assert (H : forall o, In o ops -> o <> StartConfiguring).
  { intros o [<-|[<-|[<-|[]]]]; discriminate. }
  split; [exact H|].
  destruct (proj2 (configuring_flag_tracks_start_finish false Fixture.no_sort ops
                     (Sample.store true)) H) as (H1 & H2 & _).
  split; [exact H1 | exact (H2 Sample.second 9)].
Defined.

(** ** The end of the configuring phase *)

Lemma extract_congr cmp o w w1 :
  _stories (this w1) = _stories (this w) -> _kinds (this w1) = _kinds (this w) ->
  fst (extract cmp o w1) = fst (extract cmp o w).
Proof.
  intros Hs Hk. unfold extract. rewrite !bind_get_this. rewrite Hs.
  assert (Hc : kindOrderComparator (this w1) = kindOrderComparator (this w)).
  { unfold kindOrderComparator. now rewrite Hk. }
  rewrite Hc. unfold bind, ret, throw.
  destruct (0 <? List.length (values (_stories (this w))))%nat; [|reflexivity].
  destruct (storySortParameter (_stories (this w))).
  - destruct (stable_sort _ _); reflexivity.
  - destruct (stable_sort _ _); reflexivity.
Qed.

Lemma TableInv_same w w1 :
  _stories (this w1) = _stories (this w) -> _kinds (this w1) = _kinds (this w) ->
  closures w1 = closures w -> TableInv w -> TableInv w1.
Proof.
  intros Hs Hk Hc. apply TableInv_frame; auto.
  - rewrite Hc. lia.
  - rewrite Hk. apply kinds_persist_refl.
  - now rewrite Hk.
Qed.

Lemma pushToManager_eq cmp w :
  TableInv w ->
  exists l,
    getStoriesForManager cmp w = (Return l, w) /\
    (forall sid, lookup sid l = option_map toExtracted (lookup sid (_stories (this w)))) /\
    pushToManager cmp w
    = (Return tt, if _channel (this w) then logged w [Emit (SET_STORIES l)] else w).
Proof.
  intros Hi. destruct (getStoriesForManager_eq cmp w Hi) as (l & E & H).
  exists l. split; [exact E|]. split; [exact H|].
  unfold pushToManager. rewrite bind_get_this.
  destruct (_channel (this w)); [|reflexivity].
  rewrite (bind_return _ _ _ _ _ E). reflexivity.
Qed.

Lemma lookup_head {A} k (a : A) l : lookup k ((k, a) :: l) = Some a.
Proof. simpl. now rewrite String.eqb_refl. Qed.

Lemma finishConfiguring_eq cmp w :
  TableInv w ->
  exists l,
    getStoriesForManager cmp w = (Return l, w) /\
    (forall sid, lookup sid l = option_map toExtracted (lookup sid (_stories (this w)))) /\
    let w3 := {| this := set_configuring false (this w); closures := closures w;
                 effects := effects w ++
                            (if _channel (this w)
                             then [Emit (SET_STORIES l); Emit RENDER_CURRENT_STORY]
                             else []) |} in
    match _stories (this w) with
    | [] => finishConfiguring cmp w = (Return tt, w3)
    | (first, e) :: _ =>
        if is_nullish (parameters e)
        then exists msg, finishConfiguring cmp w = (Throw (TypeError msg), w3)
        else match reconciled (parameters e) (_globalArgs (this w)) with
             | None => exists msg, finishConfiguring cmp w = (Throw (TypeError msg), w3)
             | Some g =>
                 finishConfiguring cmp w
                 = (Return tt, {| this := set_globalArgs g (this w3);
                                  closures := closures w3; effects := effects w3 |})
             end
    end.
Proof.
  intros Hi.
  set (w1 := {| this := set_configuring false (this w); closures := closures w;
                effects := effects w |}).
  assert (Hi1 : TableInv w1) by (apply (TableInv_same w w1); auto).
  destruct (pushToManager_eq cmp w1 Hi1) as (l & El & Hl & Ep).
  exists l. split.
  { pose proof (extract_congr cmp (Some {| includeDocsOnly := Some true |}) w w1
                 eq_refl eq_refl) as Hf.
    unfold getStoriesForManager in *. rewrite El in Hf. simpl in Hf.
    pose proof (extract_readonly cmp (Some {| includeDocsOnly := Some true |}) w) as Hr.
    destruct (extract cmp _ w) as [r w']. simpl in *. now subst. }
  split; [exact Hl|]. cbv zeta.
  unfold finishConfiguring. rewrite bind_modify. fold w1.
  rewrite (bind_return _ _ _ _ _ Ep). rewrite bind_get_this.
  set (w2 := if _channel (this w1) then logged w1 [Emit (SET_STORIES l)] else w1).
  assert (Et : this w2 = set_configuring false (this w)).
  { unfold w2. destruct (_channel (this w1)); reflexivity. }
  assert (Ec : closures w2 = closures w).
  { unfold w2. destruct (_channel (this w1)); reflexivity. }
  rewrite Et. change (_channel (set_configuring false (this w))) with (_channel (this w)).
  change (_stories (set_configuring false (this w))) with (_stories (this w)).
  set (w3 := {| this := set_configuring false (this w); closures := closures w;
                effects := effects w ++
                           (if _channel (this w)
                            then [Emit (SET_STORIES l); Emit RENDER_CURRENT_STORY]
                            else []) |}).
  assert (E3 : (if _channel (this w) then perform (Emit RENDER_CURRENT_STORY) else ret tt) w2
               = (Return tt, w3)).
  { unfold w2, w3. change (_channel (this w1)) with (_channel (this w)).
    destruct (_channel (this w)).
    - unfold perform, logged. simpl. now rewrite <- app_assoc.
    - unfold ret, w1. now rewrite app_nil_r. }
  rewrite (bind_return _ _ _ _ _ E3).
  destruct (_stories (this w)) as [|[first e] rest] eqn:Es; simpl; [reflexivity|].
  assert (Ef : fromId first w3
               = (Return (Some {| item := e; globalArgs := _globalArgs (this w) |}), w3)).
  { rewrite fromId_eq. unfold w3 at 1 2. simpl. rewrite Es, lookup_head.
    destruct (inv_cell Hi first e) as [Hd _]; [rewrite Es; now left|]. now rewrite Hd. }
  rewrite (bind_return _ _ _ _ _ Ef). simpl.
  destruct (is_nullish (parameters e)); [eexists; reflexivity|].
  unfold reconciled.
  destruct (if truthy (get (parameters e) "globalArgTypes") then _ else _);
    [reflexivity | eexists; reflexivity].
Qed.

Lemma get_plain ps k :
  get (VObj ps) k = match lookup k ps with Some x => x | None => VUndefined end.
Proof. reflexivity. Qed.


Lemma finishConfiguring_outline cmp w :
  TableInv w ->
  let w' := snd (finishConfiguring cmp w) in
  exists l,
    getStoriesForManager cmp w = (Return l, w) /\
    effects w' = effects w ++
                 (if _channel (this w)
                  then [Emit (SET_STORIES l); Emit RENDER_CURRENT_STORY] else []) /\
    _configuring (this w') = false /\
    closures w' = closures w /\
    (_stories (this w) = [] ->
     finishConfiguring cmp w = (Return tt, w') /\
     _globalArgs (this w') = _globalArgs (this w)) /\
    (forall first e rest,
       _stories (this w) = (first, e) :: rest -> is_nullish (parameters e) = true ->
       exists msg, finishConfiguring cmp w = (Throw (TypeError msg), w') /\
                   _globalArgs (this w') = _globalArgs (this w)).
Proof.
  intros Hi w'.
  destruct (finishConfiguring_eq cmp w Hi) as (l & El & _ & H).
  exists l. split; [exact El|]. cbv zeta in H. unfold w'.
  destruct (_stories (this w)) as [|[first e] rest] eqn:Es.
  - rewrite H. simpl. repeat split; auto. intros ? ? ? [=].
  - destruct (is_nullish (parameters e)) eqn:En.
    + destruct H as (msg & H). rewrite H. simpl. repeat split; auto; try discriminate.
      intros first0 e0 rest0 [= -> -> ->] _. eexists. split; reflexivity.
    + destruct (reconciled (parameters e) (_globalArgs (this w))).
      * rewrite H. simpl. repeat split; auto; try discriminate.
        intros first0 e0 rest0 [= -> -> ->]. congruence.
      * destruct H as (msg & H). rewrite H. simpl. repeat split; auto; try discriminate.
        intros first0 e0 rest0 [= -> -> ->]. congruence.
Qed.

(** X6. finishConfiguring in any reachable store: it clears the configuring
    flag, then, if there is a channel, sends the snapshot of every story
    (the one getStoriesForManager returns) and after it one render request;
    without a channel it calls nobody.  This much also happens when the call
    goes on to throw, which it does when the first story of the table was
    registered with null parameters.  With an empty table it returns and
    the global args stay as they are. *)
Theorem finishConfiguring_publishes_then_requests_render :
  forall inJest cmp (ch : bool) (ops : list Op),
    let w := run inJest cmp ops (new_World ch) in
    let w' := snd (finishConfiguring cmp w) in
    exists l,
      getStoriesForManager cmp w = (Return l, w) /\
      effects w' = effects w ++
                   (if ch then [Emit (SET_STORIES l); Emit RENDER_CURRENT_STORY] else []) /\
      _configuring (this w') = false /\
      closures w' = closures w /\
      (_stories (this w) = [] ->
       finishConfiguring cmp w = (Return tt, w') /\
       _globalArgs (this w') = _globalArgs (this w)) /\
      (forall first e rest,
         _stories (this w) = (first, e) :: rest -> is_nullish (parameters e) = true ->
         exists msg, finishConfiguring cmp w = (Throw (TypeError msg), w') /\
                     _globalArgs (this w') = _globalArgs (this w)).
Proof.
  intros inJest cmp ch ops w w'.
  pose proof (finishConfiguring_outline cmp w (reachable_TableInv inJest cmp ops ch)) as H.
  cbv zeta in H. replace (_channel (this w)) with ch in H; [exact H|].
  symmetry. apply reachable_channel.
Qed.



(** ** Publishing and selecting *)

Lemma world_eta w : {| this := this w; closures := closures w; effects := effects w |} = w.
Proof. now destruct w. Qed.

Lemma logged_nil w : logged w [] = w.
Proof. unfold logged. rewrite app_nil_r. apply world_eta. Qed.




(** X8. pushToManager in any reachable store, whatever the configuring flag:
    with a channel it sends one snapshot, the one getStoriesForManager
    returns, which has an entry for every story of the table, docs-only
    ones included, and for nothing else; without a channel it does
    nothing.  It never throws and never changes the store. *)
Theorem pushToManager_publishes_every_story :
  forall inJest cmp (ch : bool) (ops : list Op),
    let w := run inJest cmp ops (new_World ch) in
    exists l,
      getStoriesForManager cmp w = (Return l, w) /\
      (forall sid, lookup sid l = None <-> lookup sid (_stories (this w)) = None) /\
      pushToManager cmp w = (Return tt, if ch then logged w [Emit (SET_STORIES l)] else w).
Proof.
  intros inJest cmp ch ops w.
  pose proof (reachable_TableInv inJest cmp ops ch) as Hi. fold w in Hi.
  pose proof (reachable_channel inJest cmp ops ch) as Hch. fold w in Hch.
  destruct (pushToManager_eq cmp w Hi) as (l & El & Hl & Ep).
  rewrite Hch in Ep. exists l. split; [exact El|]. split; [|exact Ep].
  intros sid. rewrite Hl. destruct (lookup sid (_stories (this w))); simpl; split;
    intros; congruence.
Qed.

Lemma setSelection_eq sel w :
  setSelection sel w
  = (Return tt,
     {| this := set_selection (Some sel) (this w); closures := closures w;
        effects := effects w ++
                   (if _channel (this w)
                    then Emit (CURRENT_STORY_WAS_SET sel)
                         :: (if _configuring (this w) then [] else [Emit RENDER_CURRENT_STORY])
                    else []) |}).
Proof.
  unfold setSelection. rewrite bind_modify, bind_get_this. simpl.
  destruct (_channel (this w)); simpl.
  - unfold bind, perform. simpl. destruct (_configuring (this w)); simpl.
    + reflexivity.
    + now rewrite <- app_assoc.
  - unfold ret. now rewrite app_nil_r.
Qed.

(** X9. A selection leads to exactly one render request.  setSelection
    stores the selection and, with a channel, announces it; outside the
    configuring phase it requests the render at once; during the configuring
    phase it does not, and the finishConfiguring that ends the phase
    requests it, after the snapshot of the stories.  Without a channel
    nothing is sent. *)
Theorem setSelection_requests_one_render :
  forall inJest cmp (ch : bool) (ops : list Op) (sel : Selection),
    let w := run inJest cmp ops (new_World ch) in
    let w1 := snd (setSelection sel w) in
    fst (setSelection sel w) = Return tt /\
    getSelection w1 = (Return (Some sel), w1) /\
    (_configuring (this w) = false ->
     effects w1 = effects w ++
                  (if ch then [Emit (CURRENT_STORY_WAS_SET sel); Emit RENDER_CURRENT_STORY]
                   else [])) /\
    (_configuring (this w) = true ->
     effects w1 = effects w ++ (if ch then [Emit (CURRENT_STORY_WAS_SET sel)] else []) /\
     exists l,
       effects (snd (finishConfiguring cmp w1))
       = effects w ++
         (if ch then [Emit (CURRENT_STORY_WAS_SET sel); Emit (SET_STORIES l);
                      Emit RENDER_CURRENT_STORY]
          else [])).
Proof.
  intros inJest cmp ch ops sel w w1.
  pose proof (reachable_channel inJest cmp ops ch) as Hch. fold w in Hch.
  unfold w1. rewrite setSelection_eq. simpl. rewrite Hch.
  split; [reflexivity|]. split; [reflexivity|]. split.
  - intros ->. reflexivity.
  - intros Hc. rewrite Hc. split; [reflexivity|].
    pose proof (finishConfiguring_outline cmp _
                  (reachable_TableInv inJest cmp (ops ++ [SetSelection sel]) ch)) as H.
    cbv zeta in H. rewrite run_app in H. fold w in H. simpl in H.
    unfold step in H. simpl in H. rewrite setSelection_eq in H. simpl in H.
    rewrite Hch, Hc in H. destruct H as (l & _ & E & _).
    exists l. rewrite E. simpl. rewrite <- app_assoc. now destruct ch.
Qed.

Lemma setSelection_requests_one_render_witness :
  let sel := {| storyId := "a--1"; viewMode := "story" |} in
  let w := run false Fixture.no_sort Sample.ops (new_World true) in
  let w1 := snd (setSelection sel w) in
  _configuring (this w) = true /\
  effects w1 = effects w ++ [Emit (CURRENT_STORY_WAS_SET sel)] /\
  exists l,
    effects (snd (finishConfiguring Fixture.no_sort w1))
    = effects w ++ [Emit (CURRENT_STORY_WAS_SET sel); Emit (SET_STORIES l);
                    Emit RENDER_CURRENT_STORY].
Proof.
  intros sel w w1.
  assert (Hc : _configuring (this w) = true) by (vm_compute; reflexivity).
  split; [exact Hc|].
  destruct (setSelection_requests_one_render false Fixture.no_sort true Sample.ops sel)
    as (_ & _ & _ & H).
  exact (H Hc).
Defined.

(** ** Updating args *)

Lemma lookup_merged base v k :
  NoDup (keys (own_entries base)) -> NoDup (keys (own_entries v)) ->
  lookup k (spread (spread [] base) v)
  = match lookup k (own_entries v) with
    | Some x => Some x
    | None => lookup k (own_entries base)
    end.
Proof.
  intros Hb Hv. rewrite (lookup_spread _ v k Hv).
  destruct (lookup k (own_entries v)); [reflexivity|].
  rewrite (lookup_spread [] base k Hb). now destruct (lookup k (own_entries base)).
Qed.

Lemma get_merged base v k :
  plain base -> NoDup (keys (own_entries v)) ->
  get (VObj (spread (spread [] base) v)) k
  = match lookup k (own_entries v) with
    | Some x => x
    | None => get base k
    end.
Proof.
  intros (ps & -> & Hps) Hv. rewrite get_plain, lookup_merged; auto.
  simpl. now destruct (lookup k (own_entries v)).
Qed.

Lemma updateStoryArgs_eq sid v w e :
  lookup sid (_stories (this w)) = Some e ->
  let e' := set_item_args (VObj (spread (spread [] (args e)) v)) e in
  let s' := set_stories (assign sid e' (_stories (this w))) (this w) in
  updateStoryArgs sid v w
  = if _channel (this w)
    then (Return tt, {| this := s'; closures := closures w;
                        effects := effects w ++ [Emit (STORY_ARGS_UPDATED sid (args e'))] |})
    else (Throw (TypeError "Cannot read property 'emit' of undefined"),
          {| this := s'; closures := closures w; effects := effects w |}).
Proof.
  intros E. unfold updateStoryArgs. rewrite bind_get_this, E, bind_modify.
  now destruct (_channel (this w)).
Qed.



(** X11. updateGlobalArgs on a reachable store with a channel: it returns;
    the global args take the new values for the keys given and keep the
    others; one GLOBAL_ARGS_UPDATED with the merged global args is sent; the
    table is untouched, and fromId gives every story with the merged global
    args from then on. *)
Theorem updateGlobalArgs_merges_and_notifies :
  forall inJest cmp (ops : list Op) (newGlobalArgs : value),
    let w := run inJest cmp ops (new_World true) in
    NoDup (keys (own_entries newGlobalArgs)) ->
    exists w',
      updateGlobalArgs newGlobalArgs w = (Return tt, w') /\
      (forall k, get (_globalArgs (this w')) k
                 = match lookup k (own_entries newGlobalArgs) with
                   | Some v => v
                   | None => get (_globalArgs (this w)) k
                   end) /\
      effects w' = effects w ++ [Emit (GLOBAL_ARGS_UPDATED (_globalArgs (this w')))] /\
      _stories (this w') = _stories (this w) /\
      (forall sid e, lookup sid (_stories (this w)) = Some e ->
                     fromId sid w'
                     = (Return (Some {| item := e; globalArgs := _globalArgs (this w') |}), w')).
Proof.
  intros inJest cmp ops v w Hnd.
  pose proof (reachable_TableInv inJest cmp ops true) as Hi. fold w in Hi.
  destruct (reachable_ArgsInv inJest cmp ops true) as [Hg _]. fold w in Hg.
  pose proof (reachable_channel inJest cmp ops true) as Hch. fold w in Hch.
  unfold updateGlobalArgs. rewrite bind_modify, bind_get_this. simpl. rewrite Hch.
  eexists. split; [reflexivity|]. simpl. split.
  { intros k. now apply get_merged. }
  split; [reflexivity|]. split; [reflexivity|].
  intros sid e E. rewrite fromId_eq. simpl. rewrite E.
  destruct (inv_cell Hi sid e (lookup_In _ _ _ E)) as [Hd _]. now rewrite Hd.
Qed.

Lemma updateGlobalArgs_merges_and_notifies_witness :
  let newGlobalArgs := VObj [("theme", VStr "dark")] in
  let w := run false Fixture.no_sort Sample.ops (new_World true) in
  NoDup (keys (own_entries newGlobalArgs)) /\
  exists w',
    updateGlobalArgs newGlobalArgs w = (Return tt, w') /\
    get (_globalArgs (this w')) "theme" = VStr "dark" /\
    effects w' = effects w ++ [Emit (GLOBAL_ARGS_UPDATED (_globalArgs (this w')))].
Proof.
  intros newGlobalArgs w.
  assert (Hnd : NoDup (keys (own_entries newGlobalArgs))).
  { vm_compute. repeat constructor; simpl; tauto. }
  split; [exact Hnd|].
  destruct (updateGlobalArgs_merges_and_notifies false Fixture.no_sort Sample.ops
              newGlobalArgs Hnd) as (w' & H1 & H2 & H3 & _).
  exists w'. split; [exact H1|]. split; [rewrite H2; reflexivity|exact H3].
Defined.

(** ** Removing stories and releasing hooks *)





(** X14. removeStoryKind on a reachable store, when the guard lets it pass.
    For a kind that has no record it changes nothing.  For a known kind it
    returns; the record of the kind keeps its declaration order and loses
    its parameters and decorators; every story of the kind leaves the table
    and the other stories stay, in their order; clean() is called once on
    the hooks of each removed story that is not docs-only, in table order,
    and on no other hooks. *)
Theorem removeStoryKind_purges_kind :
  forall inJest cmp (ch : bool) (ops : list Op) (k : string) (un : bool),
    let w := run inJest cmp ops (new_World ch) in
    negb (_configuring (this w)) && negb un = false ->
    match lookup k (_kinds (this w)) with
    | None => removeStoryKind k un w = (Return tt, w)
    | Some km =>
        exists w',
          removeStoryKind k un w = (Return tt, w') /\
          lookup k (_kinds (this w'))
            = Some {| kind_order := kind_order km; kind_parameters := VObj [];
                      kind_decorators := [] |} /\
          _stories (this w')
            = filter (fun kv => negb (String.eqb (kind (snd kv)) k)) (_stories (this w)) /\
          effects w'
            = effects w ++
              map HooksClean
                  (map hooks
                       (filter (fun i => String.eqb (kind i) k)
                               (filter (fun i => negb (isStoryDocsOnly (parameters i)))
                                       (values (_stories (this w))))))
    end.
Proof.
  intros inJest cmp ch ops k un w Hg.
  exact (removeStoryKind_permitted k un w (reachable_TableInv inJest cmp ops ch) Hg).
Qed.

Lemma removeStoryKind_purges_kind_witness :
  let w := run false Fixture.no_sort Sample.ops (new_World true) in
  negb (_configuring (this w)) && negb false = false /\
  exists w',
    removeStoryKind "a" false w = (Return tt, w') /\
    keys (_stories (this w')) = ["b--1"] /\
    effects w' = effects w ++ [HooksClean 1].
Proof.
  intros w.
  assert (Hg : negb (_configuring (this w)) && negb false = false) by reflexivity.
  split; [exact Hg|].
  pose proof (removeStoryKind_purges_kind false Fixture.no_sort true Sample.ops "a" false Hg)
    as H.
  cbv zeta in H. fold w in H.
  assert (exists km, lookup "a" (_kinds (this w)) = Some km) as (km & E)
    by (vm_compute; eexists; reflexivity).
  rewrite E in H. destruct H as (w' & H1 & _ & H3 & H4).
  exists w'. split; [exact H1|]. split.
  - rewrite H3. vm_compute. reflexivity.
  - rewrite H4. apply (f_equal (fun d => effects w ++ d)). vm_compute. reflexivity.
Defined.

(** ** Closing the enhancer list, and kind metadata *)






Lemma addKindMetadata_eq inJest k p ds w :
  let s1 := ensured k (this w) in
  let km1 := match lookup k (_kinds (this w)) with
             | Some km => km
             | None => {| kind_order := List.length (keys (_kinds (this w)));
                          kind_parameters := VObj []; kind_decorators := [] |}
             end in
  let km2 := {| kind_order := kind_order km1;
                kind_parameters := combineParameters [kind_parameters km1; p];
                kind_decorators := kind_decorators km1 |} in
  let s2 := set_kinds (assign k km2 (_kinds s1)) s1 in
  let km3 := {| kind_order := kind_order km2; kind_parameters := kind_parameters km2;
                kind_decorators := kind_decorators km2 ++ ds |} in
  addKindMetadata inJest k {| md_parameters := p; md_decorators := Some ds |} w
  = (Return tt,
     {| this := set_kinds (assign k km3 (_kinds s2)) s2;
        closures := closures w;
        effects := effects w ++
                   (if truthy p && (truthy (get p "globalArgs") ||
                                    truthy (get p "globalArgTypes")) && negb inJest
                    then [LoggerError "Global args/argTypes can only be set globally"]
                    else []) |}).
Proof.
  intros s1 km1 km2 s2 km3.
  set (w1 := {| this := s1; closures := closures w; effects := effects w |}).
  set (logs := if truthy p && (truthy (get p "globalArgs") ||
                               truthy (get p "globalArgTypes")) && negb inJest
               then [LoggerError "Global args/argTypes can only be set globally"]
               else []).
  set (w2 := logged w1 logs).
  assert (E2 : (if truthy p then checkGlobalArgs inJest p else ret tt) w1 = (Return tt, w2)).
  { unfold w2, logs, checkGlobalArgs. destruct (truthy p); simpl.
    - destruct ((truthy (get p "globalArgs") || truthy (get p "globalArgTypes"))
                && negb inJest); [reflexivity|].
      unfold ret. now rewrite logged_nil.
    - unfold ret. now rewrite logged_nil. }
  pose proof (ensured_lookup k (this w)) as Ek. fold km1 s1 in Ek.
  unfold addKindMetadata. cbv zeta. unfold ensureKind. rewrite bind_modify. fold s1 w1.
  rewrite (bind_return _ _ _ _ _ E2).
  erewrite (bind_return _ _ w2); [|apply update_kind_eq; exact Ek].
  cbn [md_decorators md_parameters].
  erewrite update_kind_eq; [|simpl; apply lookup_assign_same].
  reflexivity.
Qed.


(** X17. What a kind keeps over a reload.  When removeStoryKind, permitted
    by the guard, is followed by addKindMetadata for the same kind, the
    record of the kind has the declaration order it had before the removal,
    and parameters and decorators that come from the new metadata alone:
    nothing of the old parameters and decorators is left. *)
Theorem kind_reload_keeps_order_only :
  forall inJest cmp (ch : bool) (ops : list Op) (k : string) (un : bool)
         (p : value) (ds : list DecoratorFunction) (km : KindMetadata),
    let w := run inJest cmp ops (new_World ch) in
    let w1 := snd (removeStoryKind k un w) in
    let w2 := snd (addKindMetadata inJest k {| md_parameters := p;
                                               md_decorators := Some ds |} w1) in
    negb (_configuring (this w)) && negb un = false ->
    lookup k (_kinds (this w)) = Some km ->
    lookup k (_kinds (this w2))
    = Some {| kind_order := kind_order km;
              kind_parameters := combineParameters [VObj []; p];
              kind_decorators := ds |}.
Proof.
  intros inJest cmp ch ops k un p ds km w w1 w2 Hg Hk.
  pose proof (removeStoryKind_permitted k un w (reachable_TableInv inJest cmp ops ch) Hg) as H.
  rewrite Hk in H. destruct H as (w' & E & Hk' & _).
  unfold w2, w1. rewrite E. simpl.
  pose proof (addKindMetadata_eq inJest k p ds w') as E2. cbv zeta in E2.
  rewrite E2. simpl. rewrite !lookup_assign_same. rewrite Hk'. reflexivity.
Qed.

Lemma kind_reload_keeps_order_only_witness :
  let p := VObj [("layout", VStr "padded")] in
  let w := run false Fixture.no_sort (EnsureKind "z" :: Sample.ops) (new_World true) in
  let w1 := snd (removeStoryKind "a" false w) in
  let w2 := snd (addKindMetadata false "a" {| md_parameters := p;
                                              md_decorators := Some [7] |} w1) in
  lookup "a" (_kinds (this w))
  = Some {| kind_order := 1;
            kind_parameters := VObj [("layout", VStr "centered")];
            kind_decorators := [5] |} /\
  lookup "a" (_kinds (this w2))
  = Some {| kind_order := 1;
            kind_parameters := combineParameters [VObj []; p];
            kind_decorators := [7] |}.
Proof.
  intros p w w1 w2.
  assert (E : lookup "a" (_kinds (this w))
              = Some {| kind_order := 1;
                        kind_parameters := VObj [("layout", VStr "centered")];
                        kind_decorators := [5] |}) by (vm_compute; reflexivity).
  split; [exact E|].
  apply (kind_reload_keeps_order_only false Fixture.no_sort true (EnsureKind "z" :: Sample.ops)
           "a" false p [7] _ eq_refl E).
Defined.

(** ** Registration, its reports and its failures *)

Lemma addStory_effects inJest a ap un w :
  negb (_configuring (this w)) && negb un = false ->
  effects (snd (addStory inJest a ap un w)) = effects w ++ addStory_logs inJest a w.
Proof.
  intros Hguard. unfold addStory_logs. cbv zeta.
  unfold addStory. rewrite bind_get_this, Hguard.
  unfold checkGlobalArgs, ensureKind, allocate, bind, perform, modify, get_this, ret, throw.
  destruct (truthy (or_empty (add_parameters a))); simpl.
  1: destruct ((truthy (get (or_empty (add_parameters a)) "globalArgs")
                || truthy (get (or_empty (add_parameters a)) "globalArgTypes"))
               && negb inJest); simpl.
  all: destruct (lookup (add_id a) (_stories (this w))); simpl.
  all: rewrite <- ?app_assoc, ?app_nil_r; simpl.
  all: destruct (lookup (add_kind a) (_kinds (ensured (add_kind a) (this w))));
       [|reflexivity].
  all: match goal with
       | |- context [if is_nullish ?x then None else ?y] =>
           destruct (if is_nullish x then None else y)
       end; reflexivity.
Qed.




(** ** Parameter enhancers *)

Lemma ensured_enhancers k es s :
  ensured k (set_parameterEnhancers es s) = set_parameterEnhancers es (ensured k s).
Proof. unfold ensured. simpl. destruct (lookup k (_kinds s)); reflexivity. Qed.

Lemma addStory_returned inJest a ap un w :
  fst (addStory inJest a ap un w) = Return tt ->
  let s1 := ensured (add_kind a) (this w) in
  let km := match lookup (add_kind a) (_kinds (this w)) with
            | Some km => km
            | None => {| kind_order := List.length (keys (_kinds (this w)));
                         kind_parameters := VObj []; kind_decorators := [] |}
            end in
  let resolved := resolveArgParameters s1 km (or_empty (add_parameters a)) in
  exists defaultArgs,
    snd (addStory inJest a ap un w)
    = {| this :=
           set_stories
             (assign (add_id a)
                {| id := add_id a; kind := add_kind a; name := add_name a;
                   story := add_name a;
                   hooks := List.length (closures w);
                   getDecorated := Some (List.length (closures w));
                   getOriginal := add_storyFn a;
                   parameters := or_empty (add_parameters a);
                   args := VObj (spread (spread [] (VObj defaultArgs))
                                        (or_empty (get resolved "args"))) |}
                (_stories s1)) s1;
         closures := closures w ++
           [{| applier := ap; finalStoryFn := add_storyFn a;
               decorators := match add_decorators a with Some ds => ds | None => [] end
                             ++ kind_decorators km
                             ++ global_decorators (_globalMetadata s1);
               computed := false |}];
         effects := effects w ++ addStory_logs inJest a w |}.
Proof.
  intros Hr. cbv zeta.
  assert (Hg : negb (_configuring (this w)) && negb un = false).
  { apply addStory_returns_iff in Hr. tauto. }
  pose proof (addStory_effects inJest a ap un w Hg) as He.
  destruct (addStory_world inJest a ap un w Hg) as (logs & _ & H).
  cbv zeta in H. rewrite ensured_lookup in H.
  match type of H with
  | match (if is_nullish ?x then None else ?y) with _ => _ end =>
      destruct (if is_nullish x then None else y) as [d|]
  end.
  - exists d. rewrite H in He |- *. simpl in *. now rewrite He.
  - destruct H as (e & H). rewrite H in Hr. discriminate.
Qed.

(** X20. The parameter enhancers of addStory.  They run in the order in
    which they were registered, each on the parameters accumulated so far
    and with empty args and globalArgs, and what an enhancer returns is
    spread over the accumulated parameters.  They can change nothing of a
    registered story but its initial args: when a registration returns
    both with the enhancers of the store and with any other enhancers, the
    two stores hold the same ids in the same order, the same other stories,
    the same kinds, closures and calls, and the new entry is the same but
    for its args. *)
Theorem enhancers_run_in_order_and_shape_args_only :
  forall (inJest : bool) (a : AddStoryArgs) (ap : nat) (un : bool) (w : World)
         (es : list ParameterEnhancer) (f : ParameterEnhancer),
    (forall km sp,
        resolveArgParameters (this (with_enhancers (es ++ [f]) w)) km sp
        = enhance f (resolveArgParameters (this (with_enhancers es w)) km sp)) /\
    (let w1 := snd (addStory inJest a ap un w) in
     let w2 := snd (addStory inJest a ap un (with_enhancers es w)) in
     fst (addStory inJest a ap un w) = Return tt ->
     fst (addStory inJest a ap un (with_enhancers es w)) = Return tt ->
     exists e1 e2,
       lookup (add_id a) (_stories (this w1)) = Some e1 /\
       lookup (add_id a) (_stories (this w2)) = Some e2 /\
       e2 = set_item_args (args e2) e1 /\
       keys (_stories (this w2)) = keys (_stories (this w1)) /\
       (forall sid, sid <> add_id a ->
                    lookup sid (_stories (this w2)) = lookup sid (_stories (this w1))) /\
       _kinds (this w2) = _kinds (this w1) /\
       closures w2 = closures w1 /\
       effects w2 = effects w1).
Proof.
  intros inJest a ap un w es f. split.
  - intros km sp. unfold resolveArgParameters, enhance. simpl.
    now rewrite fold_left_app.
  - intros w1 w2 H1 H2.
    destruct (addStory_returned inJest a ap un w H1) as (d1 & E1).
    destruct (addStory_returned inJest a ap un (with_enhancers es w) H2) as (d2 & E2).
    cbv zeta in E1, E2. fold w1 in E1. fold w2 in E2.
    rewrite E1, E2. simpl. rewrite ensured_enhancers. simpl.
    rewrite !lookup_assign_same.
    eexists _, _. split; [reflexivity|]. split; [reflexivity|].
    split; [reflexivity|]. split.
    { rewrite !keys_assign. reflexivity. }
    split.
    { intros sid Hne. now rewrite !lookup_assign_other. }
    split; [reflexivity|]. split; reflexivity.
Qed.

Lemma enhancers_run_in_order_and_shape_args_only_witness :
  let es : list ParameterEnhancer :=
    [fun _ => VObj [("args", VObj [("size", VNum 9)])]] in
  let w := new_World true in
  let w1 := snd (addStory false Sample.first 9 false w) in
  let w2 := snd (addStory false Sample.first 9 false (with_enhancers es w)) in
  fst (addStory false Sample.first 9 false w) = Return tt /\
  fst (addStory false Sample.first 9 false (with_enhancers es w)) = Return tt /\
  exists e1 e2,
    lookup "a--1" (_stories (this w1)) = Some e1 /\
    lookup "a--1" (_stories (this w2)) = Some e2 /\
    e2 = set_item_args (args e2) e1.
Proof.
  intros es w w1 w2.
  assert (H1 : fst (addStory false Sample.first 9 false w) = Return tt)
    by (vm_compute; reflexivity).
  assert (H2 : fst (addStory false Sample.first 9 false (with_enhancers es w)) = Return tt)
    by (vm_compute; reflexivity).
  split; [exact H1|]. split; [exact H2|].
  destruct (proj2 (enhancers_run_in_order_and_shape_args_only
                     false Sample.first 9 false w es (fun v => v)) H1 H2)
    as (e1 & e2 & A & B & C & _).
  exists e1, e2. split; [exact A|]. split; [exact B|exact C].
Defined.

(** ** The table of a reachable store *)

(** X21. What holds of every story in the table of a reachable store: it is
    stored under its own id, its kind has a record, it has a getDecorated
    closure and a hooks object that no other story of the table has, and
    fromId gives it, with the current global args. *)
Theorem table_entries_wellformed :
  forall inJest cmp (ch : bool) (ops : list Op) (sid : string) (e : StoreItem),
    let w := run inJest cmp ops (new_World ch) in
    lookup sid (_stories (this w)) = Some e ->
    id e = sid /\
    (exists km, lookup (kind e) (_kinds (this w)) = Some km) /\
    getDecorated e <> None /\
    (forall sid' e', lookup sid' (_stories (this w)) = Some e' ->
                     hooks e' = hooks e -> sid' = sid) /\
    fromId sid w = (Return (Some {| item := e; globalArgs := _globalArgs (this w) |}), w).
Proof.
  intros inJest cmp ch ops sid e w E.
  pose proof (reachable_TableInv inJest cmp ops ch) as Hi. fold w in Hi.
  pose proof (lookup_In _ _ _ E) as Hin.
  destruct (inv_cell Hi sid e Hin) as [Hd _].
  split; [apply (inv_key Hi sid e Hin)|]. split.
  { pose proof (inv_kind Hi sid e Hin) as Hk.
    destruct (lookup (kind e) (_kinds (this w))) as [km|]; [eauto|congruence]. }
  split; [congruence|]. split.
  - intros sid' e' E' Hh. pose proof (lookup_In _ _ _ E') as Hin'.
    pose proof (NoDup_map_inj (fun kv => hooks (snd kv)) (_stories (this w))
                  (sid', e') (sid, e) (inv_handles Hi) Hin' Hin Hh) as Heq.
    congruence.
  - rewrite fromId_eq, E, Hd. reflexivity.
Qed.

Lemma table_entries_wellformed_witness :
  let w := run false Fixture.no_sort Sample.ops (new_World true) in
  exists e,
    lookup "a--docs" (_stories (this w)) = Some e /\
    id e = "a--docs" /\
    fromId "a--docs" w = (Return (Some {| item := e; globalArgs := _globalArgs (this w) |}), w).
Proof.
  intros w.
  assert (exists e, lookup "a--docs" (_stories (this w)) = Some e) as (e & E)
    by (vm_compute; eexists; reflexivity).
  destruct (table_entries_wellformed false Fixture.no_sort true Sample.ops "a--docs" e E)
    as (H1 & _ & _ & _ & H5).
  exists e. split; [exact E|]. split; [exact H1|exact H5].
Defined.

(** X22. getAllParameters on a reachable store: for a story of the table it
    returns, without changing anything, the combination of the global
    parameters, the parameters of the kind of the story and the parameters
    stored with the story, all as they are at the time of the call; the
    parameter enhancers are not run.  For an id that is not in the table it
    throws a TypeError. *)
Theorem getAllParameters_combines_current_scopes :
  forall inJest cmp (ch : bool) (ops : list Op) (sid : string),
    let w := run inJest cmp ops (new_World ch) in
    match lookup sid (_stories (this w)) with
    | Some e =>
        exists km,
          lookup (kind e) (_kinds (this w)) = Some km /\
          getAllParameters sid w
          = (Return (combineParameters [global_parameters (_globalMetadata (this w));
                                        kind_parameters km;
                                        parameters e]), w)
    | None => exists msg, getAllParameters sid w = (Throw (TypeError msg), w)
    end.
Proof.
  intros inJest cmp ch ops sid w.
  pose proof (reachable_TableInv inJest cmp ops ch) as Hi. fold w in Hi.
  unfold getAllParameters. rewrite bind_get_this.
  destruct (lookup sid (_stories (this w))) as [e|] eqn:E; [|eexists; reflexivity].
  pose proof (inv_kind Hi sid e (lookup_In _ _ _ E)) as Hk.
  destruct (lookup (kind e) (_kinds (this w))) as [km|]; [|congruence].
  exists km. split; reflexivity.
Qed.

(** X23. raw on a reachable store: it returns, without changing anything,
    the stories of the table in table order, each once, with the current
    global args; with no option the docs-only stories are left out, with
    includeDocsOnly every story is listed.  No element of the result is
    null. *)
Theorem raw_lists_table_order_without_null :
  forall inJest cmp (ch : bool) (ops : list Op) (options : option StoryOptions),
    let w := run inJest cmp ops (new_World ch) in
    let chosen := filter (fun i => includeStory (parameters i) options)
                         (values (_stories (this w))) in
    raw options w
    = (Return (map (fun i => Some {| item := i; globalArgs := _globalArgs (this w) |}) chosen),
       w) /\
    NoDup (map id chosen) /\
    (options = None -> chosen = listed w) /\
    (options = Some {| includeDocsOnly := Some true |} ->
     chosen = values (_stories (this w))).
Proof.
  intros inJest cmp ch ops options w chosen.
  pose proof (reachable_TableInv inJest cmp ops ch) as Hi. fold w in Hi.
  split; [apply raw_eq; exact Hi|]. split.
  - assert (Hids : map id (values (_stories (this w))) = keys (_stories (this w))).
    { unfold values, keys. rewrite map_map. apply map_ext_in.
      intros [k e] Hin. simpl. apply (inv_key Hi k e Hin). }
    unfold chosen. apply NoDup_map_filter. rewrite Hids. apply (inv_ids Hi).
  - split.
    + intros ->. reflexivity.
    + intros ->. unfold chosen. apply filter_all. reflexivity.
Qed.

(** ** Sets in insertion order *)

Lemma existsb_eqb_In x s : existsb (String.eqb x) s = true <-> In x s.
Proof.
  rewrite existsb_exists. split.
  - intros (y & Hin & E). apply String.eqb_eq in E. now subst.
  - intros Hin. exists x. split; [assumption | apply String.eqb_refl].
Qed.

Lemma set_add_cases x s :
  (In x s /\ set_add x s = s) \/ (~ In x s /\ set_add x s = s ++ [x]).
Proof.
  unfold set_add. destruct (existsb (String.eqb x) s) eqn:E.
  - left. split; [now apply existsb_eqb_In | reflexivity].
  - right. split; [|reflexivity]. intros Hin. apply existsb_eqb_In in Hin. congruence.
Qed.

Lemma set_add_In x y s : In y (set_add x s) <-> y = x \/ In y s.
Proof.
  destruct (set_add_cases x s) as [[Hin ->]|[Hn ->]].
  - split; [auto|]. intros [->|H]; auto.
  - rewrite in_app_iff. simpl. intuition.
Qed.

Lemma set_fold_In xs : forall s y,
  In y (fold_left (fun s x => set_add x s) xs s) <-> In y s \/ In y xs.
Proof.
  induction xs as [|a xs IH]; simpl; intros s y; [tauto|].
  rewrite IH, set_add_In. intuition.
Qed.

Lemma set_fold_NoDup xs : forall s,
  NoDup s -> NoDup (fold_left (fun s x => set_add x s) xs s).
Proof.
  induction xs as [|a xs IH]; simpl; intros s Hs; auto.
  apply IH. destruct (set_add_cases a s) as [[Hin ->]|[Hn ->]]; auto.
  apply NoDup_app; [assumption | repeat constructor; simpl; tauto |].
  intros y Hy [<-|[]]. contradiction.
Qed.

Lemma set_fold_order xs : forall s x y,
  precedes x y (fold_left (fun s x => set_add x s) xs s) ->
  precedes x y s \/ (In x s /\ ~ In y s) \/
  (~ In y s /\ exists l1 l2, xs = l1 ++ x :: l2 /\ ~ In y l1).
Proof.
  induction xs as [|a xs IH]; simpl; intros s x y H; [now left|].
  apply IH in H.
  assert (Hsub : forall z, In z s -> In z (set_add a s))
    by (intros z Hz; apply set_add_In; auto).
  destruct H as [H|[[Hx Hy]|(Hy & l1 & l2 & -> & Hl1)]].
  - destruct (set_add_cases a s) as [[Hin E]|[Hn E]]; rewrite E in H; [now left|].
    apply precedes_app in H. destruct H as [H|[[Hx [<-|[]]]|H]].
    + now left.
    + right. left. split; assumption.
    + simpl in H. destruct H as [[_ []]|[]].
  - apply set_add_In in Hx. destruct Hx as [->|Hx].
    + destruct (in_dec string_dec a s) as [Hin|Hn].
      * right. left. split; auto.
      * right. right. split; [auto|]. exists [], xs. split; [reflexivity|]. simpl. tauto.
    + right. left. split; auto.
  - right. right. split; [auto|]. exists (a :: l1), l2. split; [reflexivity|].
    simpl. intros [<-|Hin]; [|contradiction].
    apply Hy. apply set_add_In. now left.
Qed.

Lemma set_from_spec xs :
  NoDup (set_from xs) /\
  (forall x, In x (set_from xs) <-> In x xs) /\
  (forall x y, precedes x y (set_from xs) ->
               exists l1 l2, xs = l1 ++ x :: l2 /\ ~ In y l1).
Proof.
  unfold set_from. split; [apply set_fold_NoDup; constructor|]. split.
  - intros x. rewrite set_fold_In. simpl. tauto.
  - intros x y H. apply set_fold_order in H.
    destruct H as [[]|[[[] _]|(_ & H)]]. exact H.
Qed.

(** ** Kinds and stories by name *)

Lemma listed_In w i :
  In i (listed w) <->
  exists sid, In (sid, i) (_stories (this w)) /\ isStoryDocsOnly (parameters i) = false.
Proof.
  unfold listed. rewrite filter_In, In_values, negb_true_iff. firstorder.
Qed.

Lemma getStoryKinds_eq w :
  TableInv w -> getStoryKinds w = (Return (set_from (map kind (listed w))), w).
Proof.
  intros Hi. unfold getStoryKinds.
  rewrite (bind_return _ _ _ _ _ (raw_eq None w Hi)).
  erewrite bind_return.
  2:{ apply (mapM_pure_on _ (fun st => match st with
                                       | Some p => kind (item p)
                                       | None => ""
                                       end)).
      intros x Hin. apply in_map_iff in Hin. destruct Hin as (i & <- & _). reflexivity. }
  rewrite map_map. reflexivity.
Qed.

(** X24. getStoryKinds on a reachable store: it returns, without changing
    anything, the kinds of the stories that are not docs-only, each kind
    once, in the order in which the kinds first occur in the table.  A kind
    that has a record but no story, or only docs-only stories, is not among
    them; every kind returned has a record. *)
Theorem getStoryKinds_lists_kinds_of_listed_stories :
  forall inJest cmp (ch : bool) (ops : list Op),
    let w := run inJest cmp ops (new_World ch) in
    exists ks,
      getStoryKinds w = (Return ks, w) /\
      NoDup ks /\
      (forall k, In k ks <->
                 exists sid e, lookup sid (_stories (this w)) = Some e /\ kind e = k /\
                               isStoryDocsOnly (parameters e) = false) /\
      (forall k, In k ks -> lookup k (_kinds (this w)) <> None) /\
      (forall k1 k2, precedes k1 k2 ks ->
                     exists l1 l2, map kind (listed w) = l1 ++ k1 :: l2 /\ ~ In k2 l1).
Proof.
  intros inJest cmp ch ops w.
  pose proof (reachable_TableInv inJest cmp ops ch) as Hi. fold w in Hi.
  destruct (set_from_spec (map kind (listed w))) as (Hnd & Hin & Hord).
  assert (Hmem : forall k, In k (set_from (map kind (listed w))) <->
                 exists sid e, lookup sid (_stories (this w)) = Some e /\ kind e = k /\
                               isStoryDocsOnly (parameters e) = false).
  { intros k. rewrite Hin, in_map_iff. split.
    - intros (i & <- & Hl). apply listed_In in Hl. destruct Hl as (sid & Hs & Hd).
      exists sid, i. repeat split; auto. apply In_lookup; [apply (inv_ids Hi) | assumption].
    - intros (sid & e & E & <- & Hd). exists e. split; [reflexivity|].
      apply listed_In. exists sid. split; [now apply lookup_In | assumption]. }
  exists (set_from (map kind (listed w))).
  split; [now apply getStoryKinds_eq|]. split; [exact Hnd|]. split; [exact Hmem|].
  split; [|exact Hord].
  intros k Hk. apply Hmem in Hk. destruct Hk as (sid & e & E & <- & _).
  apply (inv_kind Hi sid e). now apply lookup_In.
Qed.

Lemma find_map {A B} (p : B -> bool) (f : A -> B) (l : list A) :
  find p (map f l) = option_map f (find (fun x => p (f x)) l).
Proof.
  induction l as [|a l IH]; simpl; auto. destruct (p (f a)); auto.
Qed.

Lemma find_filter {A} (p q : A -> bool) (l : list A) :
  find p (filter q l) = find (fun x => q x && p x) l.
Proof.
  induction l as [|a l IH]; simpl; auto.
  destruct (q a); simpl; auto. destruct (p a); auto.
Qed.

Lemma getRawStory_eq k n w :
  TableInv w ->
  getRawStory k n w
  = (Return (option_map (fun i => {| item := i; globalArgs := _globalArgs (this w) |})
                        (find (fun i => String.eqb (kind i) k && String.eqb (name i) n)
                              (listed w))), w).
Proof.
  intros Hi. unfold getRawStory.
  rewrite (bind_return _ _ _ _ _ (getStoriesForKind_eq k w Hi)).
  unfold ret. rewrite find_map, find_filter. reflexivity.
Qed.

(** X25. getRawStory on a reachable store: it returns, without changing
    anything, the first story in table order that has the kind and the name
    and is not docs-only, with the current global args; it returns
    undefined exactly when the table has no such story, so also for a
    docs-only story and for an unknown kind; it never throws. *)
Theorem getRawStory_finds_first_listed_match :
  forall inJest cmp (ch : bool) (ops : list Op) (k n : string),
    let w := run inJest cmp ops (new_World ch) in
    exists r,
      getRawStory k n w = (Return r, w) /\
      (r = None <->
       forall sid e, lookup sid (_stories (this w)) = Some e ->
                     kind e = k -> name e = n -> isStoryDocsOnly (parameters e) = true) /\
      (forall p, r = Some p ->
         kind (item p) = k /\ name (item p) = n /\
         isStoryDocsOnly (parameters (item p)) = false /\
         lookup (id (item p)) (_stories (this w)) = Some (item p) /\
         globalArgs p = _globalArgs (this w) /\
         exists l1 l2, listed w = l1 ++ item p :: l2 /\
                       forall i, In i l1 -> ~ (kind i = k /\ name i = n)).
Proof.
  intros inJest cmp ch ops k n w.
  pose proof (reachable_TableInv inJest cmp ops ch) as Hi. fold w in Hi.
  eexists. split; [now apply getRawStory_eq|]. split.
  - destruct (find _ (listed w)) as [i|] eqn:Ef; simpl.
    + split; [discriminate|]. intros H. exfalso.
      apply find_some in Ef. destruct Ef as [Hl Hm].
      apply andb_true_iff in Hm. destruct Hm as [Hk Hn].
      apply String.eqb_eq in Hk, Hn. apply listed_In in Hl. destruct Hl as (sid & Hs & Hd).
      rewrite (H sid i) in Hd; auto; [discriminate|].
      apply In_lookup; [apply (inv_ids Hi) | assumption].
    + split; [|reflexivity]. intros _ sid e E Hk Hn.
      destruct (isStoryDocsOnly (parameters e)) eqn:Hd; [reflexivity|]. exfalso.
      assert (Hl : In e (listed w)).
      { apply listed_In. exists sid. split; [now apply lookup_In | assumption]. }
      pose proof (find_none _ _ Ef e Hl) as Hf. simpl in Hf.
      rewrite Hk, Hn, !String.eqb_refl in Hf. discriminate.
  - intros p Hp.
    destruct (find _ (listed w)) as [i|] eqn:Ef; simpl in Hp; [|discriminate].
    injection Hp as <-. simpl.
    pose proof (find_some _ _ Ef) as [Hl Hm].
    apply andb_true_iff in Hm. destruct Hm as [Hk Hn].
    apply String.eqb_eq in Hk, Hn. apply listed_In in Hl. destruct Hl as (sid & Hs & Hd).
    repeat split; auto.
    + rewrite (inv_key Hi sid i Hs). apply In_lookup; [apply (inv_ids Hi) | assumption].
    + clear Hs Hd Hk Hn. revert Ef. induction (listed w) as [|a l IH]; simpl; [discriminate|].
      destruct (String.eqb (kind a) k && String.eqb (name a) n) eqn:Ea.
      * intros [= ->]. exists [], l. split; [reflexivity|]. intros i0 [].
      * intros Ef. destruct (IH Ef) as (l1 & l2 & -> & Hl1).
        exists (a :: l1), l2. split; [reflexivity|].
        intros i0 [<-|Hin]; [|now apply Hl1].
        intros [Hk Hn]. rewrite Hk, Hn, !String.eqb_refl in Ea. discriminate.
Qed.

(** ** The storybook listing *)

Lemma reducer_run g0 (items : list StoreItem) :
  (forall i, In i items -> includeStory (parameters i) None = true) ->
  forall acc ks w,
    acc w = (Return ks, w) ->
    fold_left getStorybook_reducer
              (map (fun i => Some {| item := i; globalArgs := g0 |}) items) acc w
    = if forallb (fun i => negb (is_nullish (parameters i))) items
      then (Return (fold_left group_step items ks), w)
      else (Throw (TypeError "Cannot destructure property 'fileName'"), w).
Proof.
  induction items as [|i items IH]; intros Hinc acc ks w Hacc; simpl; [assumption|].
  destruct (is_nullish (parameters i)) eqn:Hn; simpl.
  - apply reducer_throw. unfold getStorybook_reducer.
    rewrite (bind_return _ _ _ _ _ Hacc). simpl.
    rewrite (Hinc i (or_introl eq_refl)), Hn. reflexivity.
  - apply IH; [intros j Hj; apply Hinc; now right|].
    unfold getStorybook_reducer. rewrite (bind_return _ _ _ _ _ Hacc). simpl.
    rewrite (Hinc i (or_introl eq_refl)), Hn. reflexivity.
Qed.

Lemma has_kind_members k items :
  has_kind k items = match filter (fun i => String.eqb (kind i) k) items with
                     | [] => false
                     | _ :: _ => true
                     end.
Proof.
  unfold has_kind. induction items as [|i items IH]; simpl; auto.
  destruct (String.eqb (kind i) k); simpl; auto.
Qed.

Lemma storybook_group_snoc_same done e :
  storybook_group (kind e) (done ++ [e])
  = let group := if has_kind (kind e) done
                 then storybook_group (kind e) done
                 else {| gk_kind := kind e; gk_fileName := get (parameters e) "fileName";
                         gk_stories := [] |} in
    {| gk_kind := gk_kind group; gk_fileName := gk_fileName group;
       gk_stories := gk_stories group ++ [(name e, hooks e)] |}.
Proof.
  unfold storybook_group. cbv zeta. rewrite has_kind_members, filter_app. simpl.
  rewrite String.eqb_refl.
  destruct (filter (fun i => String.eqb (kind i) (kind e)) done) as [|i l]; simpl.
  - reflexivity.
  - rewrite map_app. reflexivity.
Qed.

Lemma storybook_group_snoc_other k done e :
  kind e <> k -> storybook_group k (done ++ [e]) = storybook_group k done.
Proof.
  intros Hne. unfold storybook_group. cbv zeta. rewrite filter_app. simpl.
  destruct (String.eqb_spec (kind e) k); [contradiction|]. now rewrite app_nil_r.
Qed.

Lemma has_kind_snoc k done e :
  has_kind k (done ++ [e]) = has_kind k done || String.eqb (kind e) k.
Proof. unfold has_kind. rewrite existsb_app. simpl. now rewrite orb_false_r. Qed.

Lemma GroupsOf_step done ks e :
  GroupsOf done ks -> GroupsOf (done ++ [e]) (group_step ks e).
Proof.
  intros [Hnd Hl]. split.
  - unfold group_step. now apply NoDup_keys_assign.
  - intros k. unfold group_step. rewrite has_kind_snoc.
    destruct (String.eqb_spec (kind e) k) as [<-|Hne].
    + rewrite lookup_assign_same, orb_true_r. f_equal.
      rewrite storybook_group_snoc_same. cbv zeta. rewrite Hl.
      now destruct (has_kind (kind e) done).
    + rewrite lookup_assign_other by congruence. rewrite orb_false_r, Hl.
      now rewrite storybook_group_snoc_other.
Qed.

Lemma GroupsOf_fold items : forall done ks,
  GroupsOf done ks -> GroupsOf (done ++ items) (fold_left group_step items ks).
Proof.
  induction items as [|e items IH]; simpl; intros done ks H.
  - now rewrite app_nil_r.
  - replace (done ++ e :: items) with ((done ++ [e]) ++ items)
      by (rewrite <- app_assoc; reflexivity).
    apply IH. now apply GroupsOf_step.
Qed.

Lemma has_kind_In k items : has_kind k items = true <-> exists i, In i items /\ kind i = k.
Proof.
  unfold has_kind. rewrite existsb_exists. split.
  - intros (i & Hin & E). apply String.eqb_eq in E. eauto.
  - intros (i & Hin & <-). exists i. split; [assumption | apply String.eqb_refl].
Qed.

Lemma GroupsOf_In items ks k g :
  GroupsOf items ks ->
  (In (k, g) ks <-> has_kind k items = true /\ g = storybook_group k items).
Proof.
  intros [Hnd Hl]. split.
  - intros Hin. apply (In_lookup _ _ _ Hnd) in Hin. rewrite Hl in Hin.
    destruct (has_kind k items); [|discriminate]. injection Hin as <-. auto.
  - intros [Hk ->]. apply lookup_In. rewrite Hl, Hk. reflexivity.
Qed.

Lemma getStorybook_eq w :
  TableInv w ->
  exists ks,
    GroupsOf (listed w) ks /\
    getStorybook w
    = if forallb (fun i => negb (is_nullish (parameters i))) (listed w)
      then match stable_sort
                   (fun s1 s2 =>
                      match lookup (gk_kind s1) (_kinds (this w)),
                            lookup (gk_kind s2) (_kinds (this w)) with
                      | Some k1, Some k2 =>
                          Some (Z.of_nat (kind_order k1) - Z.of_nat (kind_order k2))%Z
                      | _, _ => None
                      end) (values ks) with
           | Some l => (Return l, w)
           | None => (Throw (TypeError "Cannot read property 'order' of undefined"), w)
           end
      else (Throw (TypeError "Cannot destructure property 'fileName'"), w).
Proof.
  intros Hi. exists (fold_left group_step (listed w) []). split.
  { apply (GroupsOf_fold (listed w) [] []). split; [constructor|]. intros k. reflexivity. }
  unfold getStorybook. rewrite (bind_return _ _ _ _ _ (raw_eq None w Hi)).
  change (filter (fun i => includeStory (parameters i) None) (values (_stories (this w))))
    with (listed w).
  assert (Hrun := reducer_run (_globalArgs (this w)) (listed w)).
  specialize (Hrun (fun i Hin => proj2 (proj1 (filter_In _ _ _) Hin)) (ret []) [] w eq_refl).
  destruct (forallb _ (listed w)).
  - rewrite (bind_return _ _ _ _ _ Hrun). rewrite bind_get_this.
    destruct (stable_sort _ _); reflexivity.
  - rewrite (bind_throw _ _ _ _ _ Hrun). reflexivity.
Qed.

(** X26. getStorybook on a reachable store.  When every story that is not
    docs-only has parameters that are not null, it returns, without
    changing anything, one entry for each kind that has such a story, no
    kind twice, in ascending declaration order of the kinds, whatever sort
    the stories ask for; the entry of a kind lists the render functions of
    its stories that are not docs-only, in table order, and takes the file
    name from the first of them.  When some story that is not docs-only has
    null parameters it throws a TypeError. *)
Theorem getStorybook_groups_in_kind_order :
  forall inJest cmp (ch : bool) (ops : list Op),
    let w := run inJest cmp ops (new_World ch) in
    ((forall i, In i (listed w) -> is_nullish (parameters i) = false) ->
     exists gs,
       getStorybook w = (Return gs, w) /\
       NoDup (map gk_kind gs) /\
       (forall g, In g gs <->
                  exists i, In i (listed w) /\ g = storybook_group (kind i) (listed w)) /\
       (forall g1 g2, precedes g1 g2 gs ->
                      order_of (this w) (gk_kind g1) <= order_of (this w) (gk_kind g2))) /\
    (forall i, In i (listed w) -> is_nullish (parameters i) = true ->
               exists msg, getStorybook w = (Throw (TypeError msg), w)).
Proof.
  intros inJest cmp ch ops w.
  pose proof (reachable_TableInv inJest cmp ops ch) as Hi. fold w in Hi.
  destruct (getStorybook_eq w Hi) as (ks & HG & E).
  split.
  - intros Hnn.
    assert (Hall : forallb (fun i => negb (is_nullish (parameters i))) (listed w) = true).
    { apply forallb_forall. intros i Hin. now rewrite (Hnn i Hin). }
    rewrite Hall in E.
    assert (Hval : forall g, In g (values ks) <->
                   exists i, In i (listed w) /\ g = storybook_group (kind i) (listed w)).
    { intros g. rewrite In_values. split.
      - intros (k & Hin). apply (GroupsOf_In _ _ _ _ HG) in Hin. destruct Hin as [Hk ->].
        apply has_kind_In in Hk. destruct Hk as (i & Hin & <-). eauto.
      - intros (i & Hin & ->). exists (kind i). apply (GroupsOf_In _ _ _ _ HG).
        split; [|reflexivity]. apply has_kind_In. eauto. }
    assert (Hkinds : map gk_kind (values ks) = keys ks).
    { unfold values, keys. rewrite map_map. apply map_ext_in. intros [k g] Hin.
      apply (GroupsOf_In _ _ _ _ HG) in Hin. destruct Hin as [_ ->]. reflexivity. }
    destruct (stable_sort_spec (fun g => order_of (this w) (gk_kind g))
                (fun s1 s2 =>
                   match lookup (gk_kind s1) (_kinds (this w)),
                         lookup (gk_kind s2) (_kinds (this w)) with
                   | Some k1, Some k2 =>
                       Some (Z.of_nat (kind_order k1) - Z.of_nat (kind_order k2))%Z
                   | _, _ => None
                   end) (values ks)) as (gs & Es & Hperm & Hsorted & _).
    { assert (Hreg : forall g, In g (values ks) ->
                               lookup (gk_kind g) (_kinds (this w)) <> None).
      { intros g Hg. apply Hval in Hg. destruct Hg as (i & Hin & ->). simpl.
        apply listed_In in Hin. destruct Hin as (sid & Hs & _).
        apply (inv_kind Hi sid i Hs). }
      intros x y Hx Hy. unfold order_of.
      pose proof (Hreg x Hx). pose proof (Hreg y Hy).
      destruct (lookup (gk_kind x) (_kinds (this w))); [|congruence].
      destruct (lookup (gk_kind y) (_kinds (this w))); [|congruence].
      reflexivity. }
    rewrite Es in E. exists gs. split; [exact E|]. split.
    { apply (Permutation_NoDup (l := map gk_kind (values ks))).
      - now apply Permutation_map.
      - rewrite Hkinds. apply HG. }
    split; [|exact Hsorted].
    intros g. rewrite <- Hval. split; apply Permutation_in;
      [now apply Permutation_sym | assumption].
  - intros i Hin Hn.
    assert (Hall : forallb (fun i => negb (is_nullish (parameters i))) (listed w) = false).
    { destruct (forallb _ (listed w)) eqn:Hf; [|reflexivity].
      rewrite forallb_forall in Hf. specialize (Hf i Hin). now rewrite Hn in Hf. }
    rewrite Hall in E. eexists. exact E.
Qed.

Lemma getStorybook_groups_in_kind_order_witness :
  let w := run false Fixture.no_sort Sample.ops (new_World true) in
  (forall i, In i (listed w) -> is_nullish (parameters i) = false) /\
  exists gs,
    getStorybook w = (Return gs, w) /\
    NoDup (map gk_kind gs) /\
    In (storybook_group "a" (listed w)) gs.
Proof.
  intros w.
  assert (Hall : forallb (fun i => negb (is_nullish (parameters i))) (listed w) = true)
    by (vm_compute; reflexivity).
  assert (Hnn : forall i, In i (listed w) -> is_nullish (parameters i) = false).
  { intros i Hin. rewrite forallb_forall in Hall. specialize (Hall i Hin).
    apply negb_true_iff in Hall. exact Hall. }
  split; [exact Hnn|].
  destruct (proj1 (getStorybook_groups_in_kind_order false Fixture.no_sort true Sample.ops)
                  Hnn) as (gs & H1 & H2 & H3 & _).
  exists gs. split; [exact H1|]. split; [exact H2|].
  apply H3.
  assert (Hex : existsb (fun i => String.eqb (kind i) "a") (listed w) = true)
    by (vm_compute; reflexivity).
  apply existsb_exists in Hex. destruct Hex as (i & Hin & Hk).
  apply String.eqb_eq in Hk. exists i. split; [exact Hin|]. rewrite Hk. reflexivity.
Defined.

(** ** The sort used by extract *)

Lemma find_ext_in {A} (f g : A -> bool) (l : list A) :
  (forall x, In x l -> f x = g x) -> find f l = find g l.
Proof.
  induction l as [|a l IH]; simpl; intros H; auto.
  rewrite (H a (or_introl eq_refl)). destruct (g a); auto.
Qed.

Lemma find_keys_lookup {A} (P : A -> bool) (l : list (string * A)) :
  NoDup (keys l) ->
  find (fun key => match lookup key l with Some st => P st | None => false end) (keys l)
  = option_map fst (find (fun kv => P (snd kv)) l).
Proof.
  induction l as [|[k e] l IH]; simpl; intros Hnd; auto.
  inversion Hnd as [|? ? Hn Hnd']; subst.
  rewrite String.eqb_refl. destruct (P e); simpl; [reflexivity|].
  rewrite <- (IH Hnd'). apply find_ext_in. intros key Hin.
  destruct (String.eqb_spec key k) as [->|Hne]; [contradiction|reflexivity].
Qed.

Lemma storySortParameter_decisive stories :
  NoDup (keys stories) ->
  storySortParameter stories
  = match decisive stories with
    | Some kv => requested_sort kv
    | None => None
    end.
Proof.
  intros Hnd. unfold storySortParameter, decisive.
  rewrite (find_keys_lookup
             (fun st => truthy (parameters st) && truthy (get (parameters st) "options"))
             stories Hnd).
  destruct (find _ stories) as [[k e]|] eqn:Ef; simpl; [|reflexivity].
  apply find_some in Ef. destruct Ef as [Hin _].
  rewrite (In_lookup _ _ _ Hnd Hin). reflexivity.
Qed.

Lemma extract_fold_filter options w sorted :
  TableInv w -> Permutation (_stories (this w)) sorted ->
  fold_left (fun a kv => if includeStory (parameters (snd kv)) options
                         then assign (fst kv) (toExtracted (snd kv)) a else a)
            sorted []
  = map (fun kv => (fst kv, toExtracted (snd kv)))
        (filter (fun kv => includeStory (parameters (snd kv)) options) sorted).
Proof.
  intros Hi Hp.
  rewrite (fold_assign_filter (fun kv => includeStory (parameters (snd kv)) options)
             toExtracted sorted []); [reflexivity|].
  simpl. eapply Permutation_NoDup; [|apply (inv_ids Hi)].
  unfold keys. now apply Permutation_map.
Qed.

Lemma lookup_extracted options w sorted x ex :
  TableInv w -> Permutation (_stories (this w)) sorted ->
  lookup x (map (fun kv => (fst kv, toExtracted (snd kv)))
                (filter (fun kv => includeStory (parameters (snd kv)) options) sorted))
    = Some ex <->
  exists e, lookup x (_stories (this w)) = Some e /\
            includeStory (parameters e) options = true /\ ex = toExtracted e.
Proof.
  intros Hi Hperm. rewrite lookup_map_values.
  assert (Hnd : NoDup (keys sorted)).
  { eapply Permutation_NoDup; [|apply (inv_ids Hi)]. unfold keys. now apply Permutation_map. }
  assert (Hlf : forall e, lookup x (filter (fun kv => includeStory (parameters (snd kv)) options)
                                           sorted) = Some e <->
                          lookup x (_stories (this w)) = Some e /\
                          includeStory (parameters e) options = true).
  { intros e. rewrite <- (lookup_permutation x _ _ (inv_ids Hi) Hperm). split.
    - intros H. apply lookup_In in H. apply filter_In in H. destruct H as [H1 H2].
      split; [now apply In_lookup | exact H2].
    - intros [H1 H2]. apply In_lookup.
      + unfold keys. now apply NoDup_map_filter.
      + apply filter_In. split; [now apply lookup_In | exact H2]. }
  split.
  - destruct (lookup x (filter _ sorted)) as [e|] eqn:El; [|discriminate].
    intros [= <-]. exists e. destruct (proj1 (Hlf e) eq_refl). tauto.
  - intros (e & H1 & H2 & ->). now rewrite (proj2 (Hlf e) (conj H1 H2)).
Qed.

(** X27. What extract returns on a reachable store, whatever sort is in
    force and whatever the options: it returns, without changing anything,
    a mapping with one entry for each story of the table that the options
    include, under the id of the story and under no other key; no id occurs
    twice; the sort only decides the order.  The entry of a story holds its
    id, kind, name and args as they are stored.  Its parameters are left
    out when they are a function, are a sorted copy when they are an array,
    and are as stored otherwise. *)
Theorem extract_returns_included_stories :
  forall inJest cmp (ch : bool) (ops : list Op) (options : option StoryOptions),
    let w := run inJest cmp ops (new_World ch) in
    exists l,
      extract cmp options w = (Return l, w) /\
      NoDup (keys l) /\
      (forall x, In x (keys l) <->
         exists e, lookup x (_stories (this w)) = Some e /\
                   includeStory (parameters e) options = true) /\
      (forall x ex e,
         lookup x l = Some ex -> lookup x (_stories (this w)) = Some e ->
         ex_id ex = x /\ ex_kind ex = kind e /\ ex_name ex = name e /\
         ex_story ex = story e /\ ex_args ex = Some (AsStored (args e)) /\
         ex_parameters ex = match parameters e with
                            | VFun _ => None
                            | VArr xs => Some (SortedCopy xs)
                            | p => Some (AsStored p)
                            end).
Proof.
  intros inJest cmp ch ops options w.
  pose proof (reachable_TableInv inJest cmp ops ch) as Hi. fold w in Hi.
  destruct (extract_eq cmp options w Hi) as (sorted & Hperm & E & _).
  eexists. split; [exact E|].
  assert (Hnd : NoDup (keys sorted)).
  { eapply Permutation_NoDup; [|apply (inv_ids Hi)]. unfold keys. now apply Permutation_map. }
  assert (Hnd' : NoDup (keys (map (fun kv => (fst kv, toExtracted (snd kv)))
                                  (filter (fun kv => includeStory (parameters (snd kv)) options)
                                          sorted)))).
  { unfold keys. rewrite map_map. simpl. now apply NoDup_map_filter. }
  split; [exact Hnd'|]. split.
  - intros x. split.
    + intros Hin. apply in_map_iff in Hin. destruct Hin as ([k ex] & <- & Hin). simpl.
      apply (In_lookup _ _ _ Hnd') in Hin.
      apply (lookup_extracted options w sorted k ex Hi Hperm) in Hin.
      destruct Hin as (e & H1 & H2 & _). eauto.
    + intros (e & H1 & H2).
      assert (Hl : lookup x (map (fun kv => (fst kv, toExtracted (snd kv)))
                                 (filter (fun kv => includeStory (parameters (snd kv)) options)
                                         sorted)) = Some (toExtracted e)).
      { apply (lookup_extracted options w sorted x _ Hi Hperm). eauto. }
      apply lookup_In in Hl. apply in_map_iff. exists (x, toExtracted e). split; auto.
  - intros x ex e Hx He.
    apply (lookup_extracted options w sorted x ex Hi Hperm) in Hx.
    destruct Hx as (e' & H1 & _ & ->). rewrite He in H1. injection H1 as <-.
    destruct (reachable_ArgsInv inJest cmp ops ch) as [_ Ha]. fold w in Ha.
    destruct (Ha x e (lookup_In _ _ _ He)) as (ps & Eargs & _).
    simpl. rewrite Eargs.
    split; [apply (inv_key Hi x e); now apply lookup_In|].
    repeat split. unfold extracted_member. destruct (parameters e); reflexivity.
Qed.

(** X28. Which sort extract uses on a reachable store none of whose ids is
    index-like.  Only one story is consulted: the first in table order
    whose parameters have [options].
    When that story has a truthy [options.storySort], the entries of the
    table are sorted, stably, with the comparator it denotes, and the
    declaration order of the kinds plays no part.  When there is no such
    story, or it has no storySort, the result does not depend on the
    comparator at all, also when later stories of the table ask for a sort:
    the stories come in ascending declaration order of their kinds, and
    those of one kind in table order. *)
Theorem extract_sort_decided_by_first_story_with_options :
  forall inJest cmp (ch : bool) (ops : list Op) (options : option StoryOptions),
    let w := run inJest cmp ops (new_World ch) in
    let stories := _stories (this w) in
    no_index_keys stories = true ->
    match match decisive stories with Some kv => requested_sort kv | None => None end with
    | Some p =>
        exists sorted,
          stable_sort (fun a b => Some (cmp p a b)) stories = Some sorted /\
          extract cmp options w
          = (Return (map (fun kv => (fst kv, toExtracted (snd kv)))
                         (filter (fun kv => includeStory (parameters (snd kv)) options)
                                 sorted)), w)
    | None =>
        (forall cmp', extract cmp' options w = extract cmp options w) /\
        exists l,
          extract cmp options w = (Return l, w) /\
          forall x y ex ey,
            lookup x stories = Some ex -> lookup y stories = Some ey ->
            includeStory (parameters ex) options = true ->
            includeStory (parameters ey) options = true ->
            (kind_rank (this w) ex < kind_rank (this w) ey \/
             (kind ex = kind ey /\ precedes x y (keys stories))) ->
            precedes x y (keys l)
    end.
Proof.
  intros inJest cmp ch ops options w stories _.
  pose proof (reachable_TableInv inJest cmp ops ch) as Hi. fold w in Hi.
  rewrite <- (storySortParameter_decisive stories (inv_ids Hi)).
  destruct (storySortParameter stories) as [p|] eqn:Ep.
  - destruct (stable_sort_total_perm (cmp p) stories) as (s & Es & Hp).
    exists s. split; [exact Es|].
    unfold extract. rewrite bind_get_this. fold stories. rewrite Ep.
    assert (Hlen : (0 <? List.length (values stories))%nat = true).
    { destruct stories; [discriminate|reflexivity]. }
    rewrite Hlen, Es. unfold bind, ret.
    now rewrite (extract_fold_filter options w s Hi Hp).
  - split.
    + intros cmp'. unfold extract. rewrite !bind_get_this. fold stories. now rewrite Ep.
    + destruct (extract_eq cmp options w Hi) as (sorted & Hperm & E & Hdef).
      destruct (Hdef Ep) as [Hsorted Hstable].
      eexists. split; [exact E|].
      intros x y ex ey Hx Hy Ix Iy Hord.
      unfold keys. rewrite map_map. simpl.
      apply (precedes_map fst (x, ex) (y, ey)).
      apply precedes_filter; [|assumption|assumption].
      pose proof (lookup_In _ _ _ Hx) as Hxin. pose proof (lookup_In _ _ _ Hy) as Hyin.
      destruct Hord as [Hlt|[Hk Hp]].
      * destruct (precedes_total (x, ex) (y, ey) sorted) as [H|H]; auto.
        -- eapply Permutation_in; eassumption.
        -- eapply Permutation_in; eassumption.
        -- intros [= -> ->]. lia.
        -- apply Hsorted in H. simpl in H. lia.
      * apply Hstable.
        -- apply precedes_keys; auto. apply (inv_ids Hi).
        -- simpl. unfold kind_rank. rewrite Hk. lia.
Qed.

Lemma extract_sort_decided_by_first_story_with_options_witness :
  let ops := [AddStory (Fixture.story_of "a--1" "a" "1"
                          (VObj [("options", VObj [("showPanel", VBool true)])])) 9 false;
              AddStory (Fixture.story_of "b--1" "b" "1"
                          (VObj [("options", VObj [("storySort", VFun 3)])])) 9 false] in
  let w := run false Fixture.no_sort ops (new_World true) in
  no_index_keys (_stories (this w)) = true /\
  match decisive (_stories (this w)) with
  | Some kv => requested_sort kv
  | None => None
  end = None /\
  forall cmp', extract cmp' None w = extract Fixture.no_sort None w.
Proof.
  intros ops w.
  assert (Hn : no_index_keys (_stories (this w)) = true) by (vm_compute; reflexivity).
  assert (E : match decisive (_stories (this w)) with
              | Some kv => requested_sort kv
              | None => None
              end = None) by (vm_compute; reflexivity).
  split; [exact Hn|]. split; [exact E|].
  pose proof (extract_sort_decided_by_first_story_with_options
                false Fixture.no_sort true ops None) as H.
  cbv zeta in H. fold w in H. specialize (H Hn). rewrite E in H. exact (proj1 H).
Defined.

(** ** Collaborators an operation calls *)

(** X29. Which collaborators an operation calls.  The logger is called only
    by addGlobalMetadata, addKindMetadata and addStory; the channel only by
    finishConfiguring, pushToManager, updateGlobalArgs, updateStoryArgs,
    setSelection and setError; hooks are cleaned only by remove,
    removeStoryKind, cleanHooks and cleanHooksForKind; the decorator
    composer runs only when a stored render function or its getDecorated
    closure is called.  No operation reaches the composed render
    function. *)
Theorem step_calls_only_its_collaborators :
  forall inJest cmp (w : World) (o : Op),
    exists d,
      effects (step inJest cmp w o) = effects w ++ d /\
      (forall e, In e d -> In (collaborator_of e) (talks_to o)) /\
      (forall e, In e d -> collaborator_of e <> Renderer).
Proof.
  intros inJest cmp w o. destruct (op_collaborators inJest cmp o w) as (d & E & H).
  exists d. split; [exact E|]. split; [exact H|].
  intros e Hin Hr. specialize (H e Hin). rewrite Hr in H.
  destruct o; simpl in H; intuition discriminate.
Qed.

Lemma step_no_channel inJest cmp w o :
  TableInv w -> _channel (this w) = false ->
  exists d, effects (step inJest cmp w o) = effects w ++ d /\
            forall e, In e d -> collaborator_of e <> Channel.
Proof.
  intros Hi Hch.
  assert (Hother : ~ In Channel (talks_to o) ->
            exists d, effects (step inJest cmp w o) = effects w ++ d /\
                      forall e, In e d -> collaborator_of e <> Channel).
  { intros Hn. destruct (op_collaborators inJest cmp o w) as (d & E & H).
    exists d. split; [exact E|]. intros e Hin Hc. apply Hn. rewrite <- Hc. now apply H. }
  assert (Hnone : effects (step inJest cmp w o) = effects w ->
            exists d, effects (step inJest cmp w o) = effects w ++ d /\
                      forall e, In e d -> collaborator_of e <> Channel).
  { intros E. exists []. split; [now rewrite app_nil_r | intros e []]. }
  destruct o; try (apply Hother; simpl; intuition discriminate); clear Hother;
    apply Hnone; unfold step; simpl.
  - destruct (finishConfiguring_outline cmp w Hi) as (l & _ & E & _).
    rewrite E, Hch. apply app_nil_r.
  - unfold updateGlobalArgs. rewrite bind_modify, bind_get_this. simpl. now rewrite Hch.
  - unfold updateStoryArgs. rewrite bind_get_this.
    destruct (lookup sid (_stories (this w))); [|reflexivity].
    rewrite bind_modify. now rewrite Hch.
  - unfold pushToManager. rewrite bind_get_this, Hch. reflexivity.
  - rewrite setSelection_eq. simpl. rewrite Hch. apply app_nil_r.
  - unfold setError. rewrite bind_modify, bind_get_this. simpl. now rewrite Hch.
Qed.

Lemma run_no_channel inJest cmp ops :
  forall w,
    TableInv w -> _channel (this w) = false ->
    (forall e, In e (effects w) -> collaborator_of e <> Channel) ->
    forall e, In e (effects (run inJest cmp ops w)) -> collaborator_of e <> Channel.
Proof.
  induction ops as [|o ops IH]; simpl; intros w Hi Hch Hw; [exact Hw|].
  apply IH.
  - apply (sum_table (step_summary inJest cmp w o) Hi).
  - rewrite <- Hch. apply (step_same_field inJest cmp w o FChannel).
    destruct o; simpl; intuition discriminate.
  - destruct (step_no_channel inJest cmp w o Hi Hch) as (d & E & Hd).
    rewrite E. intros e Hin. apply in_app_or in Hin. destruct Hin; auto.
Qed.

(** X30. A store built without a channel.  Whatever operations are run on
    it, no call in the trace is a call to the channel.  setSelection,
    setError and pushToManager test for the channel and return normally.
    updateGlobalArgs and, for a registered story, updateStoryArgs do not:
    they call [emit] on the missing channel and throw a TypeError, and the
    merged args have been stored by then. *)
Theorem store_without_channel_never_emits_and_updates_throw :
  forall inJest cmp (ops : list Op) (v : value),
    let w := run inJest cmp ops (new_World false) in
    Forall (fun e => collaborator_of e <> Channel) (effects w) /\
    (exists msg w',
        updateGlobalArgs v w = (Throw (TypeError msg), w') /\
        _globalArgs (this w') = VObj (spread (spread [] (_globalArgs (this w))) v) /\
        effects w' = effects w) /\
    (forall sid e,
        lookup sid (_stories (this w)) = Some e ->
        exists msg w',
          updateStoryArgs sid v w = (Throw (TypeError msg), w') /\
          option_map args (lookup sid (_stories (this w')))
            = Some (VObj (spread (spread [] (args e)) v)) /\
          effects w' = effects w) /\
    (forall sel, fst (setSelection sel w) = Return tt /\
                 effects (snd (setSelection sel w)) = effects w) /\
    (forall err, fst (setError err w) = Return tt /\
                 effects (snd (setError err w)) = effects w) /\
    pushToManager cmp w = (Return tt, w).
Proof.
  intros inJest cmp ops v w.
  pose proof (reachable_channel inJest cmp ops false) as Hch. fold w in Hch.
  split.
  { apply Forall_forall.
    apply (run_no_channel inJest cmp ops (new_World false));
      [apply TableInv_new | reflexivity | intros e []]. }
  repeat split.
  - unfold updateGlobalArgs. rewrite bind_modify, bind_get_this. simpl. rewrite Hch.
    eexists _, _. repeat split.
  - intros sid e E. pose proof (updateStoryArgs_eq sid v w e E) as H. cbv zeta in H.
    rewrite Hch in H. eexists _, _. split; [exact H|]. simpl.
    rewrite lookup_assign_same. split; reflexivity.
  - rewrite setSelection_eq. reflexivity.
  - rewrite setSelection_eq. simpl. rewrite Hch. apply app_nil_r.
  - unfold setError. rewrite bind_modify, bind_get_this. simpl. now rewrite Hch.
  - unfold setError. rewrite bind_modify, bind_get_this. simpl. now rewrite Hch.
  - unfold pushToManager. rewrite bind_get_this, Hch. reflexivity.
Qed.
